(** * Battleship: the probability engine of calebdame/Battleship

    A shallow embedding of [BayesianSampling/Battleship.py] and
    [StatisticsSampling/Battleship.py], and the properties of the evidence
    store, the orientation filter, the conditional board sampler, the
    aggregator and the game driver.

    Conventions of the embedding:
    - Python integers are [Z]; a cell [(row, col)] is a pair of integers; a
      Python [set] of cells is a [gset cell];
    - a Python [dict] is an association list in insertion order ([dict]);
    - a computation that can raise returns a [result]; a computation that
      draws random numbers or reads the clock lives in the monad [M] over a
      [world] of draws and clock readings; a loop without a bound
      ([while 1]) takes a number of iterations it may use and answers
      [Diverge] when they are used up;
    - the order in which Python iterates over a set is not specified: it is
      a parameter [set_order] of the development. *)

From Stdlib Require Import ZArith QArith String Ascii.
From stdpp Require Import gmap strings list fin_sets.

Open Scope Z_scope.

Definition cell : Type := Z * Z.

(** ** The Python runtime the two programs use *)
Module Py.

Inductive exn := ValueError | KeyError | IndexError | AttributeError.

Inductive result (A : Type) : Type :=
| Ret (a : A)
| Raise (e : exn)
| Diverge.
Arguments Ret {A} a.
Arguments Raise {A} e.
Arguments Diverge {A}.

#[global] Instance result_ret : MRet result := @Ret.
#[global] Instance result_bind : MBind result := λ A B f m,
  match m with
  | Ret a => f a
  | Raise e => Raise e
  | Diverge => Diverge
  end.

(** The environment: the draws of the random generators and the readings of
    [time()], each with a cursor; the subtraction and the division of the
    machine on floating-point numbers, which are the rationals that the
    doubles stand for; and the numbers that fix the order in which a set
    that was built from a list is iterated, with a cursor. *)
Record world := World {
  rand : nat → nat;
  rpos : nat;
  clock : nat → Q;
  cpos : nat;
  fsub : Q → Q → Q;
  fdiv : Q → Q → Q;
  iter : nat → nat;
  ipos : nat
}.

Definition M (A : Type) : Type := world → result (A * world).

#[global] Instance M_ret : MRet M := λ A a w, Ret (a, w).
#[global] Instance M_bind : MBind M := λ A B f m w,
  match m w with
  | Ret (a, w') => f a w'
  | Raise e => Raise e
  | Diverge => Diverge
  end.

Definition lift {A} (r : result A) : M A := λ w,
  match r with
  | Ret a => Ret (a, w)
  | Raise e => Raise e
  | Diverge => Diverge
  end.

Definition raise {A} (e : exn) : M A := λ _, Raise e.
Definition diverge {A} : M A := λ _, Diverge.

(** [np.random.randint(n)]: a draw in [0, n); [ValueError] when [n <= 0]. *)
Definition randint (n : Z) : M Z := λ w,
  if decide (0 < n)
  then Ret (Z.of_nat (rand w (rpos w)) mod n,
            World (rand w) (S (rpos w)) (clock w) (cpos w)
              (fsub w) (fdiv w) (iter w) (ipos w))
  else Raise ValueError.

(** [time()] *)
Definition time : M Q := λ w,
  Ret (clock w (cpos w),
       World (rand w) (rpos w) (clock w) (S (cpos w))
         (fsub w) (fdiv w) (iter w) (ipos w)).

(** [x - y] and [x / y] on floating-point numbers *)
Definition float_sub (x y : Q) : M Q := λ w, Ret (fsub w x y, w).
Definition float_div (x y : Q) : M Q := λ w, Ret (fdiv w x y, w).

(** The [k]-th arrangement of a list: its element at [k mod len], then the
    arrangement [k / len] of the others. *)
Fixpoint arrange {A} (n : nat) (k : nat) (l : list A) : list A :=
  match n with
  | O => []
  | S n' =>
      let i := (k mod length l)%nat in
      match l !! i with
      | Some x => x :: arrange n' (k / length l)%nat (delete i l)
      | None => []
      end
  end.

(** [list(s)] for a set [s] that the program has built from a list: its
    cells in an order that the environment fixes, call by call. *)
Definition listed (s : gset cell) : M (list cell) := λ w,
  Ret (arrange (size s) (iter w (ipos w)) (elements s),
       World (rand w) (rpos w) (clock w) (cpos w)
         (fsub w) (fdiv w) (iter w) (S (ipos w))).

(** [l[i]] for a list *)
Definition index {A} (l : list A) (i : Z) : result A :=
  if decide (0 ≤ i)
  then match l !! Z.to_nat i with
       | Some x => Ret x
       | None => Raise IndexError
       end
  else match l !! (length l - Z.to_nat (- i))%nat with
       | Some x => if decide (Z.to_nat (- i) ≤ length l)%nat then Ret x else Raise IndexError
       | None => Raise IndexError
       end.

(** [np.random.choice(l)] *)
Definition choice {A} (l : list A) : M A :=
  i ← randint (Z.of_nat (length l)); lift (index l i).

(** [random.shuffle(x)]: for i from len(x)-1 down to 1, swap x[i] with
    x[j] for a draw j in [0, i]. *)
Definition swap {A} (x : list A) (i j : nat) : list A :=
  match x !! i, x !! j with
  | Some a, Some b => <[i := b]> (<[j := a]> x)
  | _, _ => x
  end.

Fixpoint shuffle_from {A} (i : nat) (x : list A) : M (list A) :=
  match i with
  | O => mret x
  | S i' => j ← randint (Z.of_nat (S i)); shuffle_from i' (swap x i (Z.to_nat j))
  end.

Definition shuffle {A} (x : list A) : M (list A) :=
  shuffle_from (length x - 1) x.

(** [range(n)] *)
Definition range (n : Z) : list Z := Z.of_nat <$> seq 0 (Z.to_nat n).

(** Dictionaries, in insertion order. *)
Abbreviation dict K V := (list (K * V)) (only parsing).

Section dict.
Context {K : Type} `{EqDecision K} {V : Type}.

Fixpoint dget (k : K) (d : dict K V) : option V :=
  match d with
  | [] => None
  | (k', v) :: d' => if decide (k' = k) then Some v else dget k d'
  end.

(** [d[k]] *)
Definition item (d : dict K V) (k : K) : result V :=
  match dget k d with
  | Some v => Ret v
  | None => Raise KeyError
  end.

(** [d[k] = v] *)
Fixpoint dset (k : K) (v : V) (d : dict K V) : dict K V :=
  match d with
  | [] => [(k, v)]
  | (k', v') :: d' =>
      if decide (k' = k) then (k, v) :: d' else (k', v') :: dset k v d'
  end.

(** [del d[k]] *)
Definition ddel (k : K) (d : dict K V) : result (dict K V) :=
  match dget k d with
  | Some _ => Ret (filter (λ p, p.1 ≠ k) d)
  | None => Raise KeyError
  end.

(** [dict(l)] for a list of pairs *)
Definition of_items (l : list (K * V)) : dict K V :=
  fold_left (λ d p, dset p.1 p.2 d) l [].

Definition keys (d : dict K V) : list K := d.*1.
End dict.

(** [sorted]: a stable sort, here by insertion; [le y x] says that [y] may
    stay before an [x] that comes later in the input. *)
Fixpoint insert_by {A} (le : A → A → bool) (x : A) (l : list A) : list A :=
  match l with
  | [] => [x]
  | y :: l' => if le y x then y :: insert_by le x l' else x :: y :: l'
  end.

Definition sorted_by {A} (le : A → A → bool) (l : list A) : list A :=
  fold_left (λ acc x, insert_by le x acc) l [].

(** [sorted(d.items(), key=lambda item: item[1])], keys only *)
Definition sorted_by_value {K} (d : dict K Z) : list K :=
  (sorted_by (λ y x : K * Z, bool_decide (y.2 ≤ x.2)) d).*1.

(** The order of Python on pairs [(int, str)] *)
Definition pair_le (y x : Z * string) : bool :=
  if decide (y.1 = x.1) then String.leb y.2 x.2 else bool_decide (y.1 < x.1).

(** [itertools.permutations(l)], in its order: by position of the first
    element, then recursively. *)
Fixpoint permutations_upto {A} (n : nat) (l : list A) : list (list A) :=
  match n with
  | O => [[]]
  | S n' =>
      match l with
      | [] => [[]]
      | _ =>
          i ← seq 0 (length l);
          match l !! i with
          | Some x => (x ::.) <$> permutations_upto n' (delete i l)
          | None => []
          end
      end
  end.

Definition permutations {A} (l : list A) : list (list A) :=
  permutations_upto (length l) l.

(** [Counter(l)]: counts, keys in first-seen order. *)
Definition Counter (l : list cell) : dict cell Z :=
  fold_left (λ d c, dset c (default 0 (dget c d) + 1) d) l [].

(** [c.most_common()]: by count, largest first, stable. *)
Definition most_common (d : dict cell Z) : dict cell Z :=
  sorted_by (λ y x : cell * Z, bool_decide (x.2 ≤ y.2)) d.

(** [c.most_common(n)] *)
Definition most_common_n (n : Z) (d : dict cell Z) : dict cell Z :=
  take (Z.to_nat n) (most_common d).

(** [x < y] on clock readings *)
Definition Qltb (x y : Q) : bool := negb (Qle_bool y x).

(** [max(d, key=d.get)]: the first key of largest value; [ValueError] on an
    empty dictionary. *)
Fixpoint max_from (best : cell) (bestv : Z) (d : dict cell Z) : cell :=
  match d with
  | [] => best
  | (k, v) :: d' =>
      if decide (bestv < v) then max_from k v d' else max_from best bestv d'
  end.

Definition max_key (d : dict cell Z) : result cell :=
  match d with
  | [] => Raise ValueError
  | (k, v) :: d' => Ret (max_from k v d')
  end.

(** [string.ascii_lowercase], as one-letter strings *)
Definition ascii_lowercase : list string :=
  ["a"; "b"; "c"; "d"; "e"; "f"; "g"; "h"; "i"; "j"; "k"; "l"; "m";
   "n"; "o"; "p"; "q"; "r"; "s"; "t"; "u"; "v"; "w"; "x"; "y"; "z"]%string.

(** [np.sum] of a list of integers *)
Definition sum (l : list Z) : Z := foldr Z.add 0 l.

(** [len] of a set and of a list *)
Definition len (s : gset cell) : Z := Z.of_nat (size s).
Definition llen {A} (l : list A) : Z := Z.of_nat (length l).

(** All the layouts of one ship of length [L] on a board of side [dim]:
    the runs along the first coordinate, then the runs along the second. *)
Definition run1 (L i j : Z) : gset cell :=
  list_to_set ((λ temp, (i + temp, j)) <$> range L).
Definition run2 (L i j : Z) : gset cell :=
  list_to_set ((λ temp, (j, i + temp)) <$> range L).

End Py.

(** ** Loops over lists in the two monads *)
Section loops.
Import Py.

Fixpoint for_each {A S} (l : list A) (body : A → S → result S) (s : S) : result S :=
  match l with
  | [] => Ret s
  | x :: l' => s' ← body x s; for_each l' body s'
  end.

Fixpoint for_eachM {A S} (l : list A) (body : A → S → M S) (s : S) : M S :=
  match l with
  | [] => mret s
  | x :: l' => s' ← body x s; for_eachM l' body s'
  end.

(** [[x for x in l if p(x)]] where [p] can raise *)
Fixpoint select {A} (p : A → result bool) (l : list A) : result (list A) :=
  match l with
  | [] => Ret []
  | x :: l' =>
      b ← p x;
      r ← select p l';
      Ret (if b : bool then x :: r else r)
  end.
End loops.

(** ** BayesianSampling/Battleship.py *)
Module Bayesian.
Import Py.

(** What a conditional candidate list can hold: a placement (a set of
    cells) or, after [list(location)], a single cell (a tuple). *)
Inductive entry :=
| ESet (s : gset cell)
| ETup (c : cell).

#[global] Instance entry_eq_dec : EqDecision entry.
Proof. solve_decision. Defined.

(** The values met when such entries are iterated: cells, and the integer
    components of a cell. *)
Inductive pyval :=
| VCell (c : cell)
| VInt (z : Z).

#[global] Instance pyval_eq_dec : EqDecision pyval.
Proof. solve_decision. Defined.

(** The elements of an entry, as Python iterates it *)
Definition members (e : entry) : list pyval :=
  match e with
  | ESet s => VCell <$> elements s
  | ETup c => [VInt c.1; VInt c.2]
  end.

(** [hit in k] *)
Definition holds (hit : cell) (k : entry) : bool :=
  bool_decide (VCell hit ∈ members k).

(** [hit in set().union( *locations)] *)
Definition covers (hit : cell) (locations : list entry) : bool :=
  bool_decide (VCell hit ∈ locations ≫= members).

(** The object: the attributes of [Battleship], [BattleshipPlayer] and
    [BattleshipAutoplay]. An attribute holds a neutral value until the
    program assigns it. *)
Record game := Game {
  dim : Z;
  numShips : Z;
  ships : list Z;
  names : list string;
  sunkDict : dict string Z;
  shipLengths : dict string Z;
  possibleShipsDict : dict string (list (gset cell));
  possibleShipsNumDict : dict string Z;
  numPerms : Z;
  randomOrderDict : dict Z (list string);
  boats : list (string * gset cell);
  board : gset cell;
  hits : gset cell;
  hitsSunk : gset cell;
  misses : gset cell;
  possibleShipsDictCond : dict string (list entry);
  possibleShipsNumDictCond : dict string Z;
  lastTurnBoards : list (gset cell);
  nextInx : cell;
  randomOrder : bool;
  batchSize : Z;
  printTime : bool;
  numMaxHits : Z;
  order : list string;
  aggDict : dict cell Z;
  numIter : Z
}.

Definition with_sunkDict (v : dict string Z) (g : game) : game :=
  Game (dim g) (numShips g) (ships g) (names g) v (shipLengths g) (possibleShipsDict g) (possibleShipsNumDict g) (numPerms g) (randomOrderDict g) (boats g) (board g) (hits g) (hitsSunk g) (misses g) (possibleShipsDictCond g) (possibleShipsNumDictCond g) (lastTurnBoards g) (nextInx g) (randomOrder g) (batchSize g) (printTime g) (numMaxHits g) (order g) (aggDict g) (numIter g).
Definition with_possibleShipsDict (v : dict string (list (gset cell))) (g : game) : game :=
  Game (dim g) (numShips g) (ships g) (names g) (sunkDict g) (shipLengths g) v (possibleShipsNumDict g) (numPerms g) (randomOrderDict g) (boats g) (board g) (hits g) (hitsSunk g) (misses g) (possibleShipsDictCond g) (possibleShipsNumDictCond g) (lastTurnBoards g) (nextInx g) (randomOrder g) (batchSize g) (printTime g) (numMaxHits g) (order g) (aggDict g) (numIter g).
Definition with_possibleShipsNumDict (v : dict string Z) (g : game) : game :=
  Game (dim g) (numShips g) (ships g) (names g) (sunkDict g) (shipLengths g) (possibleShipsDict g) v (numPerms g) (randomOrderDict g) (boats g) (board g) (hits g) (hitsSunk g) (misses g) (possibleShipsDictCond g) (possibleShipsNumDictCond g) (lastTurnBoards g) (nextInx g) (randomOrder g) (batchSize g) (printTime g) (numMaxHits g) (order g) (aggDict g) (numIter g).
Definition with_randomOrderDict (v : dict Z (list string)) (g : game) : game :=
  Game (dim g) (numShips g) (ships g) (names g) (sunkDict g) (shipLengths g) (possibleShipsDict g) (possibleShipsNumDict g) (numPerms g) v (boats g) (board g) (hits g) (hitsSunk g) (misses g) (possibleShipsDictCond g) (possibleShipsNumDictCond g) (lastTurnBoards g) (nextInx g) (randomOrder g) (batchSize g) (printTime g) (numMaxHits g) (order g) (aggDict g) (numIter g).
Definition with_boats (v : list (string * gset cell)) (g : game) : game :=
  Game (dim g) (numShips g) (ships g) (names g) (sunkDict g) (shipLengths g) (possibleShipsDict g) (possibleShipsNumDict g) (numPerms g) (randomOrderDict g) v (board g) (hits g) (hitsSunk g) (misses g) (possibleShipsDictCond g) (possibleShipsNumDictCond g) (lastTurnBoards g) (nextInx g) (randomOrder g) (batchSize g) (printTime g) (numMaxHits g) (order g) (aggDict g) (numIter g).
Definition with_board (v : gset cell) (g : game) : game :=
  Game (dim g) (numShips g) (ships g) (names g) (sunkDict g) (shipLengths g) (possibleShipsDict g) (possibleShipsNumDict g) (numPerms g) (randomOrderDict g) (boats g) v (hits g) (hitsSunk g) (misses g) (possibleShipsDictCond g) (possibleShipsNumDictCond g) (lastTurnBoards g) (nextInx g) (randomOrder g) (batchSize g) (printTime g) (numMaxHits g) (order g) (aggDict g) (numIter g).
Definition with_hits (v : gset cell) (g : game) : game :=
  Game (dim g) (numShips g) (ships g) (names g) (sunkDict g) (shipLengths g) (possibleShipsDict g) (possibleShipsNumDict g) (numPerms g) (randomOrderDict g) (boats g) (board g) v (hitsSunk g) (misses g) (possibleShipsDictCond g) (possibleShipsNumDictCond g) (lastTurnBoards g) (nextInx g) (randomOrder g) (batchSize g) (printTime g) (numMaxHits g) (order g) (aggDict g) (numIter g).
Definition with_hitsSunk (v : gset cell) (g : game) : game :=
  Game (dim g) (numShips g) (ships g) (names g) (sunkDict g) (shipLengths g) (possibleShipsDict g) (possibleShipsNumDict g) (numPerms g) (randomOrderDict g) (boats g) (board g) (hits g) v (misses g) (possibleShipsDictCond g) (possibleShipsNumDictCond g) (lastTurnBoards g) (nextInx g) (randomOrder g) (batchSize g) (printTime g) (numMaxHits g) (order g) (aggDict g) (numIter g).
Definition with_misses (v : gset cell) (g : game) : game :=
  Game (dim g) (numShips g) (ships g) (names g) (sunkDict g) (shipLengths g) (possibleShipsDict g) (possibleShipsNumDict g) (numPerms g) (randomOrderDict g) (boats g) (board g) (hits g) (hitsSunk g) v (possibleShipsDictCond g) (possibleShipsNumDictCond g) (lastTurnBoards g) (nextInx g) (randomOrder g) (batchSize g) (printTime g) (numMaxHits g) (order g) (aggDict g) (numIter g).
Definition with_possibleShipsDictCond (v : dict string (list entry)) (g : game) : game :=
  Game (dim g) (numShips g) (ships g) (names g) (sunkDict g) (shipLengths g) (possibleShipsDict g) (possibleShipsNumDict g) (numPerms g) (randomOrderDict g) (boats g) (board g) (hits g) (hitsSunk g) (misses g) v (possibleShipsNumDictCond g) (lastTurnBoards g) (nextInx g) (randomOrder g) (batchSize g) (printTime g) (numMaxHits g) (order g) (aggDict g) (numIter g).
Definition with_possibleShipsNumDictCond (v : dict string Z) (g : game) : game :=
  Game (dim g) (numShips g) (ships g) (names g) (sunkDict g) (shipLengths g) (possibleShipsDict g) (possibleShipsNumDict g) (numPerms g) (randomOrderDict g) (boats g) (board g) (hits g) (hitsSunk g) (misses g) (possibleShipsDictCond g) v (lastTurnBoards g) (nextInx g) (randomOrder g) (batchSize g) (printTime g) (numMaxHits g) (order g) (aggDict g) (numIter g).
Definition with_lastTurnBoards (v : list (gset cell)) (g : game) : game :=
  Game (dim g) (numShips g) (ships g) (names g) (sunkDict g) (shipLengths g) (possibleShipsDict g) (possibleShipsNumDict g) (numPerms g) (randomOrderDict g) (boats g) (board g) (hits g) (hitsSunk g) (misses g) (possibleShipsDictCond g) (possibleShipsNumDictCond g) v (nextInx g) (randomOrder g) (batchSize g) (printTime g) (numMaxHits g) (order g) (aggDict g) (numIter g).
Definition with_nextInx (v : cell) (g : game) : game :=
  Game (dim g) (numShips g) (ships g) (names g) (sunkDict g) (shipLengths g) (possibleShipsDict g) (possibleShipsNumDict g) (numPerms g) (randomOrderDict g) (boats g) (board g) (hits g) (hitsSunk g) (misses g) (possibleShipsDictCond g) (possibleShipsNumDictCond g) (lastTurnBoards g) v (randomOrder g) (batchSize g) (printTime g) (numMaxHits g) (order g) (aggDict g) (numIter g).
Definition with_order (v : list string) (g : game) : game :=
  Game (dim g) (numShips g) (ships g) (names g) (sunkDict g) (shipLengths g) (possibleShipsDict g) (possibleShipsNumDict g) (numPerms g) (randomOrderDict g) (boats g) (board g) (hits g) (hitsSunk g) (misses g) (possibleShipsDictCond g) (possibleShipsNumDictCond g) (lastTurnBoards g) (nextInx g) (randomOrder g) (batchSize g) (printTime g) (numMaxHits g) v (aggDict g) (numIter g).
Definition with_aggDict (v : dict cell Z) (g : game) : game :=
  Game (dim g) (numShips g) (ships g) (names g) (sunkDict g) (shipLengths g) (possibleShipsDict g) (possibleShipsNumDict g) (numPerms g) (randomOrderDict g) (boats g) (board g) (hits g) (hitsSunk g) (misses g) (possibleShipsDictCond g) (possibleShipsNumDictCond g) (lastTurnBoards g) (nextInx g) (randomOrder g) (batchSize g) (printTime g) (numMaxHits g) (order g) v (numIter g).
Definition with_numIter (v : Z) (g : game) : game :=
  Game (dim g) (numShips g) (ships g) (names g) (sunkDict g) (shipLengths g) (possibleShipsDict g) (possibleShipsNumDict g) (numPerms g) (randomOrderDict g) (boats g) (board g) (hits g) (hitsSunk g) (misses g) (possibleShipsDictCond g) (possibleShipsNumDictCond g) (lastTurnBoards g) (nextInx g) (randomOrder g) (batchSize g) (printTime g) (numMaxHits g) (order g) (aggDict g) v.

Section Program.

(** The order in which Python iterates over a set of cells *)
Variable set_order : gset cell → list cell.

(** *** class Battleship *)

(** [generateRandomOrders] *)
Definition generateRandomOrders (g : game) : game :=
  let perms := permutations (names g) in
  Game (dim g) (numShips g) (ships g) (names g) (sunkDict g) (shipLengths g)
    (possibleShipsDict g) (possibleShipsNumDict g)
    (llen perms) (of_items (zip (range (llen perms)) perms))
    (boats g) (board g) (hits g) (hitsSunk g) (misses g)
    (possibleShipsDictCond g) (possibleShipsNumDictCond g) (lastTurnBoards g)
    (nextInx g) (randomOrder g) (batchSize g) (printTime g) (numMaxHits g)
    (order g) (aggDict g) (numIter g).

(** The two comprehensions of [generateComponentLayouts] for one length *)
Definition orientations1 (dim L : Z) : list (gset cell) :=
  i ← range (dim - L + 1); j ← range dim; [run1 L i j].
Definition orientations2 (dim L : Z) : list (gset cell) :=
  i ← range (dim - L + 1); j ← range dim; [run2 L i j].

(** [generateComponentLayouts] *)
Definition generateComponentLayouts (g : game) : result game :=
  for_each (names g)
    (λ name g,
       L ← item (shipLengths g) name;
       let o1 := orientations1 (dim g) L in
       let o2 := orientations2 (dim g) L in
       Ret (with_possibleShipsNumDict
              (dset name (llen o1 + llen o2) (possibleShipsNumDict g))
              (with_possibleShipsDict
                 (dset name (o1 ++ o2) (possibleShipsDict g)) g)))
    (with_possibleShipsNumDict [] (with_possibleShipsDict [] g)).

(** [Battleship.__init__] *)
Definition Battleship_init (dim : Z) (ships : list Z) : result game :=
  let names := take (length ships) ascii_lowercase in
  g ← generateComponentLayouts
         (Game dim (llen ships) ships names
            (of_items (zip names ((λ _, 0) <$> ships)))
            (of_items (zip names ships))
            [] [] 0 [] [] ∅ ∅ ∅ ∅ [] [] [] (0, 0) false 0 false 0 [] [] 0);
  Ret (generateRandomOrders g).

(** The [while 1] of [randomBoard] for one ship: draw a layout until one is
    disjoint from the cells taken so far. *)
Fixpoint place_ship (fuel : nat) (g : game) (name : string)
    (final_set : gset cell) : M (gset cell) :=
  match fuel with
  | O => diverge
  | S fuel' =>
      layouts ← lift (item (possibleShipsDict g) name);
      n ← lift (item (possibleShipsNumDict g) name);
      i ← randint n;
      ship_coords ← lift (index layouts i);
      if decide (ship_coords ## final_set)
      then mret ship_coords
      else place_ship fuel' g name final_set
  end.

(** [randomBoard]: returns the board and records the boats. *)
Definition randomBoard (fuel : nat) (g : game) : M (gset cell * game) :=
  i ← randint (numPerms g);
  order ← lift (item (randomOrderDict g) i);
  r ← for_eachM order
        (λ name (acc : gset cell * list (string * gset cell)),
           ship_coords ← place_ship fuel g name acc.1;
           mret (acc.1 ∪ ship_coords, acc.2 ++ [(name, ship_coords)]))
        (∅, []);
  mret (r.1, with_boats r.2 g).

(** *** class BattleshipPlayer *)

(** [d.copy()] of the catalogue into the conditional lists *)
Definition as_entries (d : dict string (list (gset cell))) : dict string (list entry) :=
  (λ p : string * list (gset cell), (p.1, ESet <$> p.2)) <$> d.

(** [BattleshipPlayer.__init__] *)
Definition BattleshipPlayer_init (fuel : nat) (dim : Z) (ships : list Z)
    (randomOrder : bool) (batchSize : Z) (printTime : bool) : M game :=
  g ← lift (Battleship_init dim ships);
  r ← randomBoard fuel g;
  let g := r.2 in
  mret (Game (Bayesian.dim g) (numShips g) (Bayesian.ships g) (names g)
          (sunkDict g) (shipLengths g)
          (possibleShipsDict g) (possibleShipsNumDict g)
          (numPerms g) (randomOrderDict g) (boats g)
          r.1 ∅ ∅ ∅
          (as_entries (possibleShipsDict g)) (possibleShipsNumDict g)
          [] (-1, -1) randomOrder batchSize printTime
          (sum (Bayesian.ships g))
          (sorted_by pair_le (zip ships (names g))).*2
          (aggDict g) (numIter g)).

(** [BattleshipAutoplay.__init__]: the same constructor *)
Definition BattleshipAutoplay_init (fuel : nat) (dim : Z) (ships : list Z)
    (randomOrder : bool) (batchSize : Z) (printTime : bool) : M game :=
  BattleshipPlayer_init fuel dim ships randomOrder batchSize printTime.

(** [guess]: the printed text is not part of the object. *)
Definition guess (guessInx : cell) (g : game) : game :=
  let g := with_nextInx guessInx g in
  if decide (guessInx ∈ board g)
  then with_hits (hits g ∪ {[guessInx]}) g
  else with_misses (misses g ∪ {[guessInx]}) g.

(** [updateOrientations], first loop: the boats whose location is covered
    by the hits are sunk. *)
Definition sink_boat (i : string * gset cell) (g : game) : game :=
  let '(boat, location) := i in
  if decide (location ⊆ hits g)
  then with_possibleShipsNumDictCond (dset boat 1 (possibleShipsNumDictCond g))
         (with_possibleShipsDictCond
            (dset boat (ETup <$> set_order location) (possibleShipsDictCond g))
            (with_sunkDict (dset boat 1 (sunkDict g))
               (with_hitsSunk (hitsSunk g ∪ location) g)))
  else g.

Definition sink (g : game) : game :=
  fold_left (λ g i, sink_boat i g) (boats g) g.

(** The filter of the second loop:
    [self.misses.isdisjoint(config) and config.isdisjoint(self.hitsSunk)].
    On a cell the first test holds (its components are integers, the misses
    are cells) and the second raises: a tuple has no [isdisjoint]. *)
Definition consistent (g : game) (config : entry) : result bool :=
  match config with
  | ESet s => Ret (bool_decide (misses g ## s) && bool_decide (s ## hitsSunk g))
  | ETup _ => Raise AttributeError
  end.

(** Second loop: the ships that are not sunk lose the layouts that touch a
    miss or a sunk cell. *)
Definition prune_ship (name : string) (g : game) : result game :=
  s ← item (sunkDict g) name;
  if decide (1 - s ≠ 0)
  then
    configs ← item (possibleShipsDictCond g) name;
    new_orient ← select (consistent g) configs;
    Ret (with_possibleShipsNumDictCond
           (dset name (llen new_orient) (possibleShipsNumDictCond g))
           (with_possibleShipsDictCond
              (dset name new_orient (possibleShipsDictCond g)) g))
  else Ret g.

Definition prune (g : game) : result game :=
  for_each (names g) prune_ship g.

(** Third loop, one hit: the ships one of whose layouts holds the hit; when
    there is exactly one, it keeps only its layouts that hold the hit. *)
Definition owners (hit : cell) (g : game) : list string :=
  (filter (λ i, covers hit i.2 = true) (possibleShipsDictCond g)).*1.

Definition propagate_hit (hit : cell) (g : game) : result game :=
  match owners hit g with
  | [name] =>
      configs ← item (possibleShipsDictCond g) name;
      let kept := filter (λ k, holds hit k = true) configs in
      Ret (with_possibleShipsNumDictCond
             (dset name (llen kept) (possibleShipsNumDictCond g))
             (with_possibleShipsDictCond
                (dset name kept (possibleShipsDictCond g)) g))
  | _ => Ret g
  end.

Definition propagate (g : game) : result game :=
  for_each (set_order (hits g)) propagate_hit g.

(** [updateOrientations] *)
Definition updateOrientations (g : game) : result game :=
  g ← prune (sink g);
  g ← propagate g;
  Ret (with_order (sorted_by_value (possibleShipsNumDictCond g)) g).

(** *** The conditional board sampler *)

(** What [randomSelection] returns: [set()] or [list(final_set)]. *)
Inductive sample :=
| EmptySet
| Cells (l : list cell).

Definition sample_len (r : sample) : Z :=
  match r with
  | EmptySet => 0
  | Cells l => llen l
  end.

(** [[k for k in configs if test(k)]] where the test calls a method of
    sets on [k]: the layouts that pass the test; a cell in the list raises,
    a tuple has no such method. *)
Fixpoint layouts_where (test : gset cell → bool) (configs : list entry)
    : result (list (gset cell)) :=
  match configs with
  | [] => Ret []
  | ESet s :: configs' =>
      r ← layouts_where test configs';
      Ret (if test s then s :: r else r)
  | ETup _ :: _ => Raise AttributeError
  end.

(** The greedy pass: [None] stands for the [return set()] inside the pass. *)
Fixpoint greedy (g : game) (order : list string)
    (what_where : dict string (gset cell)) (final_set : gset cell)
    : M (option (dict string (gset cell) * gset cell)) :=
  match order with
  | [] => mret (Some (what_where, final_set))
  | i :: order' =>
      configs ← lift (item (possibleShipsDictCond g) i);
      alternatives ← lift (layouts_where (λ k, bool_decide (k ## final_set)) configs);
      match alternatives with
      | [] => mret None
      | _ =>
          ship_coords ← choice alternatives;
          greedy g order' (dset i ship_coords what_where) (final_set ∪ ship_coords)
      end
  end.

(** [set().union( *[k[1] for k in what_where.items() ...])] *)
Definition union_all (l : list (gset cell)) : gset cell := ⋃ l.

(** The filter of the repair step:
    [k.isdisjoint(temp) and len(needed.intersection(k)) > num] *)
Definition improves (temp needed : gset cell) (num : Z) (k : gset cell) : bool :=
  bool_decide (k ## temp) && bool_decide (num < len (needed ∩ k)).

(** One sweep of the repair over the keys of [what_where]; [inl] is the
    [return list(final_set)] inside the sweep. *)
Fixpoint repair_sweep (g : game) (ks : list string)
    (what_where : dict string (gset cell)) (final_set : gset cell)
    : M (list cell + dict string (gset cell) * gset cell) :=
  match ks with
  | [] => mret (inr (what_where, final_set))
  | name :: ks' =>
      placed ← lift (item what_where name);
      let needed := hits g ∖ final_set in
      let num_intersected_already := len (placed ∩ hits g) in
      if decide (name ≠ "other"%string)
      then
        L ← lift (item (shipLengths g) name);
        if decide (num_intersected_already < L)
        then
          let temp := union_all (filter (λ k, k.1 ≠ name) what_where).*2 in
          configs ← lift (item (possibleShipsDictCond g) name);
          alternatives ← lift (layouts_where (improves temp needed num_intersected_already) configs);
          match alternatives with
          | [] => repair_sweep g ks' what_where final_set
          | _ =>
              k ← choice alternatives;
              let what_where := dset name k what_where in
              let final_set := union_all what_where.*2 in
              if decide (hits g ⊆ final_set)
              then mret (inl (set_order final_set))
              else repair_sweep g ks' what_where final_set
          end
        else repair_sweep g ks' what_where final_set
      else repair_sweep g ks' what_where final_set
  end.

(** [while count < 3] *)
Fixpoint repair (g : game) (count : nat)
    (what_where : dict string (gset cell)) (final_set : gset cell)
    : M (list cell + dict string (gset cell) * gset cell) :=
  match count with
  | O => mret (inr (what_where, final_set))
  | S count' =>
      r ← repair_sweep g (keys what_where) what_where final_set;
      match r with
      | inl l => mret (inl l)
      | inr (what_where, final_set) => repair g count' what_where final_set
      end
  end.

(** The [while 1] of [randomSelection]. The list [order] is shuffled in
    place, so the caller sees it changed: it is returned with the sample. *)
Fixpoint randomSelection_loop (fuel : nat) (g : game) (order : list string)
    (mustHappen : gset cell) (what_where : dict string (gset cell))
    : M (sample * list string) :=
  match fuel with
  | O => diverge
  | S fuel' =>
      r ← greedy g order what_where mustHappen;
      match r with
      | None => mret (EmptySet, order)
      | Some (what_where, final_set) =>
          if decide (hits g ⊆ final_set)
          then mret (Cells (set_order final_set), order)
          else
            let what_where := dset "other"%string mustHappen what_where in
            r ← repair g 3 what_where final_set;
            match r with
            | inl l => mret (Cells l, order)
            | inr (what_where, _) =>
                order ← shuffle order;
                randomSelection_loop fuel' g order mustHappen what_where
            end
      end
  end.

Definition randomSelection (fuel : nat) (g : game) (order : list string)
    (mustHappen : gset cell) : M (sample * list string) :=
  randomSelection_loop fuel g order mustHappen [].

(** [order.remove(x)] *)
Fixpoint remove (x : string) (l : list string) : result (list string) :=
  match l with
  | [] => Raise ValueError
  | y :: l' => if decide (y = x) then Ret l' else l'' ← remove x l'; Ret (y :: l'')
  end.

(** The first loop of [randomConditionalBoard]: the sunk ships leave the
    order and their cells are committed. *)
Definition commit_sunk (g : game) (i : string * Z)
    (acc : list string * gset cell) : result (list string * gset cell) :=
  if decide (i.2 ≠ 0)
  then
    order ← remove i.1 acc.1;
    location ← item (of_items (boats g)) i.1;
    Ret (order, acc.2 ∪ location)
  else Ret acc.

(** The [while len(final_set) == 0] of [randomConditionalBoard] *)
Fixpoint randomConditionalBoard_loop (fuel : nat) (g : game)
    (order : list string) (mustHappen : gset cell) : M sample :=
  match fuel with
  | O => diverge
  | S fuel' =>
      r ← randomSelection fuel g order mustHappen;
      let '(final_set, order) := r in
      order ← (if randomOrder g then shuffle order else mret order);
      if decide (sample_len final_set = 0)
      then randomConditionalBoard_loop fuel' g order mustHappen
      else mret final_set
  end.

Definition randomConditionalBoard (fuel : nat) (g : game)
    (orderIncoming : list string) : M sample :=
  r ← lift (for_each (sunkDict g) (commit_sunk g) (orderIncoming, ∅));
  randomConditionalBoard_loop fuel g r.1 r.2.

(** *** The aggregator *)

(** [list(r)] for what the sampler returned, and [set(r)] *)
Definition sample_cells (r : sample) : list cell :=
  match r with
  | EmptySet => []
  | Cells l => l
  end.

(** The boards kept from the previous turn *)
Definition seed_pool (g : game) : list (gset cell) :=
  let lboards := [] in
  let lboards :=
    if decide (nextInx g ∈ hits g)
    then filter (λ i, nextInx g ∈ i) (lastTurnBoards g)
    else lboards in
  if decide (nextInx g ∈ misses g)
  then filter (λ i, nextInx g ∉ i) (lastTurnBoards g)
  else lboards.

(** [[j for i in lboards for j in list(i) if test(i)]]: a board of
    [lboards] is a set that [set(temp)] built from a list, another object
    than the set that the sampler listed. *)
Definition listed_where (test : gset cell → bool) (lboards : list (gset cell))
    : M (list cell) :=
  for_eachM lboards
    (λ i boards, l ← listed i; mret (boards ++ filter (λ _, test i = true) l))
    [].

(** The cells of the boards kept from the previous turn *)
Definition seed_cells (g : game) : M (list cell) :=
  let boards := [] in
  boards ←
    (if decide (nextInx g ∈ hits g)
     then listed_where (λ i, bool_decide (nextInx g ∈ i))
            (filter (λ i, nextInx g ∈ i) (lastTurnBoards g))
     else mret boards);
  if decide (nextInx g ∈ misses g)
  then listed_where (λ i, bool_decide (nextInx g ∉ i))
         (filter (λ i, nextInx g ∉ i) (lastTurnBoards g))
  else mret boards.

(** The [while numIter < self.batchSize] of [buildAggBoard], which runs
    [todo = batchSize - numIter] times. With [randomOrder] the list [order]
    is the very list stored in [randomOrderDict] under [slot], and the
    shuffle changes it there. *)
Fixpoint top_up (fuel : nat) (todo : nat) (slot : option Z) (g : game)
    (order : list string) (numIter : Z) (boards : list cell)
    (lboards : list (gset cell))
    : M (game * Z * list cell * list (gset cell)) :=
  match todo with
  | O => mret (g, numIter, boards, lboards)
  | S todo' =>
      order ← (if randomOrder g then shuffle order else mret order);
      let g :=
        match slot with
        | Some i => with_randomOrderDict (dset i order (randomOrderDict g)) g
        | None => g
        end in
      temp ← randomConditionalBoard fuel g order;
      top_up fuel todo' slot g order (numIter + 1)
        (boards ++ sample_cells temp)
        (lboards ++ [list_to_set (sample_cells temp)])
  end.

(** [buildAggBoard] *)
Definition buildAggBoard (fuel : nat) (g : game) : M game :=
  r ← (if negb (randomOrder g)
       then mret (sorted_by_value (possibleShipsNumDictCond g), None)
       else i ← randint (numPerms g);
            order ← lift (item (randomOrderDict g) i);
            mret (order, Some i));
  let '(order, slot) := r in
  g ← lift (updateOrientations g);
  let lboards := seed_pool g in
  boards ← seed_cells g;
  let numIter := llen lboards in
  r ← top_up fuel (Z.to_nat (batchSize g - numIter)) slot g order numIter boards lboards;
  let '(g, numIter, boards, lboards) := r in
  mret (with_numIter numIter
          (with_aggDict (most_common (Counter boards))
             (with_lastTurnBoards lboards g))).

(** [refreshGame] *)
Definition refreshGame (fuel : nat) (g : game) : M game :=
  r ← randomBoard fuel g;
  let g := r.2 in
  mret (with_nextInx (-1, -1)
          (with_lastTurnBoards []
             (with_possibleShipsNumDictCond (possibleShipsNumDict g)
                (with_possibleShipsDictCond (as_entries (possibleShipsDict g))
                   (with_sunkDict (of_items (zip (names g) ((λ _, 0) <$> ships g)))
                      (with_hitsSunk ∅ (with_misses ∅ (with_hits ∅
                         (with_board r.1 g))))))))).

(** *** class BattleshipAutoplay *)

(** [for i in self.hits: del self.aggDict[i]] *)
Definition drop_hits (g : game) : result (dict cell Z) :=
  for_each (set_order (hits g)) (λ i d, ddel i d) (aggDict g).

(** One turn of [play], after the test of the end of the game: aggregate,
    choose the cell of largest count, probe it. *)
Definition turn (fuel : nat) (g : game) : M game :=
  g ← buildAggBoard fuel g;
  d ← lift (drop_hits g);
  let g := with_aggDict d g in
  c ← lift (max_key (aggDict g));
  let g := with_nextInx c g in
  if decide (nextInx g ∈ board g)
  then mret (with_hits (hits g ∪ {[nextInx g]}) g)
  else mret (with_misses (misses g ∪ {[nextInx g]}) g).

(** [play]: [turns] bounds the iterations of its [while True]. *)
Fixpoint play (turns : nat) (fuel : nat) (refresh : bool) (g : game) : M (Z * game) :=
  match turns with
  | O => diverge
  | S turns' =>
      if decide (len (hits g) = numMaxHits g)
      then
        let n := len (hits g) + len (misses g) in
        g ← (if refresh then refreshGame fuel g else mret g);
        mret (n, g)
      else
        g ← turn fuel g;
        play turns' fuel refresh g
  end.

End Program.

End Bayesian.

(** ** StatisticsSampling/Battleship.py *)
Module Statistics.
Import Py.

(** The object: the attributes of [Battleship], [BattleshipEnv] and
    [BattleshipAutoplay]. An attribute holds a neutral value until the
    program assigns it. *)
Record game := Game {
  dim : Z;
  numShips : Z;
  ships : list Z;
  names : list string;
  sunkDict : dict string Z;
  shipLengths : dict string Z;
  possibleShipsDict : dict string (list (gset cell));
  possibleShipsNumDict : dict string Z;
  order : list string;
  boats : list (string * gset cell);
  board : gset cell;
  lag : Q;
  hits : gset cell;
  hitsSunk : gset cell;
  misses : gset cell;
  possibleShipsDictCond : dict string (list (gset cell));
  possibleShipsNumDictCond : dict string Z;
  aggDict : dict cell Z;
  numIter : Z;
  nextInx : cell
}.

Definition with_sunkDict (v : dict string Z) (g : game) : game :=
  Game (dim g) (numShips g) (ships g) (names g) v (shipLengths g) (possibleShipsDict g) (possibleShipsNumDict g) (order g) (boats g) (board g) (lag g) (hits g) (hitsSunk g) (misses g) (possibleShipsDictCond g) (possibleShipsNumDictCond g) (aggDict g) (numIter g) (nextInx g).
Definition with_possibleShipsDict (v : dict string (list (gset cell))) (g : game) : game :=
  Game (dim g) (numShips g) (ships g) (names g) (sunkDict g) (shipLengths g) v (possibleShipsNumDict g) (order g) (boats g) (board g) (lag g) (hits g) (hitsSunk g) (misses g) (possibleShipsDictCond g) (possibleShipsNumDictCond g) (aggDict g) (numIter g) (nextInx g).
Definition with_possibleShipsNumDict (v : dict string Z) (g : game) : game :=
  Game (dim g) (numShips g) (ships g) (names g) (sunkDict g) (shipLengths g) (possibleShipsDict g) v (order g) (boats g) (board g) (lag g) (hits g) (hitsSunk g) (misses g) (possibleShipsDictCond g) (possibleShipsNumDictCond g) (aggDict g) (numIter g) (nextInx g).
Definition with_boats (v : list (string * gset cell)) (g : game) : game :=
  Game (dim g) (numShips g) (ships g) (names g) (sunkDict g) (shipLengths g) (possibleShipsDict g) (possibleShipsNumDict g) (order g) v (board g) (lag g) (hits g) (hitsSunk g) (misses g) (possibleShipsDictCond g) (possibleShipsNumDictCond g) (aggDict g) (numIter g) (nextInx g).
Definition with_board (v : gset cell) (g : game) : game :=
  Game (dim g) (numShips g) (ships g) (names g) (sunkDict g) (shipLengths g) (possibleShipsDict g) (possibleShipsNumDict g) (order g) (boats g) v (lag g) (hits g) (hitsSunk g) (misses g) (possibleShipsDictCond g) (possibleShipsNumDictCond g) (aggDict g) (numIter g) (nextInx g).
Definition with_hits (v : gset cell) (g : game) : game :=
  Game (dim g) (numShips g) (ships g) (names g) (sunkDict g) (shipLengths g) (possibleShipsDict g) (possibleShipsNumDict g) (order g) (boats g) (board g) (lag g) v (hitsSunk g) (misses g) (possibleShipsDictCond g) (possibleShipsNumDictCond g) (aggDict g) (numIter g) (nextInx g).
Definition with_hitsSunk (v : gset cell) (g : game) : game :=
  Game (dim g) (numShips g) (ships g) (names g) (sunkDict g) (shipLengths g) (possibleShipsDict g) (possibleShipsNumDict g) (order g) (boats g) (board g) (lag g) (hits g) v (misses g) (possibleShipsDictCond g) (possibleShipsNumDictCond g) (aggDict g) (numIter g) (nextInx g).
Definition with_misses (v : gset cell) (g : game) : game :=
  Game (dim g) (numShips g) (ships g) (names g) (sunkDict g) (shipLengths g) (possibleShipsDict g) (possibleShipsNumDict g) (order g) (boats g) (board g) (lag g) (hits g) (hitsSunk g) v (possibleShipsDictCond g) (possibleShipsNumDictCond g) (aggDict g) (numIter g) (nextInx g).
Definition with_possibleShipsDictCond (v : dict string (list (gset cell))) (g : game) : game :=
  Game (dim g) (numShips g) (ships g) (names g) (sunkDict g) (shipLengths g) (possibleShipsDict g) (possibleShipsNumDict g) (order g) (boats g) (board g) (lag g) (hits g) (hitsSunk g) (misses g) v (possibleShipsNumDictCond g) (aggDict g) (numIter g) (nextInx g).
Definition with_possibleShipsNumDictCond (v : dict string Z) (g : game) : game :=
  Game (dim g) (numShips g) (ships g) (names g) (sunkDict g) (shipLengths g) (possibleShipsDict g) (possibleShipsNumDict g) (order g) (boats g) (board g) (lag g) (hits g) (hitsSunk g) (misses g) (possibleShipsDictCond g) v (aggDict g) (numIter g) (nextInx g).
Definition with_aggDict (v : dict cell Z) (g : game) : game :=
  Game (dim g) (numShips g) (ships g) (names g) (sunkDict g) (shipLengths g) (possibleShipsDict g) (possibleShipsNumDict g) (order g) (boats g) (board g) (lag g) (hits g) (hitsSunk g) (misses g) (possibleShipsDictCond g) (possibleShipsNumDictCond g) v (numIter g) (nextInx g).
Definition with_numIter (v : Z) (g : game) : game :=
  Game (dim g) (numShips g) (ships g) (names g) (sunkDict g) (shipLengths g) (possibleShipsDict g) (possibleShipsNumDict g) (order g) (boats g) (board g) (lag g) (hits g) (hitsSunk g) (misses g) (possibleShipsDictCond g) (possibleShipsNumDictCond g) (aggDict g) v (nextInx g).
Definition with_nextInx (v : cell) (g : game) : game :=
  Game (dim g) (numShips g) (ships g) (names g) (sunkDict g) (shipLengths g) (possibleShipsDict g) (possibleShipsNumDict g) (order g) (boats g) (board g) (lag g) (hits g) (hitsSunk g) (misses g) (possibleShipsDictCond g) (possibleShipsNumDictCond g) (aggDict g) (numIter g) v.

Section Program.

(** The order in which Python iterates over a set of cells, and over the
    set of the names *)
Variable set_order : gset cell → list cell.
Variable name_order : list string → list string.

(** *** class Battleship *)

(** The body of the two loops of [generateComponentLayouts] for one length *)
Definition orientations (dim L : Z) : list (gset cell) :=
  i ← range (dim - L + 1); j ← range dim; [run1 L i j; run2 L i j].

(** [generateComponentLayouts] *)
Definition generateComponentLayouts (g : game) : result game :=
  for_each (name_order (names g))
    (λ name g,
       L ← item (shipLengths g) name;
       let o := orientations (dim g) L in
       Ret (with_possibleShipsNumDict
              (dset name (llen o) (possibleShipsNumDict g))
              (with_possibleShipsDict
                 (dset name o (possibleShipsDict g)) g)))
    (with_possibleShipsNumDict [] (with_possibleShipsDict [] g)).

(** [Battleship.__init__] *)
Definition Battleship_init (dim : Z) (ships : list Z) : result game :=
  let names := take (length ships) ascii_lowercase in
  g ← generateComponentLayouts
         (Game dim (llen ships) ships names
            (of_items (zip names ((λ _, 0) <$> ships)))
            (of_items (zip names ships))
            [] [] [] [] ∅ 0%Q ∅ ∅ ∅ [] [] [] 0 (0, 0));
  Ret (Game (Statistics.dim g) (numShips g) (Statistics.ships g)
         (Statistics.names g) (sunkDict g) (shipLengths g)
         (possibleShipsDict g) (possibleShipsNumDict g)
         (sorted_by pair_le (zip ships (Statistics.names g))).*2
         (boats g) (board g) (lag g) (hits g) (hitsSunk g) (misses g)
         (possibleShipsDictCond g) (possibleShipsNumDictCond g)
         (aggDict g) (numIter g) (nextInx g)).

(** The [while 1] of [randomBoard] for one ship *)
Fixpoint place_ship (fuel : nat) (g : game) (name : string)
    (final_set : gset cell) : M (gset cell) :=
  match fuel with
  | O => diverge
  | S fuel' =>
      layouts ← lift (item (possibleShipsDict g) name);
      n ← lift (item (possibleShipsNumDict g) name);
      i ← randint n;
      ship_coords ← lift (index layouts i);
      if decide (len final_set + len ship_coords = len (final_set ∪ ship_coords))
      then mret ship_coords
      else place_ship fuel' g name final_set
  end.

(** [randomBoard]: returns the board and records the boats. *)
Definition randomBoard (fuel : nat) (g : game) : M (gset cell * game) :=
  r ← for_eachM (order g)
        (λ name (acc : gset cell * list (string * gset cell)),
           ship_coords ← place_ship fuel g name acc.1;
           mret (acc.1 ∪ ship_coords, acc.2 ++ [(name, ship_coords)]))
        (∅, []);
  mret (r.1, with_boats r.2 g).

(** *** class BattleshipEnv *)

(** [BattleshipEnv.__init__] *)
Definition BattleshipEnv_init (fuel : nat) (dim : Z) (ships : list Z) (lag : Q)
    : M game :=
  g ← lift (Battleship_init dim ships);
  r ← randomBoard fuel g;
  let g := r.2 in
  mret (Game (Statistics.dim g) (numShips g) (Statistics.ships g) (names g)
          (sunkDict g) (shipLengths g)
          (possibleShipsDict g) (possibleShipsNumDict g) (order g) (boats g)
          r.1 lag ∅ ∅ ∅
          (possibleShipsDict g) (possibleShipsNumDict g)
          (aggDict g) (numIter g) (nextInx g)).

(** [BattleshipAutoplay.__init__]: the same constructor *)
Definition BattleshipAutoplay_init (fuel : nat) (dim : Z) (ships : list Z)
    (lag : Q) : M game :=
  BattleshipEnv_init fuel dim ships lag.

(** [guess]: the printed text is not part of the object. *)
Definition guess (guessInx : cell) (g : game) : game :=
  if decide (guessInx ∈ board g)
  then with_hits (hits g ∪ {[guessInx]}) g
  else with_misses (misses g ∪ {[guessInx]}) g.

(** [updateOrientations], first loop: the boats whose location adds nothing
    to the hits are sunk. *)
Definition sink_boat (i : string * gset cell) (g : game) : game :=
  let '(boat, location) := i in
  if decide (len (location ∪ hits g) = len (hits g))
  then with_possibleShipsNumDictCond (dset boat 1 (possibleShipsNumDictCond g))
         (with_possibleShipsDictCond
            (dset boat [location] (possibleShipsDictCond g))
            (with_sunkDict (dset boat 1 (sunkDict g))
               (with_hitsSunk (hitsSunk g ∪ location) g)))
  else g.

Definition sink (g : game) : game :=
  fold_left (λ g i, sink_boat i g) (boats g) g.

(** Second loop: the ships that are not sunk lose the layouts that touch a
    miss or a sunk cell. *)
Definition prune_ship (sunkNum : Z) (name : string) (g : game) : result game :=
  s ← item (sunkDict g) name;
  if decide (s ≠ 1)
  then
    orientations ← item (possibleShipsDictCond g) name;
    new_orient ←
      select (λ config,
                L ← item (shipLengths g) name;
                Ret (bool_decide (len (misses g ∪ config) = len (misses g) + L)
                     && bool_decide (len (config ∪ hitsSunk g) = L + sunkNum)))
             orientations;
    Ret (with_possibleShipsNumDictCond
           (dset name (llen new_orient) (possibleShipsNumDictCond g))
           (with_possibleShipsDictCond
              (dset name new_orient (possibleShipsDictCond g)) g))
  else Ret g.

(** [updateOrientations] *)
Definition updateOrientations (g : game) : result game :=
  let g := sink g in
  let sunkNum := len (hitsSunk g) in
  for_each (name_order (names g)) (prune_ship sunkNum) g.

(** *** The conditional board sampler *)

(** What [randomSelection] returns: [set()] or [list(final_set)]. *)
Inductive sample :=
| EmptySet
| Cells (l : list cell).

Definition sample_len (r : sample) : Z :=
  match r with
  | EmptySet => 0
  | Cells l => llen l
  end.

Definition sample_cells (r : sample) : list cell :=
  match r with
  | EmptySet => []
  | Cells l => l
  end.

(** The inner [while 1] of [randomSelection]: draw a layout of ship [i]
    until one is disjoint from the cells committed so far, or until the
    clock has run more than [lag/10] since [t]; [None] stands for the
    [return set()]. *)
Fixpoint draw_layout (fuel : nat) (g : game) (i : string) (t : Q)
    (final_set : gset cell) : M (option (gset cell)) :=
  match fuel with
  | O => diverge
  | S fuel' =>
      layouts ← lift (item (possibleShipsDictCond g) i);
      n ← lift (item (possibleShipsNumDictCond g) i);
      r ← randint n;
      ship_coords ← lift (index layouts r);
      if decide (len final_set + len ship_coords = len (final_set ∪ ship_coords))
      then mret (Some (final_set ∪ ship_coords))
      else
        now ← time;
        elapsed ← float_sub now t;
        bound ← float_div (lag g) 10;
        if Qltb bound elapsed
        then mret None
        else draw_layout fuel' g i t final_set
  end.

(** The [for i in order] of [randomSelection] *)
Fixpoint place_all (fuel : nat) (g : game) (order : list string)
    (final_set : gset cell) : M (option (gset cell)) :=
  match order with
  | [] => mret (Some final_set)
  | i :: order' =>
      t ← time;
      r ← draw_layout fuel g i t final_set;
      match r with
      | None => mret None
      | Some final_set => place_all fuel g order' final_set
      end
  end.

(** [randomSelection] *)
Fixpoint randomSelection (fuel : nat) (g : game) (order : list string)
    (mustHappen : gset cell) : M sample :=
  match fuel with
  | O => diverge
  | S fuel' =>
      r ← place_all fuel g order mustHappen;
      match r with
      | None => mret EmptySet
      | Some final_set =>
          if decide (len (final_set ∖ hits g) = len final_set - len (hits g))
          then mret (Cells (set_order final_set))
          else randomSelection fuel' g order mustHappen
      end
  end.

(** [order.remove(x)] *)
Fixpoint remove (x : string) (l : list string) : result (list string) :=
  match l with
  | [] => Raise ValueError
  | y :: l' => if decide (y = x) then Ret l' else l'' ← remove x l'; Ret (y :: l'')
  end.

(** The first loop of [randomConditionalBoard] *)
Definition commit_sunk (g : game) (i : string * Z)
    (acc : list string * gset cell) : result (list string * gset cell) :=
  if decide (i.2 ≠ 0)
  then
    order ← remove i.1 acc.1;
    location ← item (of_items (boats g)) i.1;
    Ret (order, acc.2 ∪ location)
  else Ret acc.

(** The [while len(final_set) == 0] of [randomConditionalBoard] *)
Fixpoint randomConditionalBoard_loop (fuel : nat) (g : game)
    (order : list string) (mustHappen : gset cell) : M sample :=
  match fuel with
  | O => diverge
  | S fuel' =>
      final_set ← randomSelection fuel g order mustHappen;
      if decide (sample_len final_set = 0)
      then randomConditionalBoard_loop fuel' g order mustHappen
      else mret final_set
  end.

Definition randomConditionalBoard (fuel : nat) (g : game)
    (orderIncoming : list string) : M sample :=
  r ← lift (for_each (sunkDict g) (commit_sunk g) (orderIncoming, ∅));
  randomConditionalBoard_loop fuel g r.1 r.2.

(** *** The aggregator *)

(** The [while time() - start_time < self.lag] of [buildAggBoard] *)
Fixpoint sample_until (fuel : nat) (g : game) (order : list string)
    (start_time : Q) (numIter : Z) (boards : list cell) : M (Z * list cell) :=
  match fuel with
  | O => diverge
  | S fuel' =>
      now ← time;
      elapsed ← float_sub now start_time;
      if Qltb elapsed (lag g)
      then
        temp ← randomConditionalBoard fuel g order;
        sample_until fuel' g order start_time (numIter + 1)
          (boards ++ sample_cells temp)
      else mret (numIter, boards)
  end.

(** [buildAggBoard] *)
Definition buildAggBoard (fuel : nat) (g : game) : M game :=
  let order := sorted_by_value (possibleShipsNumDictCond g) in
  start_time ← time;
  g ← lift (updateOrientations g);
  r ← sample_until fuel g order start_time 0 [];
  mret (with_numIter r.1
          (with_aggDict (most_common_n (dim g ^ 2) (Counter r.2)) g)).

(** *** class BattleshipAutoplay *)

(** [refreshGame] *)
Definition refreshGame (fuel : nat) (g : game) : M game :=
  r ← randomBoard fuel g;
  let g := r.2 in
  mret (with_possibleShipsNumDictCond (possibleShipsNumDict g)
          (with_possibleShipsDictCond (possibleShipsDict g)
             (with_hitsSunk ∅
                (with_sunkDict (of_items (zip (names g) ((λ _, 0) <$> ships g)))
                   (with_misses ∅ (with_hits ∅ (with_board r.1 g))))))).

(** [for i in self.hits: del self.aggDict[i]] *)
Definition drop_hits (g : game) : result (dict cell Z) :=
  for_each (set_order (hits g)) (λ i d, ddel i d) (aggDict g).

(** One turn of [play], after the test of the end of the game *)
Definition turn (fuel : nat) (g : game) : M game :=
  g ← buildAggBoard fuel g;
  d ← lift (drop_hits g);
  let g := with_aggDict d g in
  c ← lift (max_key (aggDict g));
  let g := with_nextInx c g in
  if decide (nextInx g ∈ board g)
  then mret (with_hits (hits g ∪ {[nextInx g]}) g)
  else mret (with_misses (misses g ∪ {[nextInx g]}) g).

(** [play]: [turns] bounds the iterations of its [while True]; the printed
    text of [verbose] is not part of the object. *)
Fixpoint play (turns : nat) (fuel : nat) (refresh : bool) (g : game) : M (Z * game) :=
  match turns with
  | O => diverge
  | S turns' =>
      if decide (len (hits g) = sum (ships g))
      then
        let n := len (hits g) + len (misses g) in
        g ← (if refresh then refreshGame fuel g else mret g);
        mret (n, g)
      else
        g ← turn fuel g;
        play turns' fuel refresh g
  end.

End Program.

End Statistics.

(** * Facts *)

(** ** Facts about the runtime *)
Module PyFacts.
Import Py.

(** *** The two monads *)

Lemma bind_Ret {A B} (m : result A) (f : A → result B) (b : B) :
  m ≫= f = Ret b → ∃ a, m = Ret a ∧ f a = Ret b.
Proof. destruct m as [a| |]; simpl; [eauto | done | done]. Qed.

Lemma bindM_Ret {A B} (m : M A) (f : A → M B) (w w' : world) (b : B) :
  (m ≫= f) w = Ret (b, w') → ∃ a w1, m w = Ret (a, w1) ∧ f a w1 = Ret (b, w').
Proof.
  unfold mbind, M_bind. destruct (m w) as [[a w1]| |]; [eauto | done | done].
Qed.

Lemma lift_Ret {A} (r : result A) (w w' : world) (a : A) :
  lift r w = Ret (a, w') → r = Ret a ∧ w' = w.
Proof. unfold lift. destruct r; naive_solver. Qed.

Lemma mretM_Ret {A} (a b : A) (w w' : world) :
  (mret a : M A) w = Ret (b, w') → a = b ∧ w = w'.
Proof. unfold mret, M_ret. naive_solver. Qed.

Lemma bind_Ret_l {A B} (m : result A) (f : A → result B) (a : A) :
  m = Ret a → m ≫= f = f a.
Proof. by intros ->. Qed.

Lemma bindM_Ret_l {A B} (m : M A) (f : A → M B) (w w1 : world) (a : A) :
  m w = Ret (a, w1) → (m ≫= f) w = f a w1.
Proof. unfold mbind, M_bind. by intros ->. Qed.

Lemma lift_Ret_l {A} (r : result A) (w : world) (a : A) :
  r = Ret a → lift r w = Ret (a, w).
Proof. by intros ->. Qed.

(** Take a successful computation apart, one bind at a time. *)
Ltac inv_step H :=
  match type of H with
  | (_ ≫= _) _ = Ret _ =>
      let a := fresh "a" in let w := fresh "w" in
      let H1 := fresh "H" in
      apply bindM_Ret in H as (a & w & H1 & H)
  | _ ≫= _ = Ret _ =>
      let a := fresh "a" in let H1 := fresh "H" in
      apply bind_Ret in H as (a & H1 & H)
  | lift _ _ = Ret _ =>
      let H1 := fresh "H" in
      apply lift_Ret in H as [H ->]
  | mret _ _ = Ret _ => apply mretM_Ret in H as [? ?]; simplify_eq
  | Ret _ = Ret _ => simplify_eq
  end.

(** The same with names: a bind in [M], a bind of a lifted computation, a
    bind in [result]. *)
Tactic Notation "bindM" hyp(H) "as" simple_intropattern(a)
    simple_intropattern(w) ident(H1) :=
  apply bindM_Ret in H as (a & w & H1 & H).
Tactic Notation "bindL" hyp(H) "as" simple_intropattern(a) ident(H1) :=
  let w := fresh "w" in
  apply bindM_Ret in H as (a & w & H1 & H); apply lift_Ret in H1 as [H1 ->].
Tactic Notation "bindR" hyp(H) "as" simple_intropattern(a) ident(H1) :=
  apply bind_Ret in H as (a & H1 & H).
Tactic Notation "retM" hyp(H) :=
  apply mretM_Ret in H as [? ?]; simplify_eq.

(** *** Loops *)

Lemma for_each_inv {A S} (P : S → Prop) (l : list A) (body : A → S → result S)
    (s s' : S) :
  P s →
  (∀ x s s', x ∈ l → P s → body x s = Ret s' → P s') →
  for_each l body s = Ret s' → P s'.
Proof.
  revert s. induction l as [|x l IH]; intros s Hs Hbody H; simpl in H.
  - by injection H as <-.
  - apply bind_Ret in H as (s1 & H1 & H).
    apply (IH s1); [| |done].
    + eapply Hbody; [|done|done]. left.
    + intros y t t' Hy. apply Hbody. by right.
Qed.

Lemma for_eachM_inv {A S} (P : S → world → Prop) (l : list A)
    (body : A → S → M S) (s s' : S) (w w' : world) :
  P s w →
  (∀ x s w s' w', x ∈ l → P s w → body x s w = Ret (s', w') → P s' w') →
  for_eachM l body s w = Ret (s', w') → P s' w'.
Proof.
  revert s w. induction l as [|x l IH]; intros s w Hs Hbody H; simpl in H.
  - apply mretM_Ret in H as [<- <-]. done.
  - apply bindM_Ret in H as (s1 & w1 & H1 & H).
    apply (IH s1 w1); [| |done].
    + eapply Hbody; [|done|done]. left.
    + intros y t v t' v' Hy. apply Hbody. by right.
Qed.

Lemma for_each_app {A S} (l1 l2 : list A) (body : A → S → result S) (s : S) :
  for_each (l1 ++ l2) body s = for_each l1 body s ≫= for_each l2 body.
Proof.
  revert s. induction l1 as [|x l1 IH]; intros s; simpl; [done|].
  destruct (body x s); simpl; [apply IH|done|done].
Qed.

Lemma for_each_snoc_Ret {A S} (l : list A) (x : A) (body : A → S → result S)
    (s s' : S) :
  for_each (l ++ [x]) body s = Ret s' →
  ∃ s1, for_each l body s = Ret s1 ∧ body x s1 = Ret s'.
Proof.
  rewrite for_each_app. intros (s1 & H1 & H)%bind_Ret. exists s1. split; [done|].
  simpl in H. by apply bind_Ret in H as (s2 & H2 & [= <-]).
Qed.

(** A loop whose body always returns, returns. *)
Lemma for_each_total {A S} (P : S → Prop) (l : list A) (body : A → S → result S)
    (s : S) :
  P s →
  (∀ x s, x ∈ l → P s → ∃ s', body x s = Ret s' ∧ P s') →
  ∃ s', for_each l body s = Ret s' ∧ P s'.
Proof.
  revert s. induction l as [|x l IH]; intros s Hs Hbody; simpl.
  - eauto.
  - destruct (Hbody x s) as (s1 & -> & H1); [left|done|]. simpl.
    apply IH; [done|]. intros y t Hy. apply Hbody. by right.
Qed.

Lemma select_sublist {A} (p : A → result bool) (l r : list A) :
  select p l = Ret r → sublist r l ∧ ∀ x, x ∈ r → p x = Ret true.
Proof.
  revert r. induction l as [|x l IH]; intros r H; simpl in H.
  - injection H as <-. split; [done|]. intros x Hx. by apply elem_of_nil in Hx.
  - apply bind_Ret in H as (b & Hb & H). apply bind_Ret in H as (r' & Hr' & H).
    injection H as <-. destruct (IH _ Hr') as [Hs Hp]. destruct b.
    + split; [by constructor|]. intros y [->|Hy]%elem_of_cons; eauto.
    + split; [by constructor|]. done.
Qed.

Lemma select_keeps {A} (p : A → result bool) (l r : list A) (x : A) :
  select p l = Ret r → x ∈ l → p x = Ret true → x ∈ r.
Proof.
  revert r. induction l as [|y l IH]; intros r H Hx Hp; simpl in H.
  - by apply elem_of_nil in Hx.
  - apply bind_Ret in H as (b & Hb & H). apply bind_Ret in H as (r' & Hr' & H).
    injection H as <-. apply elem_of_cons in Hx as [->|Hx].
    + rewrite Hp in Hb. injection Hb as <-. left.
    + specialize (IH _ Hr' Hx Hp). destruct b; [by right|done].
Qed.

Lemma select_ext {A} (p q : A → result bool) (l : list A) :
  (∀ x, p x = q x) → select p l = select q l.
Proof. intros E. induction l as [|x l IH]; simpl; [done|]. by rewrite E, IH. Qed.

Lemma select_total {A} (p : A → result bool) (l : list A) :
  (∀ x, x ∈ l → ∃ b, p x = Ret b) → ∃ r, select p l = Ret r.
Proof.
  induction l as [|x l IH]; intros Hp; simpl; [eauto|].
  destruct (Hp x) as [b ->]; [left|]. simpl.
  destruct IH as [r ->]; [|simpl; eauto]. intros y Hy. apply Hp. by right.
Qed.

(** *** Dictionaries *)
Section dict.
Context {K : Type} `{EqDecision K} {V : Type}.
Implicit Types (d : dict K V) (k : K) (v : V).

Lemma item_Ret d k v : item d k = Ret v ↔ dget k d = Some v.
Proof. unfold item. destruct (dget k d); naive_solver. Qed.

Lemma dget_dset d k k' v :
  dget k' (dset k v d) = if decide (k = k') then Some v else dget k' d.
Proof.
  induction d as [|[k1 v1] d IH]; simpl.
  - repeat case_decide; done.
  - repeat (case_decide; simpl; subst); try done.
Qed.

Lemma dget_dset_eq d k v : dget k (dset k v d) = Some v.
Proof. rewrite dget_dset. by case_decide. Qed.

Lemma dget_dset_ne d k k' v : k ≠ k' → dget k' (dset k v d) = dget k' d.
Proof. intros. rewrite dget_dset. by case_decide. Qed.

Lemma dget_Some_elem d k v : dget k d = Some v → (k, v) ∈ d.
Proof.
  induction d as [|[k1 v1] d IH]; simpl; [done|].
  case_decide; subst.
  - intros [= ->]. left.
  - intros. right. auto.
Qed.

Lemma dget_is_Some d k : is_Some (dget k d) ↔ k ∈ keys d.
Proof.
  unfold keys. induction d as [|[k1 v1] d IH]; simpl.
  - split; [by intros [? ?]|by intros ?%elem_of_nil].
  - rewrite elem_of_cons. case_decide; subst.
    + split; eauto.
    + rewrite IH. naive_solver.
Qed.

Lemma dget_None d k : dget k d = None ↔ k ∉ keys d.
Proof. rewrite <- dget_is_Some, eq_None_not_Some. done. Qed.

Lemma elem_dget d k v : NoDup (keys d) → (k, v) ∈ d → dget k d = Some v.
Proof.
  unfold keys. induction d as [|[k1 v1] d IH]; simpl.
  - by intros _ ?%elem_of_nil.
  - intros [Hk Hd]%NoDup_cons [[= -> ->]|Hin]%elem_of_cons.
    + by case_decide.
    + case_decide; subst; [|auto].
      destruct Hk. apply list_elem_of_fmap. by exists (k, v).
Qed.

Lemma keys_dset_in d k v : k ∈ keys d → keys (dset k v d) = keys d.
Proof.
  unfold keys. induction d as [|[k1 v1] d IH]; simpl.
  - by intros ?%elem_of_nil.
  - intros Hk. case_decide; subst; simpl; [done|].
    f_equal. apply IH. apply elem_of_cons in Hk as [?|?]; done.
Qed.

Lemma keys_dset_notin d k v : k ∉ keys d → keys (dset k v d) = keys d ++ [k].
Proof.
  unfold keys. induction d as [|[k1 v1] d IH]; simpl; [done|].
  intros Hk. apply not_elem_of_cons in Hk as [? ?].
  case_decide; subst; simpl; [done|]. f_equal. by apply IH.
Qed.

Lemma elem_of_keys_dset d k k' v : k' ∈ keys (dset k v d) ↔ k' = k ∨ k' ∈ keys d.
Proof.
  rewrite <- !dget_is_Some, dget_dset. case_decide; subst.
  - split; eauto.
  - split; [eauto|]. intros [?|?]; done.
Qed.

Lemma elem_of_dset d k v p : p ∈ dset k v d → p = (k, v) ∨ p ∈ d.
Proof.
  induction d as [|[k1 v1] d IH]; simpl.
  - intros ?%list_elem_of_singleton. by left.
  - case_decide; subst.
    + intros [->|?]%elem_of_cons; [by left|]. right. by right.
    + intros [->|?]%elem_of_cons; [right; left|].
      destruct IH as [?|?]; [done|by left|]. right. by right.
Qed.

Lemma of_items_app (l acc : list (K * V)) :
  NoDup (keys acc ++ keys l) →
  fold_left (λ d p, dset p.1 p.2 d) l acc = acc ++ l.
Proof.
  unfold keys. revert acc. induction l as [|[k v] l IH]; intros acc Hnd; simpl.
  - by rewrite app_nil_r.
  - rewrite IH.
    + assert (dset k v acc = acc ++ [(k, v)]) as ->.
      { clear IH. apply NoDup_app in Hnd as (_ & Hd & _).
        assert (k ∉ acc.*1) as Hk.
        { intros Hk. apply (Hd k Hk). left. }
        clear Hd. induction acc as [|[k1 v1] acc IH]; simpl; [done|].
        apply not_elem_of_cons in Hk as [? ?]. case_decide; subst; [done|].
        f_equal. auto. }
      by rewrite <- app_assoc.
    + assert (dset k v acc = acc ++ [(k, v)]) as ->.
      { clear IH. apply NoDup_app in Hnd as (_ & Hd & _).
        assert (k ∉ acc.*1) as Hk.
        { intros Hk. apply (Hd k Hk). left. }
        clear Hd. induction acc as [|[k1 v1] acc IH]; simpl; [done|].
        apply not_elem_of_cons in Hk as [? ?]. case_decide; subst; [done|].
        f_equal. auto. }
      rewrite fmap_app. simpl. rewrite <- app_assoc. done.
Qed.

Lemma of_items_nodup (l : list (K * V)) : NoDup (keys l) → of_items l = l.
Proof. intros. unfold of_items. by rewrite of_items_app. Qed.

Lemma ddel_Ret d k d' :
  ddel k d = Ret d' → d' = filter (λ p, p.1 ≠ k) d ∧ k ∈ keys d.
Proof.
  unfold ddel. destruct (dget k d) eqn:E; [|done].
  intros [= <-]. split; [done|]. apply dget_is_Some. eauto.
Qed.
End dict.

(** *** [range] and the layouts *)

Lemma elem_of_range (n x : Z) : x ∈ range n ↔ 0 ≤ x < n.
Proof.
  unfold range. rewrite list_elem_of_fmap. setoid_rewrite elem_of_seq.
  split.
  - intros (k & -> & Hk). lia.
  - intros Hx. exists (Z.to_nat x). lia.
Qed.

Lemma range_nil (n : Z) : n ≤ 0 → range n = [].
Proof. intros. unfold range. by replace (Z.to_nat n) with 0%nat by lia. Qed.

Lemma length_range (n : Z) : length (range n) = Z.to_nat n.
Proof. unfold range. by rewrite length_fmap, length_seq. Qed.

Lemma NoDup_range (n : Z) : NoDup (range n).
Proof.
  unfold range. apply NoDup_fmap_2; [|apply NoDup_seq].
  intros x y. lia.
Qed.

Lemma elem_of_run1 (L i j : Z) (c : cell) :
  c ∈ run1 L i j ↔ ∃ t, 0 ≤ t < L ∧ c = (i + t, j).
Proof.
  unfold run1. rewrite elem_of_list_to_set, list_elem_of_fmap.
  setoid_rewrite elem_of_range. naive_solver.
Qed.

Lemma elem_of_run2 (L i j : Z) (c : cell) :
  c ∈ run2 L i j ↔ ∃ t, 0 ≤ t < L ∧ c = (j, i + t).
Proof.
  unfold run2. rewrite elem_of_list_to_set, list_elem_of_fmap.
  setoid_rewrite elem_of_range. naive_solver.
Qed.

Lemma size_run1 (L i j : Z) : size (run1 L i j) = Z.to_nat L.
Proof.
  unfold run1. rewrite size_list_to_set.
  - by rewrite length_fmap, length_range.
  - apply NoDup_fmap_2; [|apply NoDup_range]. intros x y [= ?]. lia.
Qed.

Lemma size_run2 (L i j : Z) : size (run2 L i j) = Z.to_nat L.
Proof.
  unfold run2. rewrite size_list_to_set.
  - by rewrite length_fmap, length_range.
  - apply NoDup_fmap_2; [|apply NoDup_range]. intros x y [= ?]. lia.
Qed.

(** The cells of a board of side [dim] *)
Definition in_grid (dim : Z) (c : cell) : Prop :=
  0 ≤ c.1 < dim ∧ 0 ≤ c.2 < dim.








Lemma len_union_le (s t : gset cell) : len (s ∪ t) ≤ len s + len t.
Proof. unfold len. pose proof (size_union_alt s t).
  assert (size (t ∖ s) ≤ size t)%nat by (apply subseteq_size; set_solver). lia.
Qed.

(** The test by cardinalities that the two programs use for disjointness *)
Lemma len_union_eq_disjoint (s t : gset cell) :
  len s + len t = len (s ∪ t) ↔ s ## t.
Proof.
  unfold len. rewrite size_union_alt.
  split.
  - intros H. assert (size (t ∖ s) = size t) as Hsz by lia.
    assert (t ∖ s = t) as Heq.
    { apply set_subseteq_size_eq; [set_solver|lia]. }
    set_solver.
  - intros H. assert (t ∖ s = t) as -> by set_solver. lia.
Qed.

(** The test by cardinalities for inclusion *)
Lemma len_union_eq_subseteq (s t : gset cell) :
  len (s ∪ t) = len t ↔ s ⊆ t.
Proof.
  unfold len. split.
  - intros H. assert (s ∪ t = t) as Heq.
    { symmetry. apply set_subseteq_size_eq; [set_solver|lia]. }
    set_solver.
  - intros H. assert (s ∪ t = t) as -> by set_solver. done.
Qed.


Lemma len_difference_eq_subseteq (s t : gset cell) :
  len (s ∖ t) = len s - len t ↔ t ⊆ s.
Proof.
  unfold len. split.
  - intros H.
    assert (size s = size (s ∖ t) + size (s ∩ t))%nat as Hs.
    { rewrite <- size_union by set_solver. f_equal. apply set_eq. intros x.
      rewrite elem_of_union, elem_of_difference, elem_of_intersection.
      destruct (decide (x ∈ t)); naive_solver. }
    assert (s ∩ t = t) as Heq.
    { apply set_subseteq_size_eq; [set_solver|lia]. }
    set_solver.
  - intros H.
    assert (size s = size (s ∖ t) + size t)%nat as Hs.
    { rewrite <- size_union by set_solver. f_equal. apply set_eq. intros x.
      rewrite elem_of_union, elem_of_difference.
      destruct (decide (x ∈ t)); naive_solver. }
    lia.
Qed.

(** *** Sorting, shuffling, counting *)

Lemma insert_by_perm {A} (le : A → A → bool) (x : A) (l : list A) :
  insert_by le x l ≡ₚ x :: l.
Proof.
  induction l as [|y l IH]; simpl; [done|].
  destruct (le y x); [|done]. rewrite IH. apply Permutation_swap.
Qed.

Lemma sorted_by_perm {A} (le : A → A → bool) (l : list A) : sorted_by le l ≡ₚ l.
Proof.
  unfold sorted_by.
  assert (∀ acc, fold_left (λ acc x, insert_by le x acc) l acc ≡ₚ acc ++ l) as H.
  { induction l as [|x l IH]; intros acc; simpl.
    - by rewrite app_nil_r.
    - rewrite IH, insert_by_perm. simpl. apply Permutation_middle. }
  apply H.
Qed.

Lemma sorted_by_value_perm {K} (d : dict K Z) : sorted_by_value d ≡ₚ keys d.
Proof. unfold sorted_by_value, keys. by rewrite sorted_by_perm. Qed.

Lemma swap_perm {A} (x : list A) (i j : nat) : swap x i j ≡ₚ x.
Proof.
  unfold swap. destruct (x !! i) as [a|] eqn:Hi; [|done].
  destruct (x !! j) as [b|] eqn:Hj; [|done].
  destruct (decide (i = j)) as [->|Hne].
  - assert (a = b) as -> by congruence.
    rewrite list_insert_insert_eq. by rewrite list_insert_id.
  - apply Permutation_inj. split; [by rewrite !length_insert|].
    exists (λ k, if decide (k = i) then j else if decide (k = j) then i else k).
    split.
    + intros k1 k2. repeat case_decide; subst; congruence.
    + intros k. rewrite list_lookup_insert.
      rewrite !length_insert. case_decide as Hc.
      { destruct Hc as [<- Hlt]. rewrite decide_True by done. done. }
      rewrite list_lookup_insert. case_decide as Hc2.
      { destruct Hc2 as [<- Hlt]. rewrite decide_False by done.
        rewrite decide_True by done. done. }
      destruct (decide (k = i)) as [->|]; [|destruct (decide (k = j)) as [->|]; [|done]].
      { destruct Hc. split; [done|]. by apply lookup_lt_Some in Hi. }
      { destruct Hc2. split; [done|]. by apply lookup_lt_Some in Hj. }
Qed.

Lemma shuffle_from_perm {A} (i : nat) (x y : list A) (w w' : world) :
  shuffle_from i x w = Ret (y, w') → y ≡ₚ x.
Proof.
  revert x w. induction i as [|i IH]; intros x w H; simpl in H.
  - apply mretM_Ret in H as [<- _]. done.
  - apply bindM_Ret in H as (j & w1 & _ & H).
    apply IH in H. by rewrite H, swap_perm.
Qed.

Lemma shuffle_perm {A} (x y : list A) (w w' : world) :
  shuffle x w = Ret (y, w') → y ≡ₚ x.
Proof. apply shuffle_from_perm. Qed.

Lemma elem_of_keys_Counter_acc (l : list cell) (acc : dict cell Z) (c : cell) :
  c ∈ keys (fold_left (λ d c, dset c (default 0 (dget c d) + 1) d) l acc)
  ↔ c ∈ l ∨ c ∈ keys acc.
Proof.
  revert acc. induction l as [|x l IH]; intros acc; simpl.
  - rewrite elem_of_nil. naive_solver.
  - rewrite IH, elem_of_keys_dset, elem_of_cons. naive_solver.
Qed.

Lemma elem_of_keys_Counter (l : list cell) (c : cell) :
  c ∈ keys (Counter l) ↔ c ∈ l.
Proof.
  unfold Counter. rewrite elem_of_keys_Counter_acc. unfold keys. simpl.
  rewrite elem_of_nil. naive_solver.
Qed.

Lemma elem_of_keys_most_common (d : dict cell Z) (c : cell) :
  c ∈ keys (most_common d) ↔ c ∈ keys d.
Proof. unfold most_common, keys. by rewrite sorted_by_perm. Qed.

Lemma elem_of_keys_most_common_n (n : Z) (d : dict cell Z) (c : cell) :
  c ∈ keys (most_common_n n d) → c ∈ keys d.
Proof.
  unfold most_common_n, keys. intros H. apply elem_of_keys_most_common.
  unfold keys. rewrite fmap_take in H.
  apply elem_of_take in H as (i & Hi & _). by eapply list_elem_of_lookup_2.
Qed.

Lemma max_from_elem (best : cell) (bestv : Z) (d : dict cell Z) :
  max_from best bestv d = best ∨ max_from best bestv d ∈ keys d.
Proof.
  unfold keys. revert best bestv. induction d as [|[k v] d IH]; intros best bestv; simpl.
  - by left.
  - case_decide.
    + right. destruct (IH k v) as [->|?]; [left|by right].
    + destruct (IH best bestv) as [->|?]; [by left|right; by right].
Qed.

Lemma max_key_elem (d : dict cell Z) (c : cell) :
  max_key d = Ret c → c ∈ keys d.
Proof.
  unfold max_key, keys. destruct d as [|[k v] d]; [done|]. intros [= <-]. simpl.
  destruct (max_from_elem k v d) as [->|?]; [left|by right].
Qed.

(** [for i in hits: del d[i]] leaves the keys that are not hits. *)
Lemma drop_keys (hs : list cell) (d d' : dict cell Z) :
  for_each hs (λ i d, ddel i d) d = Ret d' →
  ∀ c, c ∈ keys d' → c ∈ keys d ∧ c ∉ hs.
Proof.
  revert d. induction hs as [|h hs IH]; intros d H c Hc; simpl in H.
  - injection H as <-. split; [done|]. apply not_elem_of_nil.
  - apply bind_Ret in H as (d1 & H1 & H). apply ddel_Ret in H1 as [-> _].
    destruct (IH _ H c Hc) as [Hin Hnot]. unfold keys in Hin.
    apply list_elem_of_fmap in Hin as ([k v] & -> & Hin).
    apply list_elem_of_filter in Hin as [Hne Hin]. simpl in *.
    split.
    + unfold keys. apply list_elem_of_fmap. by exists (k, v).
    + apply not_elem_of_cons. done.
Qed.

(** [order.remove(x)] keeps the other elements, in order. *)

Lemma index_elem {A} (l : list A) (i : Z) (x : A) : index l i = Ret x → x ∈ l.
Proof.
  unfold index. case_decide.
  - destruct (l !! Z.to_nat i) eqn:E; [|done]. intros [= <-].
    by eapply list_elem_of_lookup_2.
  - destruct (l !! _) eqn:E; [|done]. case_decide; [|done]. intros [= <-].
    by eapply list_elem_of_lookup_2.
Qed.

Lemma choice_elem {A} (l : list A) (x : A) (w w' : world) :
  choice l w = Ret (x, w') → x ∈ l.
Proof.
  unfold choice. intros H. apply bindM_Ret in H as (i & w1 & _ & H).
  apply lift_Ret in H as [H _]. by eapply index_elem.
Qed.

Lemma index_total {A} (l : list A) (r : Z) :
  0 ≤ r < llen l → ∃ x, index l r = Ret x ∧ x ∈ l.
Proof.
  unfold llen. intros Hr. unfold index. case_decide; [|lia].
  destruct (lookup_lt_is_Some_2 l (Z.to_nat r)) as [x Hx]; [lia|].
  rewrite Hx. exists x. split; [done|]. by eapply list_elem_of_lookup_2.
Qed.

Lemma randint_Ret (n r : Z) (w w' : world) :
  randint n w = Ret (r, w') → 0 ≤ r < n.
Proof.
  unfold randint. case_decide; [|done]. intros [= <- _].
  by apply Z.mod_pos_bound.
Qed.

Lemma randint_nonpos (n : Z) (w : world) : n ≤ 0 → randint n w = Raise ValueError.
Proof. intros. unfold randint. case_decide; [lia|done]. Qed.

(** *** The order of a set built from a list *)



(** *** Names, [dict(zip(...))] and permutations *)

Lemma NoDup_ascii_lowercase : NoDup ascii_lowercase.
Proof. apply (bool_decide_unpack _). by vm_compute. Qed.

Lemma NoDup_take_names (n : nat) : NoDup (take n ascii_lowercase).
Proof.
  eapply sublist_NoDup; [apply NoDup_ascii_lowercase|apply sublist_take].
Qed.

Lemma elem_of_of_items {K V} `{EqDecision K} (l : list (K * V)) (p : K * V) :
  p ∈ of_items l → p ∈ l.
Proof.
  unfold of_items.
  assert (∀ acc, p ∈ fold_left (λ d p, dset p.1 p.2 d) l acc → p ∈ acc ∨ p ∈ l) as H.
  { induction l as [|[k v] l IH]; intros acc Hp; simpl in *; [by left|].
    apply IH in Hp as [Hp|Hp]; [|right; by right].
    apply elem_of_dset in Hp as [->|Hp]; [right; left|by left]. }
  intros Hp. apply H in Hp as [Hp|Hp]; [by apply elem_of_nil in Hp|done].
Qed.

Lemma keys_zip_names {A} (names : list string) (l : list A) :
  NoDup names → (length names ≤ length l)%nat →
  keys (of_items (zip names l)) = names.
Proof.
  intros Hnd Hlen. rewrite of_items_nodup; unfold keys.
  - by apply fst_zip.
  - by rewrite fst_zip.
Qed.

Lemma permutations_upto_perm {A} (n : nat) (l o : list A) :
  o ∈ permutations_upto n l → (length l ≤ n)%nat → o ≡ₚ l.
Proof.
  revert l o. induction n as [|n IH]; intros l o Ho Hlen; simpl in Ho.
  - apply list_elem_of_singleton in Ho as ->. destruct l; [done|simpl in Hlen; lia].
  - destruct l as [|a l]; [by apply list_elem_of_singleton in Ho as ->|].
    apply list_elem_of_bind in Ho as (i & Ho & _).
    destruct ((a :: l) !! i) as [x|] eqn:Hi; [|by apply elem_of_nil in Ho].
    apply list_elem_of_fmap in Ho as (o' & -> & Ho').
    apply IH in Ho'.
    + rewrite Ho'. symmetry. by apply delete_Permutation.
    + pose proof (lookup_lt_Some _ _ _ Hi) as Hlt. rewrite length_delete by eauto.
      simpl in *. lia.
Qed.

Lemma permutations_perm {A} (l o : list A) : o ∈ permutations l → o ≡ₚ l.
Proof. intros H. by eapply permutations_upto_perm. Qed.

Lemma permutations_upto_self {A} (n : nat) (l : list A) :
  (length l ≤ n)%nat → l ∈ permutations_upto n l.
Proof.
  revert l. induction n as [|n IH]; intros l Hlen.
  - destruct l; [by apply list_elem_of_singleton|simpl in Hlen; lia].
  - destruct l as [|a l]; [by apply list_elem_of_singleton|]. simpl in *.
    apply elem_of_app. left. apply list_elem_of_fmap. exists l. split; [done|].
    apply IH. lia.
Qed.

Lemma permutations_self {A} (l : list A) : l ∈ permutations l.
Proof. by apply permutations_upto_self. Qed.

Lemma llen_app {A} (l k : list A) : llen (l ++ k) = llen l + llen k.
Proof. unfold llen. rewrite length_app. lia. Qed.

End PyFacts.

(** ** Facts about the Bayesian variant *)
Module BayesianFacts.
Import Py PyFacts Bayesian.

(** A ship is marked sunk when its flag is 1. *)
Definition sunk (g : game) (n : string) : Prop := dget n (sunkDict g) = Some 1.

#[global] Instance sunk_dec g n : Decision (sunk g n).
Proof. unfold sunk. apply _. Defined.

(** What [updateOrientations] leaves alone *)
Record frame (g g' : game) : Prop := Frame {
  fr_dim : dim g' = dim g;
  fr_ships : ships g' = ships g;
  fr_names : names g' = names g;
  fr_lengths : shipLengths g' = shipLengths g;
  fr_catalogue : possibleShipsDict g' = possibleShipsDict g;
  fr_catalogue_num : possibleShipsNumDict g' = possibleShipsNumDict g;
  fr_numPerms : numPerms g' = numPerms g;
  fr_orders : randomOrderDict g' = randomOrderDict g;
  fr_boats : boats g' = boats g;
  fr_board : board g' = board g;
  fr_hits : hits g' = hits g;
  fr_misses : misses g' = misses g;
  fr_last : lastTurnBoards g' = lastTurnBoards g;
  fr_next : nextInx g' = nextInx g;
  fr_randomOrder : randomOrder g' = randomOrder g;
  fr_batchSize : batchSize g' = batchSize g;
  fr_numMaxHits : numMaxHits g' = numMaxHits g
}.

Lemma frame_refl g : frame g g.
Proof. by constructor. Qed.

Lemma frame_trans g1 g2 g3 : frame g1 g2 → frame g2 g3 → frame g1 g3.
Proof. intros [] []. constructor; congruence. Qed.

(** The invariant of a game in progress: the dictionaries are keyed by the
    names; the boats are disjoint layouts that make up the board; the
    evidence agrees with the board; a ship is marked sunk only when the hits
    cover its location; the location of a ship that is not marked sunk is
    among its candidates; the candidates lie on the board. *)
Record wf (g : game) : Prop := Wf {
  wf_names : NoDup (names g);
  wf_sunk_keys : keys (sunkDict g) = names g;
  wf_cond_keys : keys (possibleShipsDictCond g) = names g;
  wf_num_keys : keys (possibleShipsNumDictCond g) = names g;
  wf_len_keys : keys (shipLengths g) = names g;
  wf_flags : ∀ n v, dget n (sunkDict g) = Some v → v = 0 ∨ v = 1;
  wf_boats_nodup : NoDup (boats g).*1;
  wf_boats_names : ∀ n loc, (n, loc) ∈ boats g → n ∈ names g;
  wf_boats_disj : ∀ n1 l1 n2 l2,
    (n1, l1) ∈ boats g → (n2, l2) ∈ boats g → n1 ≠ n2 → l1 ## l2;
  wf_board : ∀ c, c ∈ board g ↔ ∃ p, p ∈ boats g ∧ c ∈ p.2;
  wf_hits : hits g ⊆ board g;
  wf_misses : misses g ## board g;
  wf_sunk_boat : ∀ n, sunk g n →
    ∃ loc, (n, loc) ∈ boats g ∧ loc ⊆ hits g ∧ loc ⊆ hitsSunk g;
  wf_hitsSunk : ∀ c, c ∈ hitsSunk g →
    ∃ n loc, (n, loc) ∈ boats g ∧ sunk g n ∧ c ∈ loc;
  wf_truth : ∀ n loc, (n, loc) ∈ boats g → ¬ sunk g n →
    ∃ l, dget n (possibleShipsDictCond g) = Some l ∧ ESet loc ∈ l;
  wf_sets : ∀ n l e, ¬ sunk g n →
    dget n (possibleShipsDictCond g) = Some l → e ∈ l → ∃ s, e = ESet s;
  wf_cells : ∀ n l e, sunk g n →
    dget n (possibleShipsDictCond g) = Some l → e ∈ l → ∃ c, e = ETup c;
  wf_grid : ∀ n l s c,
    dget n (possibleShipsDictCond g) = Some l → ESet s ∈ l → c ∈ s →
    in_grid (dim g) c;
  wf_board_grid : ∀ c, c ∈ board g → in_grid (dim g) c;
  wf_orders : ∀ i o, dget i (randomOrderDict g) = Some o → o ≡ₚ names g;
  wf_numMaxHits : numMaxHits g = sum (ships g)
}.

(** The candidates of the ships that are not marked sunk avoid the misses
    and the sunk cells. *)
Definition pruned (g : game) : Prop :=
  ∀ n l e, ¬ sunk g n → dget n (possibleShipsDictCond g) = Some l → e ∈ l →
           ∃ s, e = ESet s ∧ misses g ## s ∧ s ## hitsSunk g.


Lemma boat_unique g n l1 l2 :
  wf g → (n, l1) ∈ boats g → (n, l2) ∈ boats g → l1 = l2.
Proof.
  intros Hwf H1 H2.
  assert (dget n (boats g) = Some l1) as E1 by (apply elem_dget; [apply Hwf|done]).
  assert (dget n (boats g) = Some l2) as E2 by (apply elem_dget; [apply Hwf|done]).
  congruence.
Qed.

Lemma guess_wf c g : wf g → wf (guess c g).
Proof.
  intros []. unfold guess. simpl. case_decide as Hb.
  - constructor; simpl; try done.
    + set_solver.
    + intros n Hn. destruct (wf_sunk_boat0 n Hn) as (loc & ? & ? & ?).
      exists loc. set_solver.
  - constructor; simpl; try done. set_solver.
Qed.

(** The misses lie on the board. *)
Definition on_grid (g : game) : Prop := ∀ c, c ∈ misses g → in_grid (dim g) c.

Lemma guess_on_grid c g : on_grid g → in_grid (dim g) c → on_grid (guess c g).
Proof.
  intros Hg Hc. unfold on_grid, guess. simpl. case_decide; simpl; [done|].
  intros c' [?| ->%elem_of_singleton]%elem_of_union; auto.
Qed.

Section Facts.
Variable set_order : gset cell → list cell.
Hypothesis set_order_spec : ∀ s c, c ∈ set_order s ↔ c ∈ s.

(** *** Sinking *)

(** The boats among [bs] that the hits cover *)
Definition covered (g : game) (bs : list (string * gset cell)) : list (string * gset cell) :=
  filter (λ p, p.2 ⊆ hits g) bs.

Lemma sink_boat_frame i g : frame g (sink_boat set_order i g).
Proof. destruct i as [b loc]. unfold sink_boat. case_decide; by constructor. Qed.

Lemma sink_fold_frame bs g : frame g (fold_left (λ g i, sink_boat set_order i g) bs g).
Proof.
  revert g. induction bs as [|i bs IH]; intros g; simpl; [apply frame_refl|].
  eapply frame_trans; [apply sink_boat_frame|apply IH].
Qed.

Lemma sink_frame g : frame g (sink set_order g).
Proof. apply sink_fold_frame. Qed.

(** The state after the first loop, field by field *)
Definition sink_upto (bs : list (string * gset cell)) (g : game) : game :=
  fold_left (λ g i, sink_boat set_order i g) bs g.

Lemma sink_upto_snoc bs b loc g :
  sink_upto (bs ++ [(b, loc)]) g =
  if decide (loc ⊆ hits g)
  then with_possibleShipsNumDictCond
         (dset b 1 (possibleShipsNumDictCond (sink_upto bs g)))
         (with_possibleShipsDictCond
            (dset b (ETup <$> set_order loc) (possibleShipsDictCond (sink_upto bs g)))
            (with_sunkDict (dset b 1 (sunkDict (sink_upto bs g)))
               (with_hitsSunk (hitsSunk (sink_upto bs g) ∪ loc) (sink_upto bs g))))
  else sink_upto bs g.
Proof.
  unfold sink_upto. rewrite fold_left_app. simpl.
  rewrite (fr_hits _ _ (sink_fold_frame bs g)). done.
Qed.

Lemma covered_snoc g bs b loc :
  covered g (bs ++ [(b, loc)]) =
  if decide (loc ⊆ hits g) then covered g bs ++ [(b, loc)] else covered g bs.
Proof.
  unfold covered. rewrite filter_app, filter_cons, filter_nil. simpl.
  case_decide; [done|by rewrite app_nil_r].
Qed.

Lemma sink_sunkDict_in bs g n :
  n ∈ (covered g bs).*1 → dget n (sunkDict (sink_upto bs g)) = Some 1.
Proof.
  induction bs as [|[b loc] bs IH] using rev_ind.
  { intros H. by apply elem_of_nil in H. }
  rewrite sink_upto_snoc, covered_snoc. case_decide; [|done].
  rewrite fmap_app, elem_of_app. simpl. rewrite list_elem_of_singleton, dget_dset.
  intros [?| ->]; case_decide; auto; congruence.
Qed.

Lemma sink_sunkDict_notin bs g n :
  n ∉ (covered g bs).*1 → dget n (sunkDict (sink_upto bs g)) = dget n (sunkDict g).
Proof.
  induction bs as [|[b loc] bs IH] using rev_ind; [done|].
  rewrite sink_upto_snoc, covered_snoc. case_decide; [|done].
  rewrite fmap_app, elem_of_app. simpl. rewrite list_elem_of_singleton.
  intros Hn. rewrite dget_dset_ne by naive_solver. apply IH. naive_solver.
Qed.

Lemma sink_hitsSunk bs g c :
  c ∈ hitsSunk (sink_upto bs g) ↔ c ∈ hitsSunk g ∨ ∃ p, p ∈ covered g bs ∧ c ∈ p.2.
Proof.
  induction bs as [|[b loc] bs IH] using rev_ind.
  { unfold covered. simpl. setoid_rewrite elem_of_nil. naive_solver. }
  rewrite sink_upto_snoc, covered_snoc. case_decide; [|done]. simpl.
  rewrite elem_of_union, IH. setoid_rewrite elem_of_app.
  setoid_rewrite list_elem_of_singleton. naive_solver.
Qed.

Lemma sink_cond_notin bs g n :
  n ∉ (covered g bs).*1 →
  dget n (possibleShipsDictCond (sink_upto bs g)) = dget n (possibleShipsDictCond g).
Proof.
  induction bs as [|[b loc] bs IH] using rev_ind; [done|].
  rewrite sink_upto_snoc, covered_snoc. case_decide; [|done].
  rewrite fmap_app, elem_of_app. simpl. rewrite list_elem_of_singleton.
  intros Hn. rewrite dget_dset_ne by naive_solver. apply IH. naive_solver.
Qed.

Lemma sink_cond_in bs g n loc :
  NoDup bs.*1 → (n, loc) ∈ covered g bs →
  dget n (possibleShipsDictCond (sink_upto bs g)) = Some (ETup <$> set_order loc).
Proof.
  induction bs as [|[b l] bs IH] using rev_ind.
  { intros _ H. by apply elem_of_nil in H. }
  rewrite fmap_app. simpl. intros (Hnd & Hdis & _)%NoDup_app.
  rewrite sink_upto_snoc, covered_snoc. case_decide; [|by apply IH].
  rewrite elem_of_app, list_elem_of_singleton. simpl. intros [Hin|[= -> ->]].
  - rewrite dget_dset_ne; [by apply IH|].
    intros ->. apply list_elem_of_filter in Hin as [_ Hin].
    eapply Hdis; [|by apply list_elem_of_singleton].
    apply list_elem_of_fmap. by exists (n, loc).
  - apply dget_dset_eq.
Qed.

Lemma sink_keys bs g :
  (∀ n, n ∈ bs.*1 → n ∈ keys (sunkDict g)) →
  (∀ n, n ∈ bs.*1 → n ∈ keys (possibleShipsDictCond g)) →
  (∀ n, n ∈ bs.*1 → n ∈ keys (possibleShipsNumDictCond g)) →
  keys (sunkDict (sink_upto bs g)) = keys (sunkDict g)
  ∧ keys (possibleShipsDictCond (sink_upto bs g)) = keys (possibleShipsDictCond g)
  ∧ keys (possibleShipsNumDictCond (sink_upto bs g)) = keys (possibleShipsNumDictCond g).
Proof.
  induction bs as [|[b l] bs IH] using rev_ind; [done|].
  intros H1 H2 H3.
  destruct IH as (E1 & E2 & E3).
  { intros n Hn. apply H1. rewrite fmap_app, elem_of_app. by left. }
  { intros n Hn. apply H2. rewrite fmap_app, elem_of_app. by left. }
  { intros n Hn. apply H3. rewrite fmap_app, elem_of_app. by left. }
  assert (b ∈ (bs ++ [(b, l)]).*1) as Hb.
  { rewrite fmap_app, elem_of_app. right. by apply list_elem_of_singleton. }
  rewrite sink_upto_snoc. case_decide; [|done]. simpl.
  rewrite !keys_dset_in; [done|rewrite ?E1, ?E2, ?E3; auto..].
Qed.

Lemma sink_eq g : sink set_order g = sink_upto (boats g) g.
Proof. done. Qed.

Lemma sink_sunk g n :
  sunk (sink set_order g) n ↔ sunk g n ∨ n ∈ (covered g (boats g)).*1.
Proof.
  unfold sunk, sink. fold (sink_upto (boats g) g).
  destruct (decide (n ∈ (covered g (boats g)).*1)) as [Hn|Hn].
  - rewrite sink_sunkDict_in by done. naive_solver.
  - rewrite sink_sunkDict_notin by done. naive_solver.
Qed.

Lemma elem_of_covered g n loc :
  (n, loc) ∈ covered g (boats g) ↔ (n, loc) ∈ boats g ∧ loc ⊆ hits g.
Proof. unfold covered. rewrite list_elem_of_filter. naive_solver. Qed.

Lemma elem_of_covered_names g n :
  n ∈ (covered g (boats g)).*1 ↔ ∃ loc, (n, loc) ∈ boats g ∧ loc ⊆ hits g.
Proof.
  rewrite list_elem_of_fmap. split.
  - intros ([m loc] & -> & H). apply elem_of_covered in H. eauto.
  - intros (loc & H). exists (n, loc). split; [done|]. by apply elem_of_covered.
Qed.

Lemma sink_wf g : wf g → wf (sink set_order g).
Proof.
  intros Hwf. pose proof (sink_frame g) as F.
  assert (∀ n, n ∈ (boats g).*1 → n ∈ names g) as Hbn.
  { intros n ([m loc] & -> & H)%list_elem_of_fmap. by eapply wf_boats_names. }
  destruct (sink_keys (boats g) g) as (K1 & K2 & K3).
  { intros n Hn. rewrite (wf_sunk_keys g Hwf). auto. }
  { intros n Hn. rewrite (wf_cond_keys g Hwf). auto. }
  { intros n Hn. rewrite (wf_num_keys g Hwf). auto. }
  rewrite <- sink_eq in K1, K2, K3.
  assert (∀ n, ¬ sunk (sink set_order g) n →
            ¬ sunk g n ∧ dget n (possibleShipsDictCond (sink set_order g))
                          = dget n (possibleShipsDictCond g)) as Hns.
  { intros n Hn. rewrite sink_sunk in Hn. split; [naive_solver|].
    apply sink_cond_notin. naive_solver. }
  destruct Hwf, F. constructor; rewrite ?fr_names0, ?fr_boats0, ?fr_board0,
    ?fr_hits0, ?fr_misses0, ?fr_dim0, ?fr_lengths0, ?fr_orders0,
    ?fr_numMaxHits0, ?fr_ships0; try done; try congruence.
  - intros n v. rewrite sink_eq.
    destruct (decide (n ∈ (covered g (boats g)).*1)) as [Hn|Hn].
    + rewrite sink_sunkDict_in by done. intros [= <-]. by right.
    + rewrite sink_sunkDict_notin by done. apply wf_flags0.
  - intros n [Hn|Hn]%sink_sunk.
    + destruct (wf_sunk_boat0 n Hn) as (loc & ? & ? & ?). exists loc.
      split; [done|]. split; [done|]. intros c Hc.
      apply (sink_hitsSunk (boats g) g c). left. auto.
    + apply elem_of_covered_names in Hn as (loc & ? & ?). exists loc.
      split; [done|]. split; [done|]. intros c Hc.
      apply (sink_hitsSunk (boats g) g c). right. exists (n, loc).
      split; [by apply elem_of_covered|done].
  - intros c [Hc|([n loc] & [? ?]%elem_of_covered & ?)]%(sink_hitsSunk (boats g) g c).
    + destruct (wf_hitsSunk0 c Hc) as (n & loc & ? & ? & ?). exists n, loc.
      split; [done|]. split; [|done]. apply sink_sunk. by left.
    + exists n, loc. split; [done|]. split; [|done]. apply sink_sunk. right.
      apply elem_of_covered_names. eauto.
  - intros n loc Hb Hn. destruct (Hns n Hn) as [Hn' ->]. by apply wf_truth0.
  - intros n l e Hn. destruct (Hns n Hn) as [Hn' ->]. by apply wf_sets0.
  - intros n l e Hn. rewrite sink_eq.
    destruct (decide (n ∈ (covered g (boats g)).*1)) as [Hc|Hc].
    + apply elem_of_covered_names in Hc as (loc & ? & ?).
      rewrite (sink_cond_in (boats g) g n loc); [|done|by apply elem_of_covered].
      intros [= <-] (c & -> & _)%list_elem_of_fmap. eauto.
    + rewrite sink_cond_notin by done. apply wf_cells0.
      apply sink_sunk in Hn as [?|?]; done.
  - intros n l s c. rewrite sink_eq.
    destruct (decide (n ∈ (covered g (boats g)).*1)) as [Hn|Hn].
    + apply elem_of_covered_names in Hn as (loc & ? & ?).
      rewrite (sink_cond_in (boats g) g n loc); [|done|by apply elem_of_covered].
      intros [= <-] ([c' ?] & ? & _)%list_elem_of_fmap. done.
    + rewrite sink_cond_notin by done. apply wf_grid0.
Qed.

(** *** Pruning *)

(** What the second and the third loop leave alone *)
Definition frame2 (g g' : game) : Prop :=
  frame g g' ∧ sunkDict g' = sunkDict g ∧ hitsSunk g' = hitsSunk g.

Lemma frame2_refl g : frame2 g g.
Proof. split; [apply frame_refl|done]. Qed.

Lemma frame2_trans g1 g2 g3 : frame2 g1 g2 → frame2 g2 g3 → frame2 g1 g3.
Proof.
  intros (? & ? & ?) (? & ? & ?). split; [by eapply frame_trans|split; congruence].
Qed.

Lemma consistent_frame2 g g' e : frame2 g g' → consistent g' e = consistent g e.
Proof.
  intros (F & _ & Hh). unfold consistent. by rewrite (fr_misses _ _ F), Hh.
Qed.

Lemma consistent_true g e :
  consistent g e = Ret true ↔ ∃ s, e = ESet s ∧ misses g ## s ∧ s ## hitsSunk g.
Proof.
  unfold consistent. destruct e as [s|c].
  - split.
    + intros [= H]. apply andb_true_iff in H as [H1 H2].
      apply bool_decide_eq_true in H1, H2. eauto.
    + intros (s' & [= <-] & H1 & H2). f_equal.
      apply andb_true_iff. by rewrite !bool_decide_eq_true.
  - split; [done|]. by intros (s' & ? & _).
Qed.

Lemma prune_ship_spec n g g' :
  prune_ship n g = Ret g' →
  frame2 g g'
  ∧ (∀ m, m ≠ n → dget m (possibleShipsDictCond g') = dget m (possibleShipsDictCond g))
  ∧ (sunk g n → g' = g)
  ∧ (¬ sunk g n → ∃ l l', dget n (possibleShipsDictCond g) = Some l
                          ∧ dget n (possibleShipsDictCond g') = Some l'
                          ∧ select (consistent g) l = Ret l')
  ∧ keys (possibleShipsDictCond g') = keys (possibleShipsDictCond g)
  ∧ (n ∈ keys (possibleShipsNumDictCond g) →
     keys (possibleShipsNumDictCond g') = keys (possibleShipsNumDictCond g)).
Proof.
  unfold prune_ship. intros H. inv_step H. apply item_Ret in H0.
  case_decide as Hs.
  - inv_step H. inv_step H. injection H as <-. apply item_Ret in H1.
    split; [split; [by constructor|done]|].
    split; [intros m Hm; simpl; by rewrite dget_dset_ne|].
    split; [intros Hsunk; unfold sunk in Hsunk; rewrite H0 in Hsunk;
            injection Hsunk as ->; lia|].
    split; [intros _; exists a0, a1; simpl; by rewrite dget_dset_eq|].
    split; simpl.
    + apply keys_dset_in, dget_is_Some. eauto.
    + apply keys_dset_in.
  - injection H as <-. split; [apply frame2_refl|].
    split; [done|]. split; [done|]. split; [|done].
    intros Hn. destruct Hn. unfold sunk. rewrite H0. f_equal. lia.
Qed.

Lemma prune_upto_spec ns g g' :
  NoDup ns →
  (∀ n, n ∈ ns → n ∈ keys (possibleShipsNumDictCond g)) →
  for_each ns prune_ship g = Ret g' →
  frame2 g g'
  ∧ (∀ m, m ∉ ns ∨ sunk g m →
          dget m (possibleShipsDictCond g') = dget m (possibleShipsDictCond g))
  ∧ (∀ n, n ∈ ns → ¬ sunk g n →
          ∃ l l', dget n (possibleShipsDictCond g) = Some l
                  ∧ dget n (possibleShipsDictCond g') = Some l'
                  ∧ select (consistent g) l = Ret l')
  ∧ keys (possibleShipsDictCond g') = keys (possibleShipsDictCond g)
  ∧ keys (possibleShipsNumDictCond g') = keys (possibleShipsNumDictCond g).
Proof.
  revert g'. induction ns as [|n ns IH] using rev_ind; intros g' Hnd Hk H.
  { injection H as <-. split; [apply frame2_refl|]. split; [done|].
    split; [|done]. intros n Hn. by apply elem_of_nil in Hn. }
  apply for_each_snoc_Ret in H as (g1 & H1 & H).
  apply NoDup_app in Hnd as (Hnd & Hdis & _).
  destruct (IH g1) as (F1 & U1 & P1 & K1 & K1'); [done| |done|].
  { intros m Hm. apply Hk, elem_of_app. by left. }
  assert (n ∉ ns) as Hn.
  { intros Hn. eapply Hdis; [done|by apply list_elem_of_singleton]. }
  apply prune_ship_spec in H as (F2 & U2 & S2 & P2 & K2 & K2').
  assert (∀ m, sunk g1 m ↔ sunk g m) as Hsunk.
  { intros m. unfold sunk. destruct F1 as (_ & -> & _). done. }
  split; [by eapply frame2_trans|].
  split; [|split; [|split]].
  - intros m [Hm|Hm].
    + rewrite elem_of_app, list_elem_of_singleton in Hm.
      rewrite U2 by naive_solver. apply U1. left. naive_solver.
    + destruct (decide (m = n)) as [->|Hne].
      * rewrite S2 by by apply Hsunk. apply U1. by right.
      * rewrite U2 by done. apply U1. by right.
  - intros m [Hm| ->%list_elem_of_singleton]%elem_of_app Hns.
    + destruct (P1 m Hm Hns) as (l & l' & E1 & E2 & E3).
      exists l, l'. split; [done|]. split; [|done].
      rewrite U2; [done|]. by intros ->.
    + destruct P2 as (l & l' & E1 & E2 & E3); [by rewrite Hsunk|].
      exists l, l'. rewrite <- (U1 n) by by left. split; [done|].
      split; [done|]. rewrite <- E3. apply select_ext.
      intros e. symmetry. by apply consistent_frame2.
  - congruence.
  - rewrite K2', K1'; [done|]. rewrite K1'. apply Hk, elem_of_app. right.
    by apply list_elem_of_singleton.
Qed.

Lemma prune_ship_total n g :
  n ∈ keys (sunkDict g) → n ∈ keys (possibleShipsDictCond g) →
  (∀ l e, ¬ sunk g n → dget n (possibleShipsDictCond g) = Some l → e ∈ l →
          ∃ s, e = ESet s) →
  ∃ g', prune_ship n g = Ret g'.
Proof.
  intros [s Hs]%dget_is_Some [l Hl]%dget_is_Some Hsets.
  unfold prune_ship, item. rewrite Hs. simpl. case_decide as Hne; [|eauto].
  rewrite Hl. simpl.
  destruct (select_total (consistent g) l) as [r ->]; [|simpl; eauto].
  intros e He. destruct (Hsets l e) as [s' ->]; [|done|done|simpl; eauto].
  unfold sunk. rewrite Hs. intros [= ->]. lia.
Qed.

Lemma prune_total g :
  wf g → ∃ g', prune g = Ret g'.
Proof.
  intros Hwf. unfold prune.
  destruct (for_each_total
    (λ g', frame2 g g'
           ∧ keys (possibleShipsDictCond g') = keys (possibleShipsDictCond g)
           ∧ ∀ n l' e, dget n (possibleShipsDictCond g') = Some l' → e ∈ l' →
               ∃ l, dget n (possibleShipsDictCond g) = Some l ∧ e ∈ l)
    (names g) prune_ship g) as (g' & H & _); [| |eauto].
  { split; [apply frame2_refl|]. split; [done|]. eauto. }
  intros n g1 Hn (F & K & Hsub).
  assert (∀ m, sunk g1 m ↔ sunk g m) as Hsunk.
  { intros m. unfold sunk. destruct F as (_ & -> & _). done. }
  destruct (prune_ship_total n g1) as [g2 H2].
  { destruct F as (_ & -> & _). by rewrite (wf_sunk_keys g Hwf). }
  { rewrite K. by rewrite (wf_cond_keys g Hwf). }
  { intros l e Hns Hl He. destruct (Hsub n l e Hl He) as (l0 & Hl0 & He0).
    eapply (wf_sets g Hwf n l0 e); [by rewrite <- Hsunk|done|done]. }
  exists g2. split; [done|].
  pose proof H2 as H2'.
  apply prune_ship_spec in H2 as (F2 & U2 & S2 & P2 & K2 & _).
  split; [by eapply frame2_trans|]. split; [congruence|].
  intros m l' e Hl' He.
  destruct (decide (m = n)) as [->|Hne].
  - destruct (decide (sunk g1 n)) as [Hs|Hs].
    + rewrite (S2 Hs) in Hl'. eauto.
    + destruct (P2 Hs) as (l0 & l1 & E0 & E1 & Hsel).
      assert (l1 = l') as -> by congruence.
      apply select_sublist in Hsel as [Hsel _].
      apply (Hsub n l0 e E0). by eapply elem_of_sublist.
  - rewrite U2 in Hl' by done. eauto.
Qed.

Lemma prune_wf g g' :
  wf g → prune g = Ret g' → wf g' ∧ pruned g' ∧ frame2 g g'.
Proof.
  intros Hwf H. unfold prune in H.
  apply prune_upto_spec in H as (F & U & P & K1 & K2);
    [|apply Hwf|by rewrite (wf_num_keys g Hwf)].
  assert (∀ m, sunk g' m ↔ sunk g m) as Hsunk.
  { intros m. unfold sunk. destruct F as (_ & -> & _). done. }
  assert (∀ n l' e, dget n (possibleShipsDictCond g') = Some l' → e ∈ l' →
            ∃ l, dget n (possibleShipsDictCond g) = Some l ∧ e ∈ l) as Hsub.
  { intros n l' e Hl' He.
    destruct (decide (n ∈ names g ∧ ¬ sunk g n)) as [[Hn Hs]|Hn].
    - destruct (P n Hn Hs) as (l0 & l1 & E0 & E1 & Hsel).
      assert (l1 = l') as -> by congruence.
      apply select_sublist in Hsel as [Hsel _].
      exists l0. split; [done|]. by eapply elem_of_sublist.
    - rewrite U in Hl'; [eauto|].
      destruct (decide (n ∈ names g)); [right|by left].
      destruct (decide (sunk g n)); [done|naive_solver]. }
  split; [|split; [|done]].
  - destruct F as (F & Es & Eh). destruct Hwf, F.
    constructor; rewrite ?fr_names0, ?fr_boats0, ?fr_board0,
      ?fr_hits0, ?fr_misses0, ?fr_dim0, ?fr_lengths0, ?fr_orders0,
      ?fr_numMaxHits0, ?fr_ships0, ?Es, ?Eh; try done; try congruence.
    + intros n Hn. rewrite Hsunk in Hn. auto.
    + intros c Hc. destruct (wf_hitsSunk0 c Hc) as (n & loc & ? & ? & ?).
      exists n, loc. by rewrite Hsunk.
    + intros n loc Hb Hn. rewrite Hsunk in Hn.
      destruct (wf_truth0 n loc Hb Hn) as (l & Hl & Hin).
      destruct (P n) as (l0 & l1 & E0 & E1 & Hsel); [eauto|done|].
      assert (l0 = l) as -> by congruence.
      exists l1. split; [done|]. eapply select_keeps; [done|done|].
      apply consistent_true. exists loc. split; [done|].
      split.
      * intros c Hc1 Hc2. apply (wf_misses0 c Hc1). apply wf_board0.
        by exists (n, loc).
      * intros c Hc1 Hc2.
        destruct (wf_hitsSunk0 c Hc2) as (n' & loc' & Hb' & Hs' & Hc').
        assert (loc ## loc') as Hd.
        { apply (wf_boats_disj0 n loc n' loc'); [done|done|by intros ->]. }
        set_solver.
    + intros n l e Hn Hl He. rewrite Hsunk in Hn.
      destruct (Hsub n l e Hl He) as (l0 & Hl0 & He0). eauto.
    + intros n l e Hn Hl He. rewrite Hsunk in Hn.
      destruct (Hsub n l e Hl He) as (l0 & Hl0 & He0). eauto.
    + intros n l s c Hl He Hc.
      destruct (Hsub n l _ Hl He) as (l0 & Hl0 & He0). eauto.
  - intros n l e Hn Hl He. rewrite Hsunk in Hn.
    destruct F as (F & Es & Eh). rewrite (fr_misses _ _ F), Eh.
    assert (n ∈ names g) as Hin.
    { rewrite <- (wf_cond_keys g Hwf), <- K1. apply dget_is_Some. eauto. }
    destruct (P n Hin Hn) as (l0 & l1 & E0 & E1 & Hsel).
    assert (l1 = l) as -> by congruence.
    apply select_sublist in Hsel as [_ Hsel]. by apply consistent_true, Hsel.
Qed.

(** *** Unique-owner propagation *)

Lemma holds_true h e : holds h e = true ↔ ∃ s, e = ESet s ∧ h ∈ s.
Proof.
  clear set_order set_order_spec.
  unfold holds. rewrite bool_decide_eq_true. destruct e as [s|[i j]]; simpl.
  - rewrite list_elem_of_fmap. setoid_rewrite elem_of_elements. split.
    + intros (c & [= <-] & Hc). eauto.
    + intros (s' & [= <-] & Hc). eauto.
  - rewrite !elem_of_cons, elem_of_nil. split; [naive_solver|].
    by intros (s & ? & _).
Qed.

Lemma covers_true h l : covers h l = true ↔ ∃ e, e ∈ l ∧ holds h e = true.
Proof.
  clear set_order set_order_spec.
  unfold covers, holds. rewrite bool_decide_eq_true, list_elem_of_bind.
  setoid_rewrite bool_decide_eq_true. naive_solver.
Qed.

Lemma elem_of_owners h g n :
  NoDup (keys (possibleShipsDictCond g)) →
  n ∈ owners h g ↔
  ∃ l, dget n (possibleShipsDictCond g) = Some l ∧ covers h l = true.
Proof.
  intros Hnd. unfold owners. rewrite list_elem_of_fmap. split.
  - intros ([m l] & -> & [Hc Hin]%list_elem_of_filter). exists l.
    split; [by apply elem_dget|done].
  - intros (l & Hl & Hc). exists (n, l). split; [done|].
    apply list_elem_of_filter. split; [done|]. by apply dget_Some_elem.
Qed.

Lemma propagate_hit_spec h g g' :
  propagate_hit h g = Ret g' →
  frame2 g g'
  ∧ keys (possibleShipsDictCond g') = keys (possibleShipsDictCond g)
  ∧ ((∀ n, owners h g ≠ [n]) ∧ g' = g
     ∨ ∃ n l, owners h g = [n]
              ∧ dget n (possibleShipsDictCond g) = Some l
              ∧ dget n (possibleShipsDictCond g')
                = Some (filter (λ k, holds h k = true) l)
              ∧ (∀ m, m ≠ n → dget m (possibleShipsDictCond g')
                              = dget m (possibleShipsDictCond g))
              ∧ possibleShipsNumDictCond g'
                = dset n (llen (filter (λ k, holds h k = true) l))
                    (possibleShipsNumDictCond g)).
Proof.
  unfold propagate_hit. destruct (owners h g) as [|n [|m o]] eqn:E.
  - intros [= <-]. split; [apply frame2_refl|]. split; [done|]. by left.
  - intros H. inv_step H. injection H as <-. apply item_Ret in H0.
    split; [split; [by constructor|done]|]. simpl. split.
    + apply keys_dset_in, dget_is_Some. eauto.
    + right. exists n, a. rewrite dget_dset_eq. split; [done|].
      split; [done|]. split; [done|]. split; [|done].
      intros m Hm. by rewrite dget_dset_ne.
  - intros [= <-]. split; [apply frame2_refl|]. split; [done|]. by left.
Qed.

Lemma propagate_hit_total h g : ∃ g', propagate_hit h g = Ret g'.
Proof.
  unfold propagate_hit. destruct (owners h g) as [|n [|m o]] eqn:E; [eauto| |eauto].
  assert (n ∈ owners h g) as Hn by (rewrite E; by apply list_elem_of_singleton).
  unfold owners in Hn. apply list_elem_of_fmap in Hn as ([m l] & -> & Hin).
  apply list_elem_of_filter in Hin as [_ Hin].
  assert (is_Some (dget m (possibleShipsDictCond g))) as [l' Hl'].
  { apply dget_is_Some. unfold keys. apply list_elem_of_fmap. by exists (m, l). }
  unfold item. simpl. rewrite Hl'. simpl. eauto.
Qed.

Lemma propagate_hit_wf h g g' :
  wf g → pruned g → h ∈ hits g → propagate_hit h g = Ret g' →
  wf g' ∧ pruned g' ∧ frame2 g g'.
Proof.
  intros Hwf Hpr Hh H.
  apply propagate_hit_spec in H as (F & K & [[_ ->]|(n & l & Ho & Hl & Hl' & Hu & Hnum)]).
  { done. }
  assert (∀ m, sunk g' m ↔ sunk g m) as Hsunk.
  { intros m. unfold sunk. destruct F as (_ & -> & _). done. }
  assert (∀ m l' e, dget m (possibleShipsDictCond g') = Some l' → e ∈ l' →
            ∃ l, dget m (possibleShipsDictCond g) = Some l ∧ e ∈ l) as Hsub.
  { intros m l' e Hm He. destruct (decide (m = n)) as [->|Hne].
    - rewrite Hl' in Hm. injection Hm as <-.
      apply list_elem_of_filter in He as [_ He]. eauto.
    - rewrite Hu in Hm by done. eauto. }
  split; [|split; [|done]].
  - destruct F as (F & Es & Eh). pose proof Hwf as Hwf'. destruct Hwf, F.
    constructor; rewrite ?fr_names0, ?fr_boats0, ?fr_board0,
      ?fr_hits0, ?fr_misses0, ?fr_dim0, ?fr_lengths0, ?fr_orders0,
      ?fr_numMaxHits0, ?fr_ships0, ?Es, ?Eh; try done; try congruence.
    + rewrite Hnum, keys_dset_in; [done|]. rewrite wf_num_keys0, <- wf_cond_keys0.
      apply dget_is_Some. eauto.
    + intros m Hm. rewrite Hsunk in Hm. auto.
    + intros c Hc. destruct (wf_hitsSunk0 c Hc) as (m & loc & ? & ? & ?).
      exists m, loc. by rewrite Hsunk.
    + intros m loc Hb Hm. rewrite Hsunk in Hm.
      destruct (wf_truth0 m loc Hb Hm) as (l0 & Hl0 & Hin).
      destruct (decide (m = n)) as [->|Hne]; [|rewrite Hu by done; eauto].
      assert (l0 = l) as -> by congruence.
      exists (filter (λ k, holds h k = true) l). split; [done|].
      apply list_elem_of_filter. split; [|done].
      apply holds_true. exists loc. split; [done|].
      (* the hit lies in a boat; that boat is not sunk and owns the hit *)
      assert (h ∈ board g) as Hb' by set_solver.
      apply wf_board0 in Hb' as ([m' loc'] & Hb' & Hc'). simpl in Hc'.
      destruct (decide (sunk g m')) as [Hs|Hs].
      * destruct (wf_sunk_boat0 m' Hs) as (loc2 & Hb2 & _ & Hsub2).
        assert (loc2 = loc') as -> by by eapply boat_unique.
        assert (n ∈ owners h g) as Hown by (rewrite Ho; by apply list_elem_of_singleton).
        apply elem_of_owners in Hown as (l1 & Hl1 & Hcov); [|by rewrite wf_cond_keys0].
        assert (l1 = l) as -> by congruence.
        apply covers_true in Hcov as (e & He & Hhold).
        destruct (Hpr n l e Hm Hl He) as (s & -> & _ & Hdis).
        apply holds_true in Hhold as (s' & [= <-] & Hhs). set_solver.
      * destruct (wf_truth0 m' loc' Hb' Hs) as (l1 & Hl1 & Hin1).
        assert (m' ∈ owners h g) as Hown.
        { apply elem_of_owners; [by rewrite wf_cond_keys0|]. exists l1.
          split; [done|]. apply covers_true. exists (ESet loc'). split; [done|].
          apply holds_true. eauto. }
        rewrite Ho in Hown. apply list_elem_of_singleton in Hown as ->.
        assert (loc' = loc) as -> by by eapply boat_unique. done.
    + intros m l0 e Hm Hl0 He. rewrite Hsunk in Hm.
      destruct (Hsub m l0 e Hl0 He) as (l1 & Hl1 & He1). eauto.
    + intros m l0 e Hm Hl0 He. rewrite Hsunk in Hm.
      destruct (Hsub m l0 e Hl0 He) as (l1 & Hl1 & He1). eauto.
    + intros m l0 s c Hl0 He Hc.
      destruct (Hsub m l0 _ Hl0 He) as (l1 & Hl1 & He1). eauto.
  - intros m l0 e Hm Hl0 He. rewrite Hsunk in Hm.
    destruct F as (F & Es & Eh). rewrite (fr_misses _ _ F), Eh.
    destruct (Hsub m l0 e Hl0 He) as (l1 & Hl1 & He1). eauto.
Qed.

Lemma propagate_wf g :
  wf g → pruned g →
  ∃ g', propagate set_order g = Ret g' ∧ wf g' ∧ pruned g' ∧ frame2 g g'.
Proof.
  intros Hwf Hpr. unfold propagate.
  apply (for_each_total (λ g', wf g' ∧ pruned g' ∧ frame2 g g')).
  { split; [done|]. split; [done|]. apply frame2_refl. }
  intros h g1 Hh (Hwf1 & Hpr1 & F1).
  destruct (propagate_hit_total h g1) as [g2 H2]. exists g2. split; [done|].
  apply propagate_hit_wf in H2 as (? & ? & ?); [|done|done|].
  - split; [done|]. split; [done|]. by eapply frame2_trans.
  - destruct F1 as (F1 & _). rewrite (fr_hits _ _ F1). by apply set_order_spec.
Qed.

(** *** [updateOrientations] *)

Lemma with_order_wf o g : wf g → wf (with_order o g).
Proof. intros []. by constructor. Qed.

(** On a game in progress [updateOrientations] returns; it keeps the
    invariant, leaves the evidence alone and leaves the candidates pruned. *)
Lemma updateOrientations_wf g :
  wf g →
  ∃ g', updateOrientations set_order g = Ret g'
        ∧ wf g' ∧ pruned g' ∧ frame g g'
        ∧ (∀ n, sunk g' n ↔ sunk g n ∨ n ∈ (covered g (boats g)).*1).
Proof.
  intros Hwf. unfold updateOrientations.
  pose proof (sink_wf g Hwf) as Hwf1.
  destruct (prune_total _ Hwf1) as [g2 H2]. rewrite H2. simpl.
  apply prune_wf in H2 as (Hwf2 & Hpr2 & F2); [|done].
  destruct (propagate_wf g2 Hwf2 Hpr2) as (g3 & H3 & Hwf3 & Hpr3 & F3).
  rewrite H3. simpl. eexists. split; [done|].
  split; [by apply with_order_wf|]. split; [done|].
  destruct F2 as (F2 & Es2 & Eh2), F3 as (F3 & Es3 & Eh3).
  split.
  - eapply frame_trans; [apply sink_frame|].
    eapply frame_trans; [done|]. eapply frame_trans; [done|]. by constructor.
  - intros n. rewrite <- sink_sunk. unfold sunk. simpl. by rewrite Es3, Es2.
Qed.

End Facts.
End BayesianFacts.

(** ** The Bayesian constructor builds a game that satisfies the invariant *)
Module BayesianInit.
Import Py PyFacts Bayesian BayesianFacts.

(** The catalogue lies on the board. *)
Lemma orientations1_grid dim L s c :
  s ∈ orientations1 dim L → c ∈ s → in_grid dim c.
Proof.
  unfold orientations1. intros Hs Hc.
  apply list_elem_of_bind in Hs as (i & Hs & Hi%elem_of_range).
  apply list_elem_of_bind in Hs as (j & Hs & Hj%elem_of_range).
  apply list_elem_of_singleton in Hs as ->.
  apply elem_of_run1 in Hc as (t & Ht & ->). unfold in_grid. simpl. lia.
Qed.

Lemma orientations2_grid dim L s c :
  s ∈ orientations2 dim L → c ∈ s → in_grid dim c.
Proof.
  unfold orientations2. intros Hs Hc.
  apply list_elem_of_bind in Hs as (i & Hs & Hi%elem_of_range).
  apply list_elem_of_bind in Hs as (j & Hs & Hj%elem_of_range).
  apply list_elem_of_singleton in Hs as ->.
  apply elem_of_run2 in Hc as (t & Ht & ->). unfold in_grid. simpl. lia.
Qed.

(** What [generateComponentLayouts] builds *)
Definition catalogue_ok (g : game) : Prop :=
  keys (possibleShipsDict g) = names g
  ∧ keys (possibleShipsNumDict g) = names g
  ∧ ∀ n l, dget n (possibleShipsDict g) = Some l →
      ∃ L, dget n (shipLengths g) = Some L
           ∧ l = orientations1 (dim g) L ++ orientations2 (dim g) L
           ∧ dget n (possibleShipsNumDict g) = Some (llen l).

Lemma generateComponentLayouts_spec g :
  NoDup (names g) → keys (shipLengths g) = names g →
  ∃ g', generateComponentLayouts g = Ret g'
        ∧ catalogue_ok g'
        ∧ dim g' = dim g ∧ ships g' = ships g ∧ names g' = names g
        ∧ sunkDict g' = sunkDict g ∧ shipLengths g' = shipLengths g.
Proof.
  intros Hnd Hk. unfold generateComponentLayouts.
  set (g0 := with_possibleShipsNumDict [] (with_possibleShipsDict [] g)).
  assert (∀ ns g1,
    NoDup (keys (possibleShipsDict g1) ++ ns) →
    (∀ n, n ∈ ns → n ∈ keys (shipLengths g1)) →
    keys (possibleShipsNumDict g1) = keys (possibleShipsDict g1) →
    (∀ n l, dget n (possibleShipsDict g1) = Some l →
      ∃ L, dget n (shipLengths g1) = Some L
           ∧ l = orientations1 (dim g1) L ++ orientations2 (dim g1) L
           ∧ dget n (possibleShipsNumDict g1) = Some (llen l)) →
    ∃ g', for_each ns
            (λ name g,
               L ← item (shipLengths g) name;
               let o1 := orientations1 (dim g) L in
               let o2 := orientations2 (dim g) L in
               Ret (with_possibleShipsNumDict
                      (dset name (llen o1 + llen o2) (possibleShipsNumDict g))
                      (with_possibleShipsDict
                         (dset name (o1 ++ o2) (possibleShipsDict g)) g)))
            g1 = Ret g'
      ∧ keys (possibleShipsDict g') = keys (possibleShipsDict g1) ++ ns
      ∧ keys (possibleShipsNumDict g') = keys (possibleShipsDict g')
      ∧ (∀ n l, dget n (possibleShipsDict g') = Some l →
          ∃ L, dget n (shipLengths g') = Some L
               ∧ l = orientations1 (dim g') L ++ orientations2 (dim g') L
               ∧ dget n (possibleShipsNumDict g') = Some (llen l))
      ∧ dim g' = dim g1 ∧ ships g' = ships g1 ∧ names g' = names g1
      ∧ sunkDict g' = sunkDict g1 ∧ shipLengths g' = shipLengths g1) as Hloop.
  { induction ns as [|n ns IH]; intros g1 Hnd1 Hlen Hkeys Hcat; simpl.
    - exists g1. rewrite app_nil_r. done.
    - destruct (proj2 (dget_is_Some (shipLengths g1) n)) as [L HL].
      { apply Hlen. left. }
      unfold item. rewrite HL. simpl.
      assert (n ∉ keys (possibleShipsDict g1)) as Hfresh.
      { apply NoDup_app in Hnd1 as (_ & Hd & _). intros Hn.
        apply (Hd n Hn). left. }
      edestruct IH as (g' & -> & K1 & K2 & Hc & ? & ? & ? & ? & ?); simpl.
      + rewrite keys_dset_notin by done. by rewrite <- app_assoc.
      + intros m Hm. apply Hlen. by right.
      + rewrite !keys_dset_notin; [by rewrite Hkeys|done|by rewrite Hkeys].
      + intros m l. rewrite !dget_dset. case_decide as Hm.
        * subst m. intros [= <-]. exists L. by rewrite llen_app.
        * apply Hcat.
      + exists g'. split; [done|]. simpl in *.
        rewrite keys_dset_notin in K1 by done. rewrite <- app_assoc in K1.
        done. }
  destruct (Hloop (names g) g0) as (g' & H & K1 & K2 & Hc & ? & ? & ? & ? & ?).
  - simpl. done.
  - intros n Hn. simpl. by rewrite Hk.
  - done.
  - intros n l. simpl. done.
  - exists g'. split; [done|]. simpl in *. split; [|done].
    split; [congruence|]. split; [congruence|]. done.
Qed.

Lemma Battleship_init_spec dim0 ships0 :
  ∃ g, Battleship_init dim0 ships0 = Ret g
       ∧ dim g = dim0 ∧ ships g = ships0
       ∧ names g = take (length ships0) ascii_lowercase
       ∧ keys (sunkDict g) = names g
       ∧ (∀ n v, dget n (sunkDict g) = Some v → v = 0)
       ∧ keys (shipLengths g) = names g
       ∧ catalogue_ok g
       ∧ 0 < numPerms g
       ∧ (∀ i o, dget i (randomOrderDict g) = Some o → o ≡ₚ names g).
Proof.
  unfold Battleship_init.
  set (nm := take (length ships0) ascii_lowercase).
  assert (NoDup nm) as Hnd by apply NoDup_take_names.
  assert (length nm ≤ length ships0)%nat as Hlen.
  { unfold nm. rewrite length_take. lia. }
  edestruct generateComponentLayouts_spec as (g & -> & Hc & E1 & E2 & E3 & E4 & E5).
  { simpl. exact Hnd. }
  { simpl. by apply keys_zip_names. }
  exists (generateRandomOrders g). split; [done|].
  assert (catalogue_ok (generateRandomOrders g)) as Hc' by exact Hc.
  simpl in *. rewrite E4, E5, E3.
  split; [done|]. split; [done|]. split; [done|].
  split; [apply keys_zip_names; [done|by rewrite length_fmap]|].
  split.
  { intros n v Hv. apply dget_Some_elem, elem_of_of_items in Hv.
    apply elem_of_zip_r in Hv. by apply list_elem_of_fmap in Hv as (? & -> & _). }
  split; [by apply keys_zip_names|].
  split; [done|].
  split.
  { unfold llen. pose proof (permutations_self nm) as Hin.
    destruct (permutations nm); [by apply elem_of_nil in Hin|simpl; lia]. }
  intros i o Ho. apply dget_Some_elem, elem_of_of_items in Ho.
  apply elem_of_zip_r in Ho. by apply permutations_perm.
Qed.

(** *** [randomBoard] *)

Lemma place_ship_spec fuel g name fs w sc w' :
  place_ship fuel g name fs w = Ret (sc, w') →
  sc ## fs ∧ ∃ l, dget name (possibleShipsDict g) = Some l ∧ sc ∈ l.
Proof.
  revert w. induction fuel as [|fuel IH]; intros w H; simpl in H; [done|].
  inv_step H. inv_step H0. inv_step H. inv_step H1. inv_step H. inv_step H.
  inv_step H3. case_decide.
  - inv_step H. split; [done|]. apply item_Ret in H0. exists a.
    split; [done|]. by eapply index_elem.
  - by eapply IH.
Qed.

Lemma place_all_spec fuel g order fs bs w fs' bs' w' :
  for_eachM order
    (λ name (acc : gset cell * list (string * gset cell)),
       ship_coords ← place_ship fuel g name acc.1;
       mret (acc.1 ∪ ship_coords, acc.2 ++ [(name, ship_coords)]))
    (fs, bs) w = Ret ((fs', bs'), w') →
  ∃ new, bs' = bs ++ new ∧ new.*1 = order
         ∧ (∀ c, c ∈ fs' ↔ c ∈ fs ∨ ∃ p, p ∈ new ∧ c ∈ p.2)
         ∧ (∀ n loc, (n, loc) ∈ new →
              loc ## fs ∧ ∃ l, dget n (possibleShipsDict g) = Some l ∧ loc ∈ l)
         ∧ (∀ n1 l1 n2 l2, (n1, l1) ∈ new → (n2, l2) ∈ new → n1 ≠ n2 → l1 ## l2).
Proof.
  revert fs bs w. induction order as [|name order IH]; intros fs bs w H; simpl in H.
  - inv_step H. exists []. rewrite app_nil_r.
    split; [done|]. split; [done|]. setoid_rewrite elem_of_nil. naive_solver.
  - inv_step H. inv_step H0. inv_step H0. simpl in *.
    apply place_ship_spec in H1 as (Hdis & l & Hl & Hin).
    apply IH in H as (new & -> & Hn & Hfs & Hcat & Hpair).
    exists ((name, a0) :: new). rewrite <- app_assoc. split; [done|].
    split; [rewrite fmap_cons; simpl; by f_equal|]. split; [|split].
    + intros c. rewrite Hfs, elem_of_union. setoid_rewrite elem_of_cons.
      split; [|naive_solver].
      intros [[?|?]|(p & ? & ?)]; [by left| |naive_solver].
      right. exists (name, a0). naive_solver.
    + intros n loc [[= -> ->]|Hp]%elem_of_cons; [eauto|].
      destruct (Hcat n loc Hp) as (Hd & ?). split; [set_solver|done].
    + intros n1 l1 n2 l2 [[= -> ->]|H1]%elem_of_cons [[= -> ->]|H2]%elem_of_cons Hne.
      * done.
      * destruct (Hcat n2 l2 H2) as (Hd & _). set_solver.
      * destruct (Hcat n1 l1 H1) as (Hd & _). set_solver.
      * by eapply Hpair.
Qed.

Lemma randomBoard_spec fuel g w b g' w' :
  (∀ i o, dget i (randomOrderDict g) = Some o → o ≡ₚ names g) →
  randomBoard fuel g w = Ret ((b, g'), w') →
  g' = with_boats (boats g') g
  ∧ (boats g').*1 ≡ₚ names g
  ∧ (∀ c, c ∈ b ↔ ∃ p, p ∈ boats g' ∧ c ∈ p.2)
  ∧ (∀ n loc, (n, loc) ∈ boats g' →
       ∃ l, dget n (possibleShipsDict g) = Some l ∧ loc ∈ l)
  ∧ (∀ n1 l1 n2 l2, (n1, l1) ∈ boats g' → (n2, l2) ∈ boats g' → n1 ≠ n2 → l1 ## l2).
Proof.
  intros Hord H. unfold randomBoard in H.
  inv_step H. inv_step H. inv_step H1. inv_step H. inv_step H.
  destruct a1 as [fs bs].
  apply place_all_spec in H2 as (new & -> & Hn & Hfs & Hcat & Hpair).
  simpl in *. apply item_Ret in H1. split; [done|].
  split; [rewrite Hn; by eapply Hord|]. split; [|split; [|done]].
  - intros c. rewrite Hfs. set_solver.
  - intros n loc Hp. by destruct (Hcat n loc Hp) as (_ & ?).
Qed.

Lemma dget_as_entries d n :
  dget n (as_entries d) = (λ l : list (gset cell), ESet <$> l) <$> dget n d.
Proof.
  unfold as_entries. induction d as [|[k v] d IH]; simpl; [done|].
  case_decide; [done|apply IH].
Qed.

Lemma keys_as_entries d : keys (as_entries d) = keys d.
Proof. unfold keys, as_entries. rewrite <- list_fmap_compose. done. Qed.

(** A game fresh from the constructor *)
Definition fresh (g : game) : Prop :=
  hits g = ∅ ∧ misses g = ∅ ∧ hitsSunk g = ∅ ∧ lastTurnBoards g = []
  ∧ nextInx g = (-1, -1).

Lemma BattleshipPlayer_init_wf fuel dim0 ships0 ro bs pt w g w' :
  BattleshipPlayer_init fuel dim0 ships0 ro bs pt w = Ret (g, w') →
  wf g ∧ fresh g ∧ dim g = dim0 ∧ ships g = ships0
  ∧ names g = take (length ships0) ascii_lowercase
  ∧ randomOrder g = ro ∧ batchSize g = bs
  ∧ (∀ n, ¬ sunk g n).
Proof.
  intros H. unfold BattleshipPlayer_init in H.
  inv_step H. inv_step H0. inv_step H. inv_step H.
  destruct (Battleship_init_spec dim0 ships0)
    as (g0 & Hg0 & Ed & Es & En & Ks & Hz & Kl & (Kc & Kn & Hcat) & Hnp & Hord).
  rewrite Hg0 in H0. injection H0 as <-. destruct a0 as [b g1].
  apply randomBoard_spec in H1 as (Eg & Hperm & Hb & Hin & Hpair); [|done].
  rewrite Eg in *. simpl in *. clear Eg.
  assert (NoDup (names g0)) as Hnd by (rewrite En; apply NoDup_take_names).
  assert (∀ n, ¬ sunk (Game (dim g0) (numShips g0) (ships g0) (names g0)
      (sunkDict g0) (shipLengths g0) (possibleShipsDict g0)
      (possibleShipsNumDict g0) (numPerms g0) (randomOrderDict g0) 
      (boats g1) b ∅ ∅ ∅ (as_entries (possibleShipsDict g0))
      (possibleShipsNumDict g0) [] (-1, -1) ro bs pt (sum (ships g0))
      (sorted_by pair_le (zip ships0 (names g0))).*2 (aggDict g0) (numIter g0)) n)
    as Hns.
  { intros n Hn. unfold sunk in Hn. simpl in Hn. apply Hz in Hn. done. }
  split; [|done].
  constructor; simpl; try done.
  - by rewrite keys_as_entries.
  - intros n v Hv. left. by eapply Hz.
  - by rewrite Hperm.
  - intros n loc Hp. rewrite <- Hperm. apply list_elem_of_fmap. by exists (n, loc).
  - intros n Hn. by apply Hns in Hn.
  - intros n loc Hp _. destruct (Hin n loc Hp) as (l & Hl & Hloc).
    exists (ESet <$> l). rewrite dget_as_entries, Hl. split; [done|].
    apply list_elem_of_fmap. eauto.
  - intros n l e _. rewrite dget_as_entries.
    destruct (dget n (possibleShipsDict g0)); [|done].
    intros [= <-] (s & -> & _)%list_elem_of_fmap. eauto.
  - intros n l e Hn. by apply Hns in Hn.
  - intros n l s c. rewrite dget_as_entries.
    destruct (dget n (possibleShipsDict g0)) as [l0|] eqn:Hl0; [|done].
    intros [= <-] (s' & [= <-] & Hs)%list_elem_of_fmap Hc.
    destruct (Hcat n l0 Hl0) as (L & _ & -> & _).
    apply elem_of_app in Hs as [?|?];
      [by eapply orientations1_grid|by eapply orientations2_grid].
  - intros c Hc. apply Hb in Hc as ([n loc] & Hp & Hc). simpl in Hc.
    destruct (Hin n loc Hp) as (l & Hl & Hloc).
    destruct (Hcat n l Hl) as (L & _ & -> & _).
    apply elem_of_app in Hloc as [?|?];
      [by eapply orientations1_grid|by eapply orientations2_grid].
Qed.

End BayesianInit.

(** ** The Bayesian sampler *)
Module BayesianSampler.
Import Py PyFacts Bayesian BayesianFacts.

(** A cell of some layout left in some conditional list *)
Definition entry_cell (g : game) (c : cell) : Prop :=
  ∃ n l s, dget n (possibleShipsDictCond g) = Some l ∧ ESet s ∈ l ∧ c ∈ s.

(** Every set stored in [what_where] is made of cells with property [P]. *)
Definition all_cells (P : cell → Prop) (what_where : dict string (gset cell)) : Prop :=
  ∀ k s c, (k, s) ∈ what_where → c ∈ s → P c.

Lemma all_cells_dset P ww k s :
  all_cells P ww → (∀ c, c ∈ s → P c) → all_cells P (dset k s ww).
Proof.
  intros Hww Hs k' s' c [[= -> ->]|Hin]%elem_of_dset Hc; [auto|].
  by eapply Hww.
Qed.

Lemma elem_of_union_all (l : list (gset cell)) (c : cell) :
  c ∈ union_all l ↔ ∃ s, s ∈ l ∧ c ∈ s.
Proof. unfold union_all. rewrite elem_of_union_list. naive_solver. Qed.

Lemma all_cells_union P ww c :
  all_cells P ww → c ∈ union_all ww.*2 → P c.
Proof.
  intros Hww (s & Hs & Hc)%elem_of_union_all.
  apply list_elem_of_fmap in Hs as ([k s'] & -> & Hin). by eapply Hww.
Qed.

Lemma layouts_where_spec test configs r :
  layouts_where test configs = Ret r →
  ∀ s, s ∈ r ↔ ESet s ∈ configs ∧ test s = true.
Proof.
  revert r. induction configs as [|[s0|c0] configs IH]; intros r H s; simpl in H.
  - simplify_eq. rewrite !elem_of_nil. naive_solver.
  - inv_step H. simplify_eq. specialize (IH _ H0 s).
    rewrite elem_of_cons. destruct (test s0) eqn:E.
    + rewrite elem_of_cons, IH. split; [naive_solver|].
      intros [[[= ->]|?] ?]; auto.
    + rewrite IH. split; [naive_solver|].
      intros [[[= ->]|?] ?]; [congruence|auto].
  - done.
Qed.

Section Sampler.
Variable set_order : gset cell → list cell.
Hypothesis set_order_spec : ∀ s c, c ∈ set_order s ↔ c ∈ s.

(** *** The greedy pass *)

Lemma greedy_spec (P : cell → Prop) g order ww fs w r w' :
  (∀ c, entry_cell g c → P c) →
  all_cells P ww → (∀ c, c ∈ fs → P c) →
  greedy g order ww fs w = Ret (r, w') →
  match r with
  | Some (ww', fs') => all_cells P ww' ∧ (∀ c, c ∈ fs' → P c) ∧ fs ⊆ fs'
  | None => True
  end.
Proof.
  intros HP. revert ww fs w. induction order as [|i order IH]; intros ww fs w Hww Hfs H;
    simpl in H.
  - inv_step H. split; [done|]. split; [done|]. done.
  - inv_step H. inv_step H0. inv_step H. inv_step H1.
    apply item_Ret in H0.
    destruct a0 as [|s0 alts] eqn:Ealt.
    + inv_step H. done.
    + rewrite <- Ealt in *. inv_step H. apply choice_elem in H2.
      apply (layouts_where_spec _ _ _ H1) in H2 as [Hin _].
      assert (∀ c, c ∈ a1 → P c) as Ha1.
      { intros c Hc. apply HP. by exists i, a, a1. }
      apply IH in H.
      * destruct r as [[ww' fs']|]; [|done]. destruct H as (? & ? & ?).
        split; [done|]. split; [done|]. set_solver.
      * by apply all_cells_dset.
      * intros c [?|?]%elem_of_union; auto.
Qed.

(** A pass that meets a ship with no layout disjoint from the cells
    committed so far gives up: it answers [None]. *)
Lemma greedy_stuck g i order ww fs w configs :
  dget i (possibleShipsDictCond g) = Some configs →
  (∀ e, e ∈ configs → ∃ s, e = ESet s ∧ ¬ s ## fs) →
  greedy g (i :: order) ww fs w = Ret (None, w).
Proof.
  intros Hc Hnone. simpl.
  assert (layouts_where (λ k, bool_decide (k ## fs)) configs = Ret []) as Hl.
  { clear Hc. induction configs as [|e configs IH]; simpl; [done|].
    destruct (Hnone e) as (s & -> & Hs); [left|].
    rewrite IH.
    - simpl. by rewrite bool_decide_eq_false_2.
    - intros e He. apply Hnone. by right. }
  unfold mbind at 1, M_bind. unfold lift at 1, item. rewrite Hc.
  unfold mbind at 1, M_bind. unfold lift at 1. rewrite Hl. done.
Qed.

Lemma greedy_app g o1 o2 ww fs w :
  greedy g (o1 ++ o2) ww fs w =
  match greedy g o1 ww fs w with
  | Ret (Some (ww1, fs1), w1) => greedy g o2 ww1 fs1 w1
  | Ret (None, w1) => Ret (None, w1)
  | Raise e => Raise e
  | Diverge => Diverge
  end.
Proof.
  revert ww fs w. induction o1 as [|i o1 IH]; intros ww fs w; simpl; [done|].
  unfold mbind, M_bind.
  destruct (lift (item (possibleShipsDictCond g) i) w) as [[configs w1]| |]; [|done|done].
  destruct (lift (layouts_where _ configs) w1) as [[alts w2]| |]; [|done|done].
  destruct alts as [|s0 alts]; [done|].
  destruct (choice (s0 :: alts) w2) as [[sc w3]| |]; [|done|done].
  apply IH.
Qed.

(** *** The repair *)

Lemma repair_sweep_spec (P : cell → Prop) g ks ww fs w r w' :
  (∀ c, entry_cell g c → P c) →
  all_cells P ww →
  repair_sweep set_order g ks ww fs w = Ret (r, w') →
  match r with
  | inl l => (∀ c, c ∈ hits g → c ∈ l) ∧ (∀ c, c ∈ l → P c)
  | inr (ww', _) => all_cells P ww'
  end.
Proof.
  intros HP. revert ww fs w. induction ks as [|name ks IH]; intros ww fs w Hww H;
    simpl in H.
  - inv_step H. done.
  - inv_step H. inv_step H0. case_decide as Hother; [|by eapply IH].
    inv_step H. inv_step H1. case_decide as Hlt; [|by eapply IH].
    inv_step H. inv_step H2. apply item_Ret in H2.
    inv_step H. inv_step H3.
    destruct a2 as [|s0 alts] eqn:Ealt; [by eapply IH|].
    rewrite <- Ealt in *. inv_step H. apply choice_elem in H4.
    apply (layouts_where_spec _ _ _ H3) in H4 as [Hin _].
    assert (all_cells P (dset name a3 ww)) as Hww'.
    { apply all_cells_dset; [done|]. intros c Hc. apply HP. by exists name, a1, a3. }
    case_decide as Hcov.
    + inv_step H. split.
      * intros c Hc. apply set_order_spec. auto.
      * intros c Hc%set_order_spec. by eapply all_cells_union.
    + by eapply IH.
Qed.

Lemma repair_spec (P : cell → Prop) g count ww fs w r w' :
  (∀ c, entry_cell g c → P c) →
  all_cells P ww →
  repair set_order g count ww fs w = Ret (r, w') →
  match r with
  | inl l => (∀ c, c ∈ hits g → c ∈ l) ∧ (∀ c, c ∈ l → P c)
  | inr (ww', _) => all_cells P ww'
  end.
Proof.
  intros HP. revert ww fs w. induction count as [|count IH]; intros ww fs w Hww H;
    simpl in H.
  - inv_step H. done.
  - inv_step H. pose proof (repair_sweep_spec P _ _ _ _ _ _ _ HP Hww H0) as Hs.
    destruct a as [l|[ww1 fs1]].
    + inv_step H. done.
    + by eapply IH.
Qed.

(** *** [randomSelection] *)

(** What a returned sample is made of: it covers the hits, and its cells
    come from [mustHappen] and from the conditional lists. *)
Lemma randomSelection_loop_spec (P : cell → Prop) fuel g order mustHappen ww w r order' w' :
  (∀ c, entry_cell g c → P c) →
  (∀ c, c ∈ mustHappen → P c) →
  all_cells P ww →
  randomSelection_loop set_order fuel g order mustHappen ww w = Ret ((r, order'), w') →
  order' ≡ₚ order
  ∧ match r with
    | EmptySet => True
    | Cells l => (∀ c, c ∈ hits g → c ∈ l) ∧ (∀ c, c ∈ l → P c)
    end.
Proof.
  intros HP Hmh. revert order ww w.
  induction fuel as [|fuel IH]; intros order ww w Hww H; simpl in H; [done|].
  inv_step H. pose proof (greedy_spec P _ _ _ _ _ _ _ HP Hww Hmh H0) as Hg.
  destruct a as [[ww1 fs1]|].
  - destruct Hg as (Hww1 & Hfs1 & _). case_decide as Hcov.
    + inv_step H. split; [done|]. split.
      * intros c Hc. apply set_order_spec. auto.
      * intros c Hc%set_order_spec. auto.
    + inv_step H.
      assert (all_cells P (dset "other"%string mustHappen ww1)) as Hww2
        by by apply all_cells_dset.
      pose proof (repair_spec P g 3 _ _ _ _ _ HP Hww2 H1) as Hr.
      destruct a as [l|[ww3 fs3]].
      * inv_step H. done.
      * inv_step H. apply shuffle_perm in H2. apply IH in H as [Hperm ?]; [|done].
        split; [|done]. by rewrite Hperm.
  - inv_step H. done.
Qed.

Lemma randomSelection_spec (P : cell → Prop) fuel g order mustHappen w r order' w' :
  (∀ c, entry_cell g c → P c) →
  (∀ c, c ∈ mustHappen → P c) →
  randomSelection set_order fuel g order mustHappen w = Ret ((r, order'), w') →
  order' ≡ₚ order
  ∧ match r with
    | EmptySet => True
    | Cells l => (∀ c, c ∈ hits g → c ∈ l) ∧ (∀ c, c ∈ l → P c)
    end.
Proof.
  intros HP Hmh. apply randomSelection_loop_spec; [done|done|].
  intros k s c Hin. by apply elem_of_nil in Hin.
Qed.

(** *** [randomConditionalBoard] *)



Lemma randomConditionalBoard_loop_spec (P : cell → Prop) fuel g order mustHappen w r w' :
  (∀ c, entry_cell g c → P c) →
  (∀ c, c ∈ mustHappen → P c) →
  randomConditionalBoard_loop set_order fuel g order mustHappen w = Ret (r, w') →
  ∃ l, r = Cells l ∧ l ≠ [] ∧ (∀ c, c ∈ hits g → c ∈ l) ∧ (∀ c, c ∈ l → P c).
Proof.
  intros HP Hmh. revert order w.
  induction fuel as [|fuel IH]; intros order w H; simpl in H; [done|].
  inv_step H. destruct a as [fs order1].
  apply (randomSelection_spec P) in H0 as [_ Hr]; [|done|done].
  inv_step H. case_decide as Hlen; [by eapply IH|].
  inv_step H. destruct r as [|l]; [done|]. exists l. split; [done|].
  split; [|done]. intros ->. done.
Qed.


End Sampler.
End BayesianSampler.

(** ** The Bayesian aggregator and autoplay *)
Module BayesianPlay.
Import Py PyFacts Bayesian BayesianFacts BayesianSampler.


(** A cell that may be probed: on the board, and not a miss. *)
Definition open_cell (g : game) (c : cell) : Prop :=
  in_grid (dim g) c ∧ c ∉ misses g.

Lemma with_randomOrderDict_wf d g :
  wf g → (∀ i o, dget i d = Some o → o ≡ₚ names g) → wf (with_randomOrderDict d g).
Proof. intros [] ?. by constructor. Qed.

Lemma with_lastTurnBoards_wf v g : wf g → wf (with_lastTurnBoards v g).
Proof. intros []. by constructor. Qed.

Lemma with_aggDict_wf v g : wf g → wf (with_aggDict v g).
Proof. intros []. by constructor. Qed.

Lemma with_numIter_wf v g : wf g → wf (with_numIter v g).
Proof. intros []. by constructor. Qed.





Section Play.
Variable set_order : gset cell → list cell.
Hypothesis set_order_spec : ∀ s c, c ∈ set_order s ↔ c ∈ s.

(** *** The boards kept from the previous turn *)






(** *** Top-up sampling *)

(** [top_up] changes the object only in [randomOrderDict]. *)
Definition same_but_orders (g g' : game) : Prop :=
  ∃ d, g' = with_randomOrderDict d g.

Lemma same_but_orders_refl g : same_but_orders g g.
Proof. exists (randomOrderDict g). by destruct g. Qed.


(** *** [buildAggBoard] *)


(** *** One turn of [play] *)


(** The number of cells probed so far *)
Definition probed (g : game) : Z := len (hits g) + len (misses g).



(** *** [play] *)

(** The games that autoplay goes through: fresh from the constructor, then
    one turn after the other. *)
Inductive playing : game → Prop :=
| playing_init fuel dim ships randomOrder batchSize printTime w g w' :
    BattleshipAutoplay_init fuel dim ships randomOrder batchSize printTime w
      = Ret (g, w') →
    playing g
| playing_turn fuel g w g' w' :
    playing g → turn set_order fuel g w = Ret (g', w') → playing g'.





(** *** The games that the interface goes through *)

Lemma top_up_wf fuel todo slot g order numIter boards lboards w g' n' boards' lboards' w' :
  wf g → pruned g →
  (is_Some slot → order ≡ₚ names g) →
  top_up set_order fuel todo slot g order numIter boards lboards w
    = Ret ((g', n', boards', lboards'), w') →
  wf g' ∧ pruned g' ∧ same_but_orders g g'.
Proof.
  revert g order numIter boards lboards w.
  induction todo as [|todo IH]; intros g order numIter boards lboards w
    Hwf Hpr Hslot H; simpl in H.
  - retM H. split; [done|]. split; [done|]. apply same_but_orders_refl.
  - bindM H as o w1 Ho.
    assert (o ≡ₚ order) as Hperm.
    { destruct (randomOrder g); [by eapply shuffle_perm|by retM Ho]. }
    set (g1 := match slot with
               | Some i => with_randomOrderDict (dset i o (randomOrderDict g)) g
               | None => g
               end) in *.
    assert (wf g1 ∧ pruned g1 ∧ same_but_orders g g1) as (Hwf1 & Hpr1 & Hsame1).
    { unfold g1. destruct slot as [i|]; [|by split; [|split; [|apply same_but_orders_refl]]].
      split; [|split; [done|by eexists]].
      apply with_randomOrderDict_wf; [done|]. intros j o'. rewrite dget_dset.
      case_decide.
      - intros [= <-]. rewrite Hperm. apply Hslot. eauto.
      - apply Hwf. }
    bindM H as temp w2 Ht.
    apply IH in H as (Hwf' & Hpr' & Hsame').
    + split; [done|]. split; [done|].
      destruct Hsame1 as [d1 ->], Hsame' as [d2 ->]. by eexists.
    + done.
    + done.
    + intros Hs. rewrite Hperm.
      assert (names g1 = names g) as -> by (by destruct Hsame1 as [d ->]). auto.
Qed.

(** [buildAggBoard] keeps the invariant and the evidence, whatever the
    boards kept from the last turn. *)
Lemma buildAggBoard_wf fuel g w g' w' :
  wf g →
  buildAggBoard set_order fuel g w = Ret (g', w') →
  wf g' ∧ pruned g'
  ∧ dim g' = dim g ∧ names g' = names g ∧ boats g' = boats g
  ∧ board g' = board g ∧ hits g' = hits g ∧ misses g' = misses g
  ∧ nextInx g' = nextInx g.
Proof.
  intros Hwf H. unfold buildAggBoard in H.
  bindM H as r w1 Hr. destruct r as [order slot].
  assert (is_Some slot → order ≡ₚ names g) as Hslot.
  { destruct (randomOrder g); simpl in Hr.
    - bindM Hr as i w2 Hi. bindL Hr as o Ho. retM Hr. apply item_Ret in Ho.
      intros _. by eapply (wf_orders g Hwf).
    - retM Hr. by intros [? ?]. }
  bindL H as g1 Hg1.
  destruct (updateOrientations_wf set_order set_order_spec g Hwf)
    as (g1' & Hg1' & Hwf1 & Hpr1 & F1 & _).
  rewrite Hg1' in Hg1. simplify_eq.
  bindM H as seeds ws Hseed.
  bindM H as r w2 Ht. destruct r as [[[g2 n2] boards2] lboards2].
  apply top_up_wf in Ht as (Hwf2 & Hpr2 & [d ->]); [|done|done|].
  - retM H. simpl.
    split; [by apply with_numIter_wf, with_aggDict_wf, with_lastTurnBoards_wf|].
    split; [done|]. by destruct F1.
  - by rewrite (fr_names _ _ F1).
Qed.

(** One turn of [play] is [buildAggBoard] followed by [guess] on the cell
    of largest count that is not a hit. *)
Lemma turn_guess fuel g w g' w' :
  turn set_order fuel g w = Ret (g', w') →
  ∃ g1 d c, buildAggBoard set_order fuel g w = Ret (g1, w')
            ∧ for_each (set_order (hits g1)) (λ i d, ddel i d) (aggDict g1) = Ret d
            ∧ max_key d = Ret c
            ∧ g' = guess c (with_aggDict d g1).
Proof.
  intros H. unfold turn in H.
  bindM H as g1 w1 Hagg. bindL H as d Hd. bindL H as c Hc.
  exists g1, d, c. unfold guess. simpl in *.
  case_decide; retM H; done.
Qed.

Inductive played : game → Prop :=
| played_init fuel dim ships randomOrder batchSize printTime w g w' :
    BattleshipPlayer_init fuel dim ships randomOrder batchSize printTime w
      = Ret (g, w') →
    played g
| played_guess c g : played g → played (guess c g)
| played_refresh g g' :
    played g → updateOrientations set_order g = Ret g' → played g'
| played_view fuel g w g' w' :
    played g → buildAggBoard set_order fuel g w = Ret (g', w') → played g'
| played_turn fuel g w g' w' :
    played g → turn set_order fuel g w = Ret (g', w') → played g'.

Lemma played_wf g : played g → wf g.
Proof.
  induction 1 as [fuel d s ro bs pt w g w' H|c g _ Hwf|g g' _ Hwf H
                 |fuel g w g' w' _ Hwf H|fuel g w g' w' _ Hwf H].
  - by apply BayesianInit.BattleshipPlayer_init_wf in H as (? & _).
  - by apply guess_wf.
  - destruct (updateOrientations_wf set_order set_order_spec g Hwf)
      as (g1 & Hg1 & Hwf1 & _).
    congruence.
  - by apply buildAggBoard_wf in H as (? & _).
  - apply turn_guess in H as (g1 & d & c & Hagg & _ & _ & ->).
    apply buildAggBoard_wf in Hagg as (? & _); [|done].
    by apply guess_wf, with_aggDict_wf.
Qed.

Lemma playing_played g : playing g → played g.
Proof.
  induction 1 as [fuel d s ro bs pt w g w' H|fuel g w g' w' _ IH H].
  - by eapply played_init.
  - by eapply played_turn.
Qed.

End Play.
End BayesianPlay.

(** ** Facts about the Statistics variant *)
Module StatisticsFacts.
Import Py PyFacts Statistics.

(** A ship is marked sunk when its flag is 1. *)
Definition sunk (g : game) (n : string) : Prop := dget n (sunkDict g) = Some 1.

#[global] Instance sunk_dec g n : Decision (sunk g n).
Proof. unfold sunk. apply _. Defined.

(** What [updateOrientations] leaves alone *)
Record frame (g g' : game) : Prop := Frame {
  fr_dim : dim g' = dim g;
  fr_ships : ships g' = ships g;
  fr_names : names g' = names g;
  fr_lengths : shipLengths g' = shipLengths g;
  fr_catalogue : possibleShipsDict g' = possibleShipsDict g;
  fr_catalogue_num : possibleShipsNumDict g' = possibleShipsNumDict g;
  fr_order : order g' = order g;
  fr_boats : boats g' = boats g;
  fr_board : board g' = board g;
  fr_lag : lag g' = lag g;
  fr_hits : hits g' = hits g;
  fr_misses : misses g' = misses g;
  fr_next : nextInx g' = nextInx g
}.

Lemma st_frame_refl g : frame g g.
Proof. by constructor. Qed.

Lemma st_frame_trans g1 g2 g3 : frame g1 g2 → frame g2 g3 → frame g1 g3.
Proof. intros [] []. constructor; congruence. Qed.

(** The invariant of a game in progress *)
Record wf (g : game) : Prop := Wf {
  wf_names : NoDup (names g);
  wf_sunk_keys : keys (sunkDict g) = names g;
  wf_cond_keys : keys (possibleShipsDictCond g) ≡ₚ names g;
  wf_num_keys : keys (possibleShipsNumDictCond g) ≡ₚ names g;
  wf_len_keys : keys (shipLengths g) = names g;
  wf_flags : ∀ n v, dget n (sunkDict g) = Some v → v = 0 ∨ v = 1;
  wf_boats_nodup : NoDup (boats g).*1;
  wf_boats_names : ∀ n loc, (n, loc) ∈ boats g → n ∈ names g;
  wf_boats_disj : ∀ n1 l1 n2 l2,
    (n1, l1) ∈ boats g → (n2, l2) ∈ boats g → n1 ≠ n2 → l1 ## l2;
  wf_board : ∀ c, c ∈ board g ↔ ∃ p, p ∈ boats g ∧ c ∈ p.2;
  wf_hits : hits g ⊆ board g;
  wf_misses : misses g ## board g;
  wf_sunk_boat : ∀ n, sunk g n →
    ∃ loc, (n, loc) ∈ boats g ∧ loc ⊆ hits g ∧ loc ⊆ hitsSunk g
           ∧ dget n (possibleShipsDictCond g) = Some [loc];
  wf_hitsSunk : ∀ c, c ∈ hitsSunk g →
    ∃ n loc, (n, loc) ∈ boats g ∧ sunk g n ∧ c ∈ loc;
  wf_truth : ∀ n loc, (n, loc) ∈ boats g → ¬ sunk g n →
    ∃ l, dget n (possibleShipsDictCond g) = Some l ∧ loc ∈ l;
  wf_size : ∀ n l s L, ¬ sunk g n →
    dget n (possibleShipsDictCond g) = Some l → s ∈ l →
    dget n (shipLengths g) = Some L → size s = Z.to_nat L;
  wf_grid : ∀ n l s c,
    dget n (possibleShipsDictCond g) = Some l → s ∈ l → c ∈ s →
    in_grid (dim g) c;
  wf_board_grid : ∀ c, c ∈ board g → in_grid (dim g) c
}.

(** The candidates of the ships that are not marked sunk avoid the misses
    and the sunk cells. *)
Definition pruned (g : game) : Prop :=
  ∀ n l s, ¬ sunk g n → dget n (possibleShipsDictCond g) = Some l → s ∈ l →
           misses g ## s ∧ s ## hitsSunk g.

Lemma st_boat_unique g n l1 l2 :
  wf g → (n, l1) ∈ boats g → (n, l2) ∈ boats g → l1 = l2.
Proof.
  intros Hwf H1 H2.
  assert (dget n (boats g) = Some l1) as E1 by (apply elem_dget; [apply Hwf|done]).
  assert (dget n (boats g) = Some l2) as E2 by (apply elem_dget; [apply Hwf|done]).
  congruence.
Qed.

Lemma st_hits_misses_disjoint g : wf g → hits g ## misses g.
Proof. intros Hwf. pose proof (wf_hits g Hwf). pose proof (wf_misses g Hwf). set_solver. Qed.

(** With the invariant, no layout left in any list touches a miss. *)
Lemma st_pruned_misses g n l s :
  wf g → pruned g → dget n (possibleShipsDictCond g) = Some l → s ∈ l →
  misses g ## s.
Proof.
  intros Hwf Hpr Hl Hs. destruct (decide (sunk g n)) as [Hn|Hn].
  - destruct (wf_sunk_boat g Hwf n Hn) as (loc & _ & Hh & _ & Hc).
    rewrite Hc in Hl. simplify_eq. apply list_elem_of_singleton in Hs as ->.
    pose proof (st_hits_misses_disjoint g Hwf). set_solver.
  - by destruct (Hpr n l s Hn Hl Hs).
Qed.

Lemma st_guess_wf c g : wf g → wf (guess c g).
Proof.
  intros Hwf. unfold guess. case_decide as Hb.
  - destruct Hwf. constructor; simpl; try done.
    + set_solver.
    + intros n Hn. destruct (wf_sunk_boat0 n Hn) as (loc & ? & ? & ? & ?).
      exists loc. set_solver.
  - destruct Hwf. constructor; simpl; try done. set_solver.
Qed.

(** The misses lie on the board. *)
Definition on_grid (g : game) : Prop := ∀ c, c ∈ misses g → in_grid (dim g) c.

Lemma st_guess_on_grid c g : on_grid g → in_grid (dim g) c → on_grid (guess c g).
Proof.
  intros Hg Hc. unfold on_grid, guess. case_decide; simpl; [done|].
  intros c' [?| ->%elem_of_singleton]%elem_of_union; auto.
Qed.

(** *** Sinking *)

(** The boats among [bs] that the hits cover *)
Definition covered (g : game) (bs : list (string * gset cell)) : list (string * gset cell) :=
  filter (λ p, p.2 ⊆ hits g) bs.

Lemma st_sink_boat_frame i g : frame g (sink_boat i g).
Proof. destruct i as [b loc]. unfold sink_boat. case_decide; by constructor. Qed.

Definition sink_upto (bs : list (string * gset cell)) (g : game) : game :=
  fold_left (λ g i, sink_boat i g) bs g.

Lemma sink_upto_frame bs g : frame g (sink_upto bs g).
Proof.
  unfold sink_upto. revert g.
  induction bs as [|i bs IH]; intros g; simpl; [apply st_frame_refl|].
  eapply st_frame_trans; [apply st_sink_boat_frame|apply IH].
Qed.

Lemma st_sink_eq g : sink g = sink_upto (boats g) g.
Proof. done. Qed.

Lemma st_sink_frame g : frame g (sink g).
Proof. apply sink_upto_frame. Qed.

Lemma st_sink_upto_snoc bs b loc g :
  sink_upto (bs ++ [(b, loc)]) g =
  if decide (loc ⊆ hits g)
  then with_possibleShipsNumDictCond
         (dset b 1 (possibleShipsNumDictCond (sink_upto bs g)))
         (with_possibleShipsDictCond
            (dset b [loc] (possibleShipsDictCond (sink_upto bs g)))
            (with_sunkDict (dset b 1 (sunkDict (sink_upto bs g)))
               (with_hitsSunk (hitsSunk (sink_upto bs g) ∪ loc) (sink_upto bs g))))
  else sink_upto bs g.
Proof.
  unfold sink_upto. rewrite fold_left_app. simpl.
  fold (sink_upto bs g). rewrite (fr_hits _ _ (sink_upto_frame bs g)).
  destruct (decide (loc ⊆ hits g)) as [H|H].
  - rewrite decide_True; [done|]. by apply len_union_eq_subseteq.
  - rewrite decide_False; [done|]. by rewrite len_union_eq_subseteq.
Qed.

Lemma st_covered_snoc g bs b loc :
  covered g (bs ++ [(b, loc)]) =
  if decide (loc ⊆ hits g) then covered g bs ++ [(b, loc)] else covered g bs.
Proof.
  unfold covered. rewrite filter_app, filter_cons, filter_nil. simpl.
  case_decide; [done|by rewrite app_nil_r].
Qed.

Lemma st_sink_sunkDict_in bs g n :
  n ∈ (covered g bs).*1 → dget n (sunkDict (sink_upto bs g)) = Some 1.
Proof.
  induction bs as [|[b loc] bs IH] using rev_ind.
  { intros H. by apply elem_of_nil in H. }
  rewrite st_sink_upto_snoc, st_covered_snoc. case_decide; [|done].
  rewrite fmap_app, elem_of_app. simpl. rewrite list_elem_of_singleton, dget_dset.
  intros [?| ->]; case_decide; auto; congruence.
Qed.

Lemma st_sink_sunkDict_notin bs g n :
  n ∉ (covered g bs).*1 → dget n (sunkDict (sink_upto bs g)) = dget n (sunkDict g).
Proof.
  induction bs as [|[b loc] bs IH] using rev_ind; [done|].
  rewrite st_sink_upto_snoc, st_covered_snoc. case_decide; [|done].
  rewrite fmap_app, elem_of_app. simpl. rewrite list_elem_of_singleton.
  intros Hn. rewrite dget_dset_ne by naive_solver. apply IH. naive_solver.
Qed.

Lemma st_sink_hitsSunk bs g c :
  c ∈ hitsSunk (sink_upto bs g) ↔ c ∈ hitsSunk g ∨ ∃ p, p ∈ covered g bs ∧ c ∈ p.2.
Proof.
  induction bs as [|[b loc] bs IH] using rev_ind.
  { unfold covered. simpl. setoid_rewrite elem_of_nil. naive_solver. }
  rewrite st_sink_upto_snoc, st_covered_snoc. case_decide; [|done]. simpl.
  rewrite elem_of_union, IH. setoid_rewrite elem_of_app.
  setoid_rewrite list_elem_of_singleton. naive_solver.
Qed.

Lemma st_sink_cond_notin bs g n :
  n ∉ (covered g bs).*1 →
  dget n (possibleShipsDictCond (sink_upto bs g)) = dget n (possibleShipsDictCond g).
Proof.
  induction bs as [|[b loc] bs IH] using rev_ind; [done|].
  rewrite st_sink_upto_snoc, st_covered_snoc. case_decide; [|done].
  rewrite fmap_app, elem_of_app. simpl. rewrite list_elem_of_singleton.
  intros Hn. rewrite dget_dset_ne by naive_solver. apply IH. naive_solver.
Qed.

Lemma st_sink_cond_in bs g n loc :
  NoDup bs.*1 → (n, loc) ∈ covered g bs →
  dget n (possibleShipsDictCond (sink_upto bs g)) = Some [loc].
Proof.
  induction bs as [|[b l] bs IH] using rev_ind.
  { intros _ H. by apply elem_of_nil in H. }
  rewrite fmap_app. simpl. intros (Hnd & Hdis & _)%NoDup_app.
  rewrite st_sink_upto_snoc, st_covered_snoc. case_decide; [|by apply IH].
  rewrite elem_of_app, list_elem_of_singleton. simpl. intros [Hin|[= -> ->]].
  - rewrite dget_dset_ne; [by apply IH|].
    intros ->. apply list_elem_of_filter in Hin as [_ Hin].
    eapply Hdis; [|by apply list_elem_of_singleton].
    apply list_elem_of_fmap. by exists (n, loc).
  - apply dget_dset_eq.
Qed.

Lemma st_sink_keys bs g :
  (∀ n, n ∈ bs.*1 → n ∈ keys (sunkDict g)) →
  (∀ n, n ∈ bs.*1 → n ∈ keys (possibleShipsDictCond g)) →
  (∀ n, n ∈ bs.*1 → n ∈ keys (possibleShipsNumDictCond g)) →
  keys (sunkDict (sink_upto bs g)) = keys (sunkDict g)
  ∧ keys (possibleShipsDictCond (sink_upto bs g)) = keys (possibleShipsDictCond g)
  ∧ keys (possibleShipsNumDictCond (sink_upto bs g)) = keys (possibleShipsNumDictCond g).
Proof.
  induction bs as [|[b l] bs IH] using rev_ind; [done|].
  intros H1 H2 H3.
  destruct IH as (E1 & E2 & E3).
  { intros n Hn. apply H1. rewrite fmap_app, elem_of_app. by left. }
  { intros n Hn. apply H2. rewrite fmap_app, elem_of_app. by left. }
  { intros n Hn. apply H3. rewrite fmap_app, elem_of_app. by left. }
  assert (b ∈ (bs ++ [(b, l)]).*1) as Hb.
  { rewrite fmap_app, elem_of_app. right. by apply list_elem_of_singleton. }
  rewrite st_sink_upto_snoc. case_decide; [|done]. simpl.
  rewrite !keys_dset_in; [done|rewrite ?E1, ?E2, ?E3; auto..].
Qed.

Lemma st_sink_sunk g n :
  sunk (sink g) n ↔ sunk g n ∨ n ∈ (covered g (boats g)).*1.
Proof.
  unfold sunk. rewrite st_sink_eq.
  destruct (decide (n ∈ (covered g (boats g)).*1)) as [Hn|Hn].
  - rewrite st_sink_sunkDict_in by done. naive_solver.
  - rewrite st_sink_sunkDict_notin by done. naive_solver.
Qed.

Lemma st_elem_of_covered g n loc :
  (n, loc) ∈ covered g (boats g) ↔ (n, loc) ∈ boats g ∧ loc ⊆ hits g.
Proof. unfold covered. rewrite list_elem_of_filter. naive_solver. Qed.

Lemma st_elem_of_covered_names g n :
  n ∈ (covered g (boats g)).*1 ↔ ∃ loc, (n, loc) ∈ boats g ∧ loc ⊆ hits g.
Proof.
  rewrite list_elem_of_fmap. split.
  - intros ([m loc] & -> & H). apply st_elem_of_covered in H. eauto.
  - intros (loc & H). exists (n, loc). split; [done|]. by apply st_elem_of_covered.
Qed.

Lemma st_sink_wf g : wf g → wf (sink g).
Proof.
  intros Hwf. pose proof (st_sink_frame g) as F.
  assert (∀ n, n ∈ (boats g).*1 → n ∈ names g) as Hbn.
  { intros n ([m loc] & -> & H)%list_elem_of_fmap. by eapply wf_boats_names. }
  destruct (st_sink_keys (boats g) g) as (K1 & K2 & K3).
  { intros n Hn. rewrite (wf_sunk_keys g Hwf). auto. }
  { intros n Hn. rewrite (wf_cond_keys g Hwf). auto. }
  { intros n Hn. rewrite (wf_num_keys g Hwf). auto. }
  rewrite <- st_sink_eq in K1, K2, K3.
  assert (∀ n, ¬ sunk (sink g) n →
            ¬ sunk g n ∧ dget n (possibleShipsDictCond (sink g))
                          = dget n (possibleShipsDictCond g)) as Hns.
  { intros n Hn. rewrite st_sink_sunk in Hn. split; [naive_solver|].
    apply st_sink_cond_notin. naive_solver. }
  pose proof Hwf as Hwf'.
  destruct Hwf, F. constructor; rewrite ?fr_names0, ?fr_boats0, ?fr_board0,
    ?fr_hits0, ?fr_misses0, ?fr_dim0, ?fr_lengths0, ?fr_ships0, ?K1, ?K2, ?K3;
    try done.
  - intros n v. rewrite st_sink_eq.
    destruct (decide (n ∈ (covered g (boats g)).*1)) as [Hn|Hn].
    + rewrite st_sink_sunkDict_in by done. intros [= <-]. by right.
    + rewrite st_sink_sunkDict_notin by done. apply wf_flags0.
  - intros n Hn.
    destruct (decide (n ∈ (covered g (boats g)).*1)) as [Hc|Hc].
    + apply st_elem_of_covered_names in Hc as (loc & ? & ?). exists loc.
      split; [done|]. split; [done|]. split.
      * intros c Hc. apply (st_sink_hitsSunk (boats g) g c). right. exists (n, loc).
        split; [by apply st_elem_of_covered|done].
      * rewrite st_sink_eq. apply st_sink_cond_in; [done|by apply st_elem_of_covered].
    + apply st_sink_sunk in Hn as [Hn|Hn]; [|done].
      destruct (wf_sunk_boat0 n Hn) as (loc & ? & ? & ? & ?). exists loc.
      split; [done|]. split; [done|]. split.
      * intros c Hc'. apply (st_sink_hitsSunk (boats g) g c). left. auto.
      * rewrite st_sink_eq, st_sink_cond_notin; done.
  - intros c [Hc|([n loc] & [? ?]%st_elem_of_covered & ?)]%(st_sink_hitsSunk (boats g) g c).
    + destruct (wf_hitsSunk0 c Hc) as (n & loc & ? & ? & ?). exists n, loc.
      split; [done|]. split; [|done]. apply st_sink_sunk. by left.
    + exists n, loc. split; [done|]. split; [|done]. apply st_sink_sunk. right.
      apply st_elem_of_covered_names. eauto.
  - intros n loc Hb Hn. destruct (Hns n Hn) as [Hn' ->]. by apply wf_truth0.
  - intros n l s L Hn. destruct (Hns n Hn) as [Hn' ->]. by apply wf_size0.
  - intros n l s c. rewrite st_sink_eq.
    destruct (decide (n ∈ (covered g (boats g)).*1)) as [Hn|Hn].
    + apply st_elem_of_covered_names in Hn as (loc & Hb & ?).
      rewrite (st_sink_cond_in (boats g) g n loc); [|done|by apply st_elem_of_covered].
      intros [= <-] ->%list_elem_of_singleton Hc.
      apply wf_board_grid0, wf_board0. by exists (n, loc).
    + rewrite st_sink_cond_notin by done. apply wf_grid0.
Qed.

(** *** Pruning *)

(** What the second loop leaves alone *)
Definition frame2 (g g' : game) : Prop :=
  frame g g' ∧ sunkDict g' = sunkDict g ∧ hitsSunk g' = hitsSunk g.

Lemma st_frame2_refl g : frame2 g g.
Proof. split; [apply st_frame_refl|done]. Qed.

Lemma st_frame2_trans g1 g2 g3 : frame2 g1 g2 → frame2 g2 g3 → frame2 g1 g3.
Proof.
  intros (? & ? & ?) (? & ? & ?). split; [by eapply st_frame_trans|split; congruence].
Qed.

(** The test of the second loop, for a ship of length [L] *)
Definition keep (g : game) (sunkNum L : Z) (config : gset cell) : bool :=
  bool_decide (len (misses g ∪ config) = len (misses g) + L)
  && bool_decide (len (config ∪ hitsSunk g) = L + sunkNum).

Lemma keep_frame2 g g' k L s : frame2 g g' → keep g' k L s = keep g k L s.
Proof. intros (F & _ & Hh). unfold keep. by rewrite (fr_misses _ _ F), Hh. Qed.

(** On a layout of [L] cells the test says: disjoint from the misses and
    from the sunk cells. *)
Lemma keep_true g L s :
  size s = Z.to_nat L →
  keep g (len (hitsSunk g)) L s = true ↔
  len s = L ∧ misses g ## s ∧ s ## hitsSunk g.
Proof.
  intros Hsz. unfold keep. rewrite andb_true_iff, !bool_decide_eq_true.
  assert (len s = L ∨ (L < 0 ∧ len s = 0)) as [HL|[HL H0]] by (unfold len; lia).
  - rewrite <- HL at 1 2. rewrite <- !len_union_eq_disjoint. split.
    + intros [H1 H2]. split; [done|]. split; lia.
    + intros (_ & ? & ?). split; lia.
  - split.
    + intros [H1 _]. pose proof (len_union_le (misses g) s).
      assert (len (misses g) ≤ len (misses g ∪ s)).
      { apply inj_le, subseteq_size. set_solver. }
      lia.
    + intros (? & _). lia.
Qed.

Lemma st_prune_ship_spec k n g g' :
  prune_ship k n g = Ret g' →
  frame2 g g'
  ∧ (∀ m, m ≠ n → dget m (possibleShipsDictCond g') = dget m (possibleShipsDictCond g))
  ∧ (sunk g n → g' = g)
  ∧ (¬ sunk g n → ∃ l l', dget n (possibleShipsDictCond g) = Some l
                          ∧ dget n (possibleShipsDictCond g') = Some l'
                          ∧ sublist l' l
                          ∧ (∀ L, dget n (shipLengths g) = Some L →
                                ∀ s, s ∈ l' ↔ s ∈ l ∧ keep g k L s = true))
  ∧ keys (possibleShipsDictCond g') = keys (possibleShipsDictCond g)
  ∧ (n ∈ keys (possibleShipsNumDictCond g) →
     keys (possibleShipsNumDictCond g') = keys (possibleShipsNumDictCond g)).
Proof.
  unfold prune_ship. intros H. bindR H as s Hs. apply item_Ret in Hs.
  case_decide as Hne.
  - bindR H as l Hl. bindR H as l' Hsel. simplify_eq. apply item_Ret in Hl.
    split; [split; [by constructor|done]|].
    split; [intros m Hm; simpl; by rewrite dget_dset_ne|].
    split; [intros Hsunk; unfold sunk in Hsunk; congruence|].
    split.
    { intros _. exists l, l'. simpl. rewrite dget_dset_eq.
      split; [done|]. split; [done|].
      pose proof (select_sublist _ _ _ Hsel) as [Hsub Hall].
      split; [done|]. intros L HL c. split.
      - intros Hc. split; [by eapply elem_of_sublist|].
        apply Hall in Hc. unfold item in Hc. rewrite HL in Hc. simpl in Hc.
        by simplify_eq.
      - intros [Hc Hk]. eapply select_keeps; [done|done|].
        unfold item. rewrite HL. simpl. f_equal. done. }
    split; simpl.
    + apply keys_dset_in, dget_is_Some. eauto.
    + apply keys_dset_in.
  - simplify_eq. split; [apply st_frame2_refl|].
    split; [done|]. split; [done|]. split; [|done].
    intros Hn. destruct Hn. unfold sunk. by rewrite Hs.
Qed.

Lemma st_prune_upto_spec k ns g g' :
  NoDup ns →
  (∀ n, n ∈ ns → n ∈ keys (possibleShipsNumDictCond g)) →
  for_each ns (prune_ship k) g = Ret g' →
  frame2 g g'
  ∧ (∀ m, m ∉ ns ∨ sunk g m →
          dget m (possibleShipsDictCond g') = dget m (possibleShipsDictCond g))
  ∧ (∀ n, n ∈ ns → ¬ sunk g n →
          ∃ l l', dget n (possibleShipsDictCond g) = Some l
                  ∧ dget n (possibleShipsDictCond g') = Some l'
                  ∧ sublist l' l
                  ∧ (∀ L, dget n (shipLengths g) = Some L →
                        ∀ s, s ∈ l' ↔ s ∈ l ∧ keep g k L s = true))
  ∧ keys (possibleShipsDictCond g') = keys (possibleShipsDictCond g)
  ∧ keys (possibleShipsNumDictCond g') = keys (possibleShipsNumDictCond g).
Proof.
  revert g'. induction ns as [|n ns IH] using rev_ind; intros g' Hnd Hk H.
  { injection H as <-. split; [apply st_frame2_refl|]. split; [done|].
    split; [|done]. intros n Hn. by apply elem_of_nil in Hn. }
  apply for_each_snoc_Ret in H as (g1 & H1 & H).
  apply NoDup_app in Hnd as (Hnd & Hdis & _).
  destruct (IH g1) as (F1 & U1 & P1 & K1 & K1'); [done| |done|].
  { intros m Hm. apply Hk, elem_of_app. by left. }
  assert (n ∉ ns) as Hn.
  { intros Hn. eapply Hdis; [done|by apply list_elem_of_singleton]. }
  apply st_prune_ship_spec in H as (F2 & U2 & S2 & P2 & K2 & K2').
  assert (∀ m, sunk g1 m ↔ sunk g m) as Hsunk.
  { intros m. unfold sunk. destruct F1 as (_ & -> & _). done. }
  split; [by eapply st_frame2_trans|].
  split; [|split; [|split]].
  - intros m [Hm|Hm].
    + rewrite elem_of_app, list_elem_of_singleton in Hm.
      rewrite U2 by naive_solver. apply U1. left. naive_solver.
    + destruct (decide (m = n)) as [->|Hne].
      * rewrite S2 by by apply Hsunk. apply U1. by right.
      * rewrite U2 by done. apply U1. by right.
  - intros m [Hm| ->%list_elem_of_singleton]%elem_of_app Hns.
    + destruct (P1 m Hm Hns) as (l & l' & E1 & E2 & E3).
      exists l, l'. split; [done|]. split; [|done].
      rewrite U2; [done|]. by intros ->.
    + destruct P2 as (l & l' & E1 & E2 & E3 & E4); [by rewrite Hsunk|].
      exists l, l'. rewrite <- (U1 n) by by left. split; [done|].
      split; [done|]. split; [done|].
      intros L HL s. pose proof F1 as (F1' & _ & _).
      rewrite <- (fr_lengths _ _ F1') in HL. rewrite (E4 L HL).
      by rewrite (keep_frame2 g g1).
  - congruence.
  - rewrite K2', K1'; [done|]. rewrite K1'. apply Hk, elem_of_app. right.
    by apply list_elem_of_singleton.
Qed.

Section Facts.
Variable name_order : list string → list string.
Hypothesis name_order_perm : ∀ l, name_order l ≡ₚ l.

Lemma st_prune_ship_total k n g :
  n ∈ keys (sunkDict g) → n ∈ keys (possibleShipsDictCond g) →
  n ∈ keys (shipLengths g) →
  ∃ g', prune_ship k n g = Ret g'.
Proof.
  intros [s Hs]%dget_is_Some [l Hl]%dget_is_Some [L HL]%dget_is_Some.
  unfold prune_ship, item. rewrite Hs. simpl. case_decide as Hne; [|eauto].
  rewrite Hl. simpl.
  match goal with
  | |- context [select ?p l] => destruct (select_total p l) as [r ->]; [|simpl; eauto]
  end.
  intros e He. rewrite HL. simpl. eauto.
Qed.

Lemma st_prune_total k g :
  wf g → ∃ g', for_each (name_order (names g)) (prune_ship k) g = Ret g'.
Proof.
  intros Hwf.
  destruct (for_each_total
    (λ g', frame2 g g'
           ∧ keys (possibleShipsDictCond g') = keys (possibleShipsDictCond g))
    (name_order (names g)) (prune_ship k) g) as (g' & H & _); [| |eauto].
  { split; [apply st_frame2_refl|done]. }
  intros n g1 Hn (F & K). rewrite name_order_perm in Hn.
  destruct (st_prune_ship_total k n g1) as [g2 H2].
  { destruct F as (_ & -> & _). by rewrite (wf_sunk_keys g Hwf). }
  { rewrite K. by rewrite (wf_cond_keys g Hwf). }
  { destruct F as (F & _). rewrite (fr_lengths _ _ F). by rewrite (wf_len_keys g Hwf). }
  exists g2. split; [done|].
  apply st_prune_ship_spec in H2 as (F2 & _ & _ & _ & K2 & _).
  split; [by eapply st_frame2_trans|congruence].
Qed.

Lemma st_prune_wf g g' :
  wf g →
  (∀ n loc, (n, loc) ∈ boats g → ¬ sunk g n → ¬ loc ⊆ hits g) →
  for_each (name_order (names g)) (prune_ship (len (hitsSunk g))) g = Ret g' →
  wf g' ∧ pruned g' ∧ frame2 g g'.
Proof.
  intros Hwf Hlive H.
  apply st_prune_upto_spec in H as (F & U & P & K1 & K2).
  2:{ rewrite name_order_perm. apply Hwf. }
  2:{ intros n Hn. rewrite name_order_perm in Hn. by rewrite (wf_num_keys g Hwf). }
  assert (∀ m, sunk g' m ↔ sunk g m) as Hsunk.
  { intros m. unfold sunk. destruct F as (_ & -> & _). done. }
  assert (∀ n l' e, dget n (possibleShipsDictCond g') = Some l' → e ∈ l' →
            ∃ l, dget n (possibleShipsDictCond g) = Some l ∧ e ∈ l) as Hsub.
  { intros n l' e Hl' He.
    destruct (decide (n ∈ names g ∧ ¬ sunk g n)) as [[Hn Hs]|Hn].
    - destruct (P n) as (l0 & l1 & E0 & E1 & Hsel & _);
        [by rewrite name_order_perm|done|].
      assert (l1 = l') as -> by congruence.
      exists l0. split; [done|]. by eapply elem_of_sublist.
    - rewrite U in Hl'; [eauto|]. rewrite name_order_perm.
      destruct (decide (n ∈ names g)); [right|by left].
      destruct (decide (sunk g n)); [done|naive_solver]. }
  assert (∀ n, n ∈ names g → is_Some (dget n (shipLengths g))) as Hlen.
  { intros n Hn. apply dget_is_Some. by rewrite (wf_len_keys g Hwf). }
  split; [|split; [|done]].
  - destruct F as (F & Es & Eh). pose proof Hwf as Hwf'. destruct Hwf, F.
    constructor; rewrite ?fr_names0, ?fr_boats0, ?fr_board0,
      ?fr_hits0, ?fr_misses0, ?fr_dim0, ?fr_lengths0, ?fr_ships0, ?Es, ?Eh,
      ?K1, ?K2; try done.
    + intros n Hn. rewrite Hsunk in Hn.
      destruct (wf_sunk_boat0 n Hn) as (loc & ? & ? & ? & ?). exists loc.
      rewrite U by by right. done.
    + intros c Hc. destruct (wf_hitsSunk0 c Hc) as (n & loc & ? & ? & ?).
      exists n, loc. by rewrite Hsunk.
    + intros n loc Hb Hn. rewrite Hsunk in Hn.
      destruct (wf_truth0 n loc Hb Hn) as (l & Hl & Hin).
      destruct (P n) as (l0 & l1 & E0 & E1 & _ & Hsel);
        [rewrite name_order_perm; eauto|done|].
      assert (l0 = l) as -> by congruence.
      exists l1. split; [done|].
      destruct (Hlen n) as [L HL]; [eauto|].
      assert (misses g ## loc) as Hd1.
      { intros c Hc1 Hc2. apply (wf_misses0 c Hc1). apply wf_board0.
        by exists (n, loc). }
      assert (loc ## hitsSunk g) as Hd2.
      { intros c Hc1 Hc2.
        destruct (wf_hitsSunk0 c Hc2) as (n' & loc' & Hb' & Hs' & Hc').
        assert (loc ## loc') as Hd.
        { apply (wf_boats_disj0 n loc n' loc'); [done|done|by intros ->]. }
        set_solver. }
      pose proof (wf_size0 n l loc L Hn Hl Hin HL) as Hsz.
      apply (Hsel L HL). split; [done|]. apply keep_true; [done|].
      split; [|done].
      assert (loc ≠ ∅) as Hne.
      { intros ->. apply (Hlive n ∅ Hb Hn). set_solver. }
      assert (size loc ≠ 0%nat) as Hsz0.
      { intros E%size_empty_iff. apply Hne. by apply leibniz_equiv. }
      unfold len. lia.
    + intros n l s L Hn Hl Hs HL. rewrite Hsunk in Hn.
      destruct (Hsub n l s Hl Hs) as (l0 & Hl0 & He0). eauto.
    + intros n l s c Hl He Hc.
      destruct (Hsub n l _ Hl He) as (l0 & Hl0 & He0). eauto.
  - intros n l s Hn Hl Hs. rewrite Hsunk in Hn.
    destruct F as (F & Es & Eh). rewrite (fr_misses _ _ F), Eh.
    assert (n ∈ names g) as Hin.
    { rewrite <- (wf_cond_keys g Hwf), <- K1. apply dget_is_Some. eauto. }
    destruct (P n) as (l0 & l1 & E0 & E1 & Hsubl & Hsel);
      [by rewrite name_order_perm|done|].
    assert (l1 = l) as -> by congruence.
    destruct (Hlen n Hin) as [L HL].
    apply (Hsel L HL) in Hs as [Hs Hk].
    apply keep_true in Hk as (_ & ? & ?); [done|].
    by eapply (wf_size g Hwf n l0 s L).
Qed.

(** *** [updateOrientations] *)

(** On a game in progress [updateOrientations] returns; it keeps the
    invariant, leaves the evidence alone and leaves the candidates pruned. *)
Lemma st_updateOrientations_wf g :
  wf g →
  ∃ g', updateOrientations name_order g = Ret g'
        ∧ wf g' ∧ pruned g' ∧ frame g g'
        ∧ (∀ n, sunk g' n ↔ sunk g n ∨ n ∈ (covered g (boats g)).*1).
Proof.
  intros Hwf. unfold updateOrientations.
  pose proof (st_sink_wf g Hwf) as Hwf1.
  destruct (st_prune_total (len (hitsSunk (sink g))) _ Hwf1) as [g2 H2].
  exists g2. split; [done|].
  apply st_prune_wf in H2 as (Hwf2 & Hpr2 & F2 & Es & Eh); [|done|].
  - split; [done|]. split; [done|]. split.
    + eapply st_frame_trans; [apply st_sink_frame|done].
    + intros n. rewrite <- st_sink_sunk. unfold sunk. by rewrite Es.
  - intros n loc Hb Hn Hsub. apply Hn, st_sink_sunk. right.
    apply st_elem_of_covered_names. exists loc.
    rewrite (fr_boats _ _ (st_sink_frame g)) in Hb.
    rewrite (fr_hits _ _ (st_sink_frame g)) in Hsub. done.
Qed.

End Facts.
End StatisticsFacts.

(** ** The Statistics constructor builds a game that satisfies the invariant *)
Module StatisticsInit.
Import Py PyFacts Statistics StatisticsFacts.

(** The catalogue lies on the board, and a layout of a ship of length [L]
    has [L] cells. *)
Lemma orientations_spec dim L s :
  s ∈ orientations dim L → size s = Z.to_nat L ∧ ∀ c, c ∈ s → in_grid dim c.
Proof.
  unfold orientations. intros Hs.
  apply list_elem_of_bind in Hs as (i & Hs & Hi%elem_of_range).
  apply list_elem_of_bind in Hs as (j & Hs & Hj%elem_of_range).
  apply elem_of_cons in Hs as [->|Hs%list_elem_of_singleton].
  - split; [apply size_run1|]. intros c (t & Ht & ->)%elem_of_run1.
    unfold in_grid. simpl. lia.
  - subst s. split; [apply size_run2|]. intros c (t & Ht & ->)%elem_of_run2.
    unfold in_grid. simpl. lia.
Qed.

(** What [generateComponentLayouts] builds *)
Definition catalogue_ok (g : game) : Prop :=
  keys (possibleShipsDict g) ≡ₚ names g
  ∧ keys (possibleShipsNumDict g) ≡ₚ names g
  ∧ ∀ n l, dget n (possibleShipsDict g) = Some l →
      ∃ L, dget n (shipLengths g) = Some L
           ∧ l = orientations (dim g) L
           ∧ dget n (possibleShipsNumDict g) = Some (llen l).

Section Init.
Variable name_order : list string → list string.
Hypothesis name_order_perm : ∀ l, name_order l ≡ₚ l.

Lemma st_generateComponentLayouts_spec g :
  NoDup (names g) → keys (shipLengths g) = names g →
  ∃ g', generateComponentLayouts name_order g = Ret g'
        ∧ catalogue_ok g'
        ∧ dim g' = dim g ∧ ships g' = ships g ∧ names g' = names g
        ∧ sunkDict g' = sunkDict g ∧ shipLengths g' = shipLengths g.
Proof.
  intros Hnd Hk. unfold generateComponentLayouts.
  set (g0 := with_possibleShipsNumDict [] (with_possibleShipsDict [] g)).
  assert (∀ ns g1,
    NoDup (keys (possibleShipsDict g1) ++ ns) →
    (∀ n, n ∈ ns → n ∈ keys (shipLengths g1)) →
    keys (possibleShipsNumDict g1) = keys (possibleShipsDict g1) →
    (∀ n l, dget n (possibleShipsDict g1) = Some l →
      ∃ L, dget n (shipLengths g1) = Some L
           ∧ l = orientations (dim g1) L
           ∧ dget n (possibleShipsNumDict g1) = Some (llen l)) →
    ∃ g', for_each ns
            (λ name g,
               L ← item (shipLengths g) name;
               let o := orientations (dim g) L in
               Ret (with_possibleShipsNumDict
                      (dset name (llen o) (possibleShipsNumDict g))
                      (with_possibleShipsDict
                         (dset name o (possibleShipsDict g)) g)))
            g1 = Ret g'
      ∧ keys (possibleShipsDict g') = keys (possibleShipsDict g1) ++ ns
      ∧ keys (possibleShipsNumDict g') = keys (possibleShipsDict g')
      ∧ (∀ n l, dget n (possibleShipsDict g') = Some l →
          ∃ L, dget n (shipLengths g') = Some L
               ∧ l = orientations (dim g') L
               ∧ dget n (possibleShipsNumDict g') = Some (llen l))
      ∧ dim g' = dim g1 ∧ ships g' = ships g1 ∧ names g' = names g1
      ∧ sunkDict g' = sunkDict g1 ∧ shipLengths g' = shipLengths g1) as Hloop.
  { induction ns as [|n ns IH]; intros g1 Hnd1 Hlen Hkeys Hcat; simpl.
    - exists g1. rewrite app_nil_r. done.
    - destruct (proj2 (dget_is_Some (shipLengths g1) n)) as [L HL].
      { apply Hlen. left. }
      unfold item. rewrite HL. simpl.
      assert (n ∉ keys (possibleShipsDict g1)) as Hfresh.
      { apply NoDup_app in Hnd1 as (_ & Hd & _). intros Hn.
        apply (Hd n Hn). left. }
      edestruct IH as (g' & -> & K1 & K2 & Hc & ? & ? & ? & ? & ?); simpl.
      + rewrite keys_dset_notin by done. by rewrite <- app_assoc.
      + intros m Hm. apply Hlen. by right.
      + rewrite !keys_dset_notin; [by rewrite Hkeys|done|by rewrite Hkeys].
      + intros m l. rewrite !dget_dset. case_decide as Hm.
        * subst m. intros [= <-]. exists L. done.
        * apply Hcat.
      + exists g'. split; [done|]. simpl in *.
        rewrite keys_dset_notin in K1 by done. rewrite <- app_assoc in K1.
        done. }
  destruct (Hloop (name_order (names g)) g0) as (g' & H & K1 & K2 & Hc & ? & ? & ? & ? & ?).
  - simpl. by rewrite name_order_perm.
  - intros n Hn. simpl. rewrite name_order_perm in Hn. by rewrite Hk.
  - done.
  - intros n l. simpl. done.
  - exists g'. split; [done|]. simpl in *. split; [|done].
    split; [by rewrite K1, H2, name_order_perm|].
    split; [by rewrite K2, K1, H2, name_order_perm|]. done.
Qed.

Lemma st_Battleship_init_spec dim0 ships0 :
  ∃ g, Battleship_init name_order dim0 ships0 = Ret g
       ∧ dim g = dim0 ∧ ships g = ships0
       ∧ names g = take (length ships0) ascii_lowercase
       ∧ keys (sunkDict g) = names g
       ∧ (∀ n v, dget n (sunkDict g) = Some v → v = 0)
       ∧ keys (shipLengths g) = names g
       ∧ catalogue_ok g
       ∧ order g ≡ₚ names g.
Proof.
  unfold Battleship_init.
  set (nm := take (length ships0) ascii_lowercase).
  assert (NoDup nm) as Hnd by apply NoDup_take_names.
  assert (length nm ≤ length ships0)%nat as Hlen.
  { unfold nm. rewrite length_take. lia. }
  edestruct st_generateComponentLayouts_spec as (g & -> & Hc & E1 & E2 & E3 & E4 & E5).
  { simpl. exact Hnd. }
  { simpl. by apply keys_zip_names. }
  eexists. split; [done|].
  simpl in *. rewrite E4, E5, E3.
  split; [done|]. split; [done|]. split; [done|].
  split; [apply keys_zip_names; [done|by rewrite length_fmap]|].
  split.
  { intros n v Hv. apply dget_Some_elem, elem_of_of_items in Hv.
    apply elem_of_zip_r in Hv. by apply list_elem_of_fmap in Hv as (? & -> & _). }
  split; [by apply keys_zip_names|].
  split; [unfold catalogue_ok in *; simpl; by rewrite E3, E5 in Hc|].
  rewrite sorted_by_perm. by rewrite snd_zip.
Qed.

End Init.

(** *** [randomBoard] *)

Lemma st_place_ship_spec fuel g name fs w sc w' :
  place_ship fuel g name fs w = Ret (sc, w') →
  sc ## fs ∧ ∃ l, dget name (possibleShipsDict g) = Some l ∧ sc ∈ l.
Proof.
  revert w. induction fuel as [|fuel IH]; intros w H; simpl in H; [done|].
  bindL H as l Hl. bindL H as n Hn. bindM H as i w1 Hi. bindL H as s Hs.
  case_decide as Hd.
  - retM H. apply len_union_eq_disjoint in Hd. split; [done|].
    apply item_Ret in Hl. exists l. split; [done|]. by eapply index_elem.
  - by eapply IH.
Qed.

Lemma st_place_all_spec fuel g order fs bs w fs' bs' w' :
  for_eachM order
    (λ name (acc : gset cell * list (string * gset cell)),
       ship_coords ← place_ship fuel g name acc.1;
       mret (acc.1 ∪ ship_coords, acc.2 ++ [(name, ship_coords)]))
    (fs, bs) w = Ret ((fs', bs'), w') →
  ∃ new, bs' = bs ++ new ∧ new.*1 = order
         ∧ (∀ c, c ∈ fs' ↔ c ∈ fs ∨ ∃ p, p ∈ new ∧ c ∈ p.2)
         ∧ (∀ n loc, (n, loc) ∈ new →
              loc ## fs ∧ ∃ l, dget n (possibleShipsDict g) = Some l ∧ loc ∈ l)
         ∧ (∀ n1 l1 n2 l2, (n1, l1) ∈ new → (n2, l2) ∈ new → n1 ≠ n2 → l1 ## l2).
Proof.
  revert fs bs w. induction order as [|name order IH]; intros fs bs w H; simpl in H.
  - retM H. exists []. rewrite app_nil_r.
    split; [done|]. split; [done|]. setoid_rewrite elem_of_nil. naive_solver.
  - bindM H as acc w1 Hbody. bindM Hbody as sc w2 Hp. retM Hbody. simpl in *.
    apply st_place_ship_spec in Hp as (Hdis & l & Hl & Hin).
    apply IH in H as (new & -> & Hn & Hfs & Hcat & Hpair).
    exists ((name, sc) :: new). rewrite <- app_assoc. split; [done|].
    split; [rewrite fmap_cons; simpl; by f_equal|]. split; [|split].
    + intros c. rewrite Hfs, elem_of_union. setoid_rewrite elem_of_cons.
      split; [|naive_solver].
      intros [[?|?]|(p & ? & ?)]; [by left| |naive_solver].
      right. exists (name, sc). naive_solver.
    + intros n loc [[= -> ->]|Hp]%elem_of_cons; [eauto|].
      destruct (Hcat n loc Hp) as (Hd & ?). split; [set_solver|done].
    + intros n1 l1 n2 l2 [[= -> ->]|H1]%elem_of_cons [[= -> ->]|H2]%elem_of_cons Hne.
      * done.
      * destruct (Hcat n2 l2 H2) as (Hd & _). set_solver.
      * destruct (Hcat n1 l1 H1) as (Hd & _). set_solver.
      * by eapply Hpair.
Qed.

Lemma st_randomBoard_spec fuel g w b g' w' :
  randomBoard fuel g w = Ret ((b, g'), w') →
  g' = with_boats (boats g') g
  ∧ (boats g').*1 = order g
  ∧ (∀ c, c ∈ b ↔ ∃ p, p ∈ boats g' ∧ c ∈ p.2)
  ∧ (∀ n loc, (n, loc) ∈ boats g' →
       ∃ l, dget n (possibleShipsDict g) = Some l ∧ loc ∈ l)
  ∧ (∀ n1 l1 n2 l2, (n1, l1) ∈ boats g' → (n2, l2) ∈ boats g' → n1 ≠ n2 → l1 ## l2).
Proof.
  intros H. unfold randomBoard in H.
  bindM H as r w1 Hr. retM H. destruct r as [fs bs].
  apply st_place_all_spec in Hr as (new & -> & Hn & Hfs & Hcat & Hpair).
  simpl in *. split; [done|]. split; [done|]. split; [|split; [|done]].
  - intros c. rewrite Hfs. set_solver.
  - intros n loc Hp. by destruct (Hcat n loc Hp) as (_ & ?).
Qed.

Section Env.
Variable name_order : list string → list string.
Hypothesis name_order_perm : ∀ l, name_order l ≡ₚ l.

(** A game fresh from the constructor *)
Definition fresh (g : game) : Prop :=
  hits g = ∅ ∧ misses g = ∅ ∧ hitsSunk g = ∅.

Lemma BattleshipEnv_init_wf fuel dim0 ships0 lag0 w g w' :
  BattleshipEnv_init name_order fuel dim0 ships0 lag0 w = Ret (g, w') →
  wf g ∧ fresh g ∧ dim g = dim0 ∧ ships g = ships0
  ∧ names g = take (length ships0) ascii_lowercase
  ∧ (∀ n, ¬ sunk g n).
Proof.
  intros H. unfold BattleshipEnv_init in H.
  bindL H as g0 Hg0. bindM H as r w1 Hr. retM H.
  destruct (st_Battleship_init_spec name_order name_order_perm dim0 ships0)
    as (g0' & Hg0' & Ed & Es & En & Ks & Hz & Kl & (Kc & Kn & Hcat) & Hord).
  rewrite Hg0' in Hg0. simplify_eq. destruct r as [b g1].
  apply st_randomBoard_spec in Hr as (Eg & Hperm & Hb & Hin & Hpair).
  rewrite Eg in *. simpl in *. clear Eg.
  assert (NoDup (names g0)) as Hnd by (rewrite En; apply NoDup_take_names).
  match goal with |- wf ?g' ∧ _ => assert (∀ n, ¬ sunk g' n) as Hns end.
  { intros n Hn. unfold sunk in Hn. simpl in Hn. apply Hz in Hn. done. }
  assert (∀ n l s, dget n (possibleShipsDict g0) = Some l → s ∈ l →
            ∃ L, dget n (shipLengths g0) = Some L ∧ size s = Z.to_nat L
                 ∧ ∀ c, c ∈ s → in_grid (dim g0) c) as Hcat'.
  { intros n l s Hl Hs. destruct (Hcat n l Hl) as (L & HL & -> & _).
    exists L. split; [done|]. by apply orientations_spec. }
  split; [|done].
  constructor; simpl; try done.
  - intros n v Hv. left. by eapply Hz.
  - rewrite Hperm, Hord. done.
  - intros n loc Hp. rewrite <- Hord, <- Hperm. apply list_elem_of_fmap.
    by exists (n, loc).
  - intros n Hn. by apply Hns in Hn.
  - intros n loc Hp _. eauto.
  - intros n l s L _ Hl Hs HL. destruct (Hcat' n l s Hl Hs) as (L' & HL' & ? & _).
    congruence.
  - intros n l s c Hl Hs Hc. destruct (Hcat' n l s Hl Hs) as (L' & _ & _ & Hg). auto.
  - intros c Hc. apply Hb in Hc as ([n loc] & Hp & Hc). simpl in Hc.
    destruct (Hin n loc Hp) as (l & Hl & Hloc).
    destruct (Hcat' n l loc Hl Hloc) as (L' & _ & _ & Hg). auto.
Qed.

End Env.
End StatisticsInit.

(** ** The Statistics sampler *)
Module StatisticsSampler.
Import Py PyFacts Statistics StatisticsFacts.

(** A cell of some layout left in some conditional list *)
Definition entry_cell (g : game) (c : cell) : Prop :=
  ∃ n l s, dget n (possibleShipsDictCond g) = Some l ∧ s ∈ l ∧ c ∈ s.

(** Ship [i] has no layout left that is disjoint from [final_set]. *)
Definition blocked (g : game) (i : string) (final_set : gset cell) : Prop :=
  ∀ l s, dget i (possibleShipsDictCond g) = Some l → s ∈ l → ¬ final_set ## s.

(** The numbers of layouts are the lengths of the conditional lists. *)
Definition num_ok (g : game) : Prop :=
  ∀ n l, dget n (possibleShipsDictCond g) = Some l →
         dget n (possibleShipsNumDictCond g) = Some (llen l).

(** *** One ship *)

Lemma draw_layout_spec fuel g i t fs w r w' :
  draw_layout fuel g i t fs w = Ret (r, w') →
  match r with
  | None => True
  | Some fs' => ∃ l s, dget i (possibleShipsDictCond g) = Some l ∧ s ∈ l
                       ∧ fs ## s ∧ fs' = fs ∪ s
  end.
Proof.
  revert w. induction fuel as [|fuel IH]; intros w H; simpl in H; [done|].
  bindL H as l Hl. bindL H as n Hn. bindM H as r0 w1 Hr. bindL H as s Hs.
  case_decide as Hd.
  - retM H. apply len_union_eq_disjoint in Hd. apply item_Ret in Hl.
    exists l, s. split; [done|]. split; [by eapply index_elem|done].
  - bindM H as now w2 Ht. bindM H as elapsed w3 He. bindM H as bound w4 Hb.
    destruct (Qltb bound elapsed).
    + by retM H.
    + by eapply IH.
Qed.

Lemma draw_layout_blocked fuel g i t fs w r w' :
  blocked g i fs →
  draw_layout fuel g i t fs w = Ret (r, w') → r = None.
Proof.
  intros Hb H. apply draw_layout_spec in H. destruct r as [fs'|]; [|done].
  destruct H as (l & s & Hl & Hs & Hd & _). by destruct (Hb l s).
Qed.

(** When the clock passes [t + lag/10], in the arithmetic of the machine,
    within the iterations allowed, a blocked ship makes the draw give up. *)
Lemma draw_layout_timeout fuel g i t fs w l m :
  dget i (possibleShipsDictCond g) = Some l →
  dget i (possibleShipsNumDictCond g) = Some (llen l) →
  l ≠ [] →
  blocked g i fs →
  (m < fuel)%nat →
  Qltb (fdiv w (lag g) 10) (fsub w (clock w (cpos w + m)%nat) t) = true →
  ∃ w', draw_layout fuel g i t fs w = Ret (None, w').
Proof.
  intros Hl Hn Hne Hb. revert m w.
  induction fuel as [|fuel IH]; intros m w Hm Hclock; [lia|].
  simpl. unfold item. rewrite Hl, Hn.
  rewrite (bindM_Ret_l _ _ w w l) by done.
  rewrite (bindM_Ret_l _ _ w w (llen l)) by done.
  assert (0 < llen l) as Hpos.
  { unfold llen. destruct l; [done|]. simpl. lia. }
  destruct (randint (llen l) w) as [[r w1]| |] eqn:Hr;
    [|unfold randint in Hr; by case_decide..].
  rewrite (bindM_Ret_l _ _ w w1 r) by done.
  pose proof (randint_Ret _ _ _ _ Hr) as Hrange.
  destruct (index_total l r Hrange) as (s & Hs & Hin).
  rewrite (bindM_Ret_l _ _ w1 w1 s) by (by rewrite Hs).
  case_decide as Hd.
  { apply len_union_eq_disjoint in Hd. by destruct (Hb l s). }
  assert (clock w1 = clock w ∧ cpos w1 = cpos w
          ∧ fsub w1 = fsub w ∧ fdiv w1 = fdiv w) as (Ec & Ep & Es & Ed).
  { unfold randint in Hr. case_decide; [|done]. by simplify_eq. }
  unfold mbind at 1, M_bind, time.
  unfold mbind at 1, M_bind, float_sub.
  unfold mbind at 1, M_bind, float_div. simpl.
  rewrite Ec, Ep, Es, Ed.
  destruct (Qltb (fdiv w (lag g) 10) (fsub w (clock w (cpos w)) t)) eqn:E.
  - eexists. reflexivity.
  - destruct m as [|m].
    { rewrite Nat.add_0_r in Hclock. congruence. }
    apply (IH m); [lia|]. simpl. by rewrite <- Nat.add_succ_r.
Qed.

(** *** One pass over the ships *)

Lemma place_all_cells fuel g order fs w fs' w' :
  place_all fuel g order fs w = Ret (Some fs', w') →
  fs ⊆ fs'
  ∧ ∀ c, c ∈ fs' → c ∈ fs ∨ ∃ i l s, i ∈ order
        ∧ dget i (possibleShipsDictCond g) = Some l ∧ s ∈ l ∧ c ∈ s.
Proof.
  revert fs w. induction order as [|i order IH]; intros fs w H; simpl in H.
  - retM H. split; [done|]. auto.
  - bindM H as t w1 Ht. bindM H as r w2 Hr. destruct r as [fs1|]; [|by retM H].
    apply draw_layout_spec in Hr as (l & s & Hl & Hs & Hd & ->).
    apply IH in H as [Hsub Hc]. split; [set_solver|].
    intros c Hin. destruct (Hc c Hin) as [[?|?]%elem_of_union|(j & l' & s' & ? & ?)].
    + by left.
    + right. exists i, l, s. split; [left|done].
    + right. exists j, l', s'. split; [by right|done].
Qed.

Lemma place_all_app fuel g o1 o2 fs w :
  place_all fuel g (o1 ++ o2) fs w =
  (r ← place_all fuel g o1 fs;
   match r with
   | None => mret None
   | Some fs1 => place_all fuel g o2 fs1
   end) w.
Proof.
  revert fs w. induction o1 as [|i o1 IH]; intros fs w; simpl; [done|].
  unfold mbind, M_bind. destruct (time w) as [[t w1]| |]; [|done..].
  destruct (draw_layout fuel g i t fs w1) as [[[fs1|] w2]| |]; [|done..].
  apply IH.
Qed.

(** A pass that reaches a blocked ship does not come back with a board. *)
Lemma place_all_blocked fuel g o1 i o2 fs w fs1 w1 r w' :
  place_all fuel g o1 fs w = Ret (Some fs1, w1) →
  blocked g i fs1 →
  place_all fuel g (o1 ++ i :: o2) fs w = Ret (r, w') → r = None.
Proof.
  intros H1 Hb H. rewrite place_all_app in H.
  rewrite (bindM_Ret_l _ _ w w1 (Some fs1)) in H by done. simpl in H.
  bindM H as t w2 Ht. bindM H as r0 w3 Hr.
  apply draw_layout_blocked in Hr; [|done]. subst r0. by retM H.
Qed.

Section Sampler.
Variable set_order : gset cell → list cell.
Hypothesis set_order_spec : ∀ s c, c ∈ set_order s ↔ c ∈ s.

(** *** [randomSelection] *)

Lemma st_randomSelection_spec fuel g order mustHappen w r w' :
  randomSelection set_order fuel g order mustHappen w = Ret (r, w') →
  match r with
  | EmptySet => True
  | Cells l =>
      (∀ c, c ∈ hits g → c ∈ l)
      ∧ (∀ c, c ∈ mustHappen → c ∈ l)
      ∧ (∀ c, c ∈ l → c ∈ mustHappen ∨ ∃ i l s, i ∈ order
            ∧ dget i (possibleShipsDictCond g) = Some l ∧ s ∈ l ∧ c ∈ s)
  end.
Proof.
  revert w. induction fuel as [|fuel IH]; intros w H; [done|].
  cbn [randomSelection] in H.
  bindM H as r0 w1 Hp. destruct r0 as [fs|]; [|by retM H].
  case_decide as Hd; [|by eapply IH].
  retM H. apply len_difference_eq_subseteq in Hd.
  apply place_all_cells in Hp as [Hsub Hc].
  split; [|split]; intros c; rewrite ?set_order_spec; [set_solver|set_solver|auto].
Qed.

(** An attempt that reaches a blocked ship signals failure with the empty
    set. *)
Lemma randomSelection_blocked fuel g o1 i o2 mustHappen w fs1 w1 r w' :
  place_all fuel g o1 mustHappen w = Ret (Some fs1, w1) →
  blocked g i fs1 →
  randomSelection set_order fuel g (o1 ++ i :: o2) mustHappen w = Ret (r, w') →
  r = EmptySet.
Proof.
  intros H1 Hb H. destruct fuel as [|fuel]; [done|].
  cbn [randomSelection] in H. bindM H as r0 w2 Hp.
  eapply place_all_blocked in Hp; [|done|done]. subst r0. by retM H.
Qed.

Lemma place_all_timeout fuel g o1 i o2 fs w fs1 w1 l m :
  place_all fuel g o1 fs w = Ret (Some fs1, w1) →
  dget i (possibleShipsDictCond g) = Some l →
  dget i (possibleShipsNumDictCond g) = Some (llen l) →
  l ≠ [] →
  blocked g i fs1 →
  (m < fuel)%nat →
  Qltb (fdiv w1 (lag g) 10)
       (fsub w1 (clock w1 (S (cpos w1) + m)%nat) (clock w1 (cpos w1))) = true →
  ∃ w', place_all fuel g (o1 ++ i :: o2) fs w = Ret (None, w').
Proof.
  intros H1 Hl Hn Hne Hb Hm Hclock.
  rewrite place_all_app, (bindM_Ret_l _ _ w w1 (Some fs1)) by done.
  cbn [place_all]. unfold mbind at 1, M_bind, time.
  destruct (draw_layout_timeout fuel g i (clock w1 (cpos w1)) fs1
              (World (rand w1) (rpos w1) (clock w1) (S (cpos w1))
                 (fsub w1) (fdiv w1) (iter w1) (ipos w1)) l m)
    as [w' Hd]; try done.
  rewrite (bindM_Ret_l _ _ _ w' None) by done. by exists w'.
Qed.

(** When the clock moves on, an attempt that reaches a blocked ship does
    return, with the empty set. *)
Lemma randomSelection_timeout fuel g o1 i o2 mustHappen w fs1 w1 l m :
  place_all fuel g o1 mustHappen w = Ret (Some fs1, w1) →
  dget i (possibleShipsDictCond g) = Some l →
  dget i (possibleShipsNumDictCond g) = Some (llen l) →
  l ≠ [] →
  blocked g i fs1 →
  (m < fuel)%nat →
  Qltb (fdiv w1 (lag g) 10)
       (fsub w1 (clock w1 (S (cpos w1) + m)%nat) (clock w1 (cpos w1))) = true →
  ∃ w', randomSelection set_order fuel g (o1 ++ i :: o2) mustHappen w
        = Ret (EmptySet, w').
Proof.
  intros H1 Hl Hn Hne Hb Hm Hclock.
  destruct (place_all_timeout fuel g o1 i o2 mustHappen w fs1 w1 l m)
    as [w' Hp]; try done.
  destruct fuel as [|fuel]; [lia|]. cbn [randomSelection].
  rewrite (bindM_Ret_l _ _ w w' None) by done. by exists w'.
Qed.

(** *** [randomConditionalBoard] *)

Lemma st_remove_sublist x l l' : remove x l = Ret l' → sublist l' l.
Proof.
  revert l'. induction l as [|y l IH]; intros l' H; simpl in H; [done|].
  case_decide.
  - simplify_eq. by constructor.
  - bindR H as l1 H1. simplify_eq. constructor. auto.
Qed.

Lemma st_commit_sunk_spec g acc acc' d :
  wf g →
  (∀ p, p ∈ d → p ∈ sunkDict g) →
  acc.2 ⊆ hits g →
  for_each d (commit_sunk g) acc = Ret acc' →
  acc'.2 ⊆ hits g ∧ sublist acc'.1 acc.1.
Proof.
  intros Hwf Hd Hacc H.
  apply (for_each_inv (λ a, a.2 ⊆ hits g ∧ sublist a.1 acc.1)) in H; [done|done|].
  intros [n v] [o mh] [o' mh'] Hin [Hmh Hsub] Hbody. unfold commit_sunk in Hbody.
  simpl in *. case_decide as Hv; [|by simplify_eq].
  bindR Hbody as o1 Ho. bindR Hbody as loc0 Hloc. simplify_eq. simpl.
  apply st_remove_sublist in Ho. split; [|by etrans].
  apply item_Ret in Hloc. rewrite of_items_nodup in Hloc by apply Hwf.
  apply dget_Some_elem in Hloc.
  assert (sunk g n) as Hs.
  { unfold sunk. apply Hd in Hin.
    assert (dget n (sunkDict g) = Some v) as E.
    { apply elem_dget; [|done]. rewrite (wf_sunk_keys g Hwf). apply Hwf. }
    rewrite E. f_equal. destruct (wf_flags g Hwf n v E); [done|done]. }
  destruct (wf_sunk_boat g Hwf n Hs) as (loc & Hb & Hsub' & _).
  assert (loc = loc0) as -> by by eapply st_boat_unique.
  set_solver.
Qed.

Lemma st_randomConditionalBoard_loop_spec (P : cell → Prop) fuel g order mustHappen w r w' :
  (∀ c, entry_cell g c → P c) →
  (∀ c, c ∈ mustHappen → P c) →
  randomConditionalBoard_loop set_order fuel g order mustHappen w = Ret (r, w') →
  ∃ l, r = Cells l ∧ l ≠ [] ∧ (∀ c, c ∈ hits g → c ∈ l) ∧ (∀ c, c ∈ l → P c).
Proof.
  intros HP Hmh. revert w.
  induction fuel as [|fuel IH]; intros w H; [done|].
  cbn [randomConditionalBoard_loop] in H.
  bindM H as fs w1 Hr. apply st_randomSelection_spec in Hr.
  case_decide as Hlen; [by eapply IH|].
  retM H. destruct r as [|l]; [done|]. exists l. split; [done|].
  destruct Hr as (Hh & _ & Hc).
  split; [by intros ->|]. split; [done|].
  intros c Hin. destruct (Hc c Hin) as [?|(i & l' & s & _ & ? & ? & ?)]; [auto|].
  apply HP. by exists i, l', s.
Qed.

(** A board returned by the sampler is not empty, covers the hits, and is
    made of hits and of cells of layouts left in the conditional lists. *)
Lemma st_randomConditionalBoard_spec fuel g orderIncoming w r w' :
  wf g →
  randomConditionalBoard set_order fuel g orderIncoming w = Ret (r, w') →
  ∃ l, r = Cells l ∧ l ≠ []
       ∧ (∀ c, c ∈ hits g → c ∈ l)
       ∧ (∀ c, c ∈ l → c ∈ hits g ∨ entry_cell g c).
Proof.
  intros Hwf H. unfold randomConditionalBoard in H.
  bindL H as acc Hacc.
  apply st_commit_sunk_spec in Hacc as [Hmh _]; [|done|done|done].
  apply (st_randomConditionalBoard_loop_spec (λ c, c ∈ hits g ∨ entry_cell g c)) in H;
    [done|by right|]. intros c Hc. left. auto.
Qed.

End Sampler.
End StatisticsSampler.

(** ** The Statistics aggregator and autoplay *)
Module StatisticsPlay.
Import Py PyFacts Statistics StatisticsFacts StatisticsSampler.

(** A cell that may be probed: on the board, and not a miss. *)
Definition open_cell (g : game) (c : cell) : Prop :=
  in_grid (dim g) c ∧ c ∉ misses g.

Lemma st_with_aggDict_wf v g : wf g → wf (with_aggDict v g).
Proof. intros []. by constructor. Qed.

Lemma st_with_numIter_wf v g : wf g → wf (with_numIter v g).
Proof. intros []. by constructor. Qed.

Lemma st_with_nextInx_wf v g : wf g → wf (with_nextInx v g).
Proof. intros []. by constructor. Qed.

Lemma st_hit_open g c : wf g → c ∈ hits g → open_cell g c.
Proof.
  intros Hwf Hc. split.
  - apply (wf_board_grid g Hwf). by apply (wf_hits g Hwf).
  - intros Hm. by apply (st_hits_misses_disjoint g Hwf c).
Qed.

Lemma st_entry_open g c : wf g → pruned g → entry_cell g c → open_cell g c.
Proof.
  intros Hwf Hpr (n & l & s & Hl & Hs & Hc). split.
  - by eapply (wf_grid g Hwf).
  - intros Hm. by apply (st_pruned_misses g n l s Hwf Hpr Hl Hs c).
Qed.

Section Play.
Variable set_order : gset cell → list cell.
Hypothesis set_order_spec : ∀ s c, c ∈ set_order s ↔ c ∈ s.
Variable name_order : list string → list string.
Hypothesis name_order_perm : ∀ l, name_order l ≡ₚ l.

(** *** [buildAggBoard] *)

Lemma sample_until_spec fuel g order start_time numIter boards w n' boards' w' :
  wf g → pruned g →
  (∀ c, c ∈ boards → open_cell g c) →
  sample_until set_order fuel g order start_time numIter boards w
    = Ret ((n', boards'), w') →
  ∀ c, c ∈ boards' → open_cell g c.
Proof.
  intros Hwf Hpr. revert numIter boards w.
  induction fuel as [|fuel IH]; intros numIter boards w Hb H; [done|].
  cbn [sample_until] in H. bindM H as now w1 Ht. bindM H as elapsed w0 He.
  destruct (Qltb elapsed (lag g)); [|by retM H].
  bindM H as temp w2 Hs.
  apply st_randomConditionalBoard_spec in Hs as (l & -> & _ & _ & Hl); [|done|done].
  eapply IH; [|done]. simpl.
  intros c [Hc|Hc]%elem_of_app; [auto|].
  destruct (Hl c Hc) as [?|?]; [by apply st_hit_open|by apply st_entry_open].
Qed.

Lemma st_buildAggBoard_spec fuel g w g' w' :
  wf g →
  buildAggBoard set_order name_order fuel g w = Ret (g', w') →
  wf g' ∧ pruned g' ∧ frame g g'
  ∧ (∀ c, c ∈ keys (aggDict g') → open_cell g c).
Proof.
  intros Hwf H. unfold buildAggBoard in H.
  bindM H as st w1 Ht. bindL H as g1 Hg1.
  destruct (st_updateOrientations_wf name_order name_order_perm g Hwf)
    as (g1' & Hg1' & Hwf1 & Hpr1 & F1 & _).
  rewrite Hg1' in Hg1. simplify_eq.
  bindM H as r w2 Hs. destruct r as [n boards]. retM H.
  assert (∀ c, c ∈ boards → open_cell g1 c) as Hopen.
  { eapply sample_until_spec; [done|done| |exact Hs].
    by intros c Hc%elem_of_nil. }
  split; [by apply st_with_numIter_wf, st_with_aggDict_wf|].
  split; [done|]. split; [by destruct F1|].
  simpl. intros c Hc%elem_of_keys_most_common_n.
  apply (proj1 (elem_of_keys_Counter boards c)) in Hc.
  destruct (Hopen c Hc) as [Hgrid Hm]. split.
  - by rewrite <- (fr_dim _ _ F1).
  - by rewrite <- (fr_misses _ _ F1).
Qed.

(** *** One turn of [play] *)

Lemma st_turn_spec fuel g w g' w' :
  wf g →
  turn set_order name_order fuel g w = Ret (g', w') →
  nextInx g' ∉ hits g ∧ nextInx g' ∉ misses g ∧ in_grid (dim g) (nextInx g')
  ∧ wf g' ∧ (on_grid g → on_grid g')
  ∧ dim g' = dim g ∧ ships g' = ships g ∧ names g' = names g
  ∧ boats g' = boats g ∧ board g' = board g
  ∧ (if decide (nextInx g' ∈ board g)
     then hits g' = hits g ∪ {[nextInx g']} ∧ misses g' = misses g
     else hits g' = hits g ∧ misses g' = misses g ∪ {[nextInx g']}).
Proof.
  intros Hwf H. unfold turn in H.
  bindM H as g1 w1 Hagg1.
  apply st_buildAggBoard_spec in Hagg1 as (Hwf1 & Hpr1 & F1 & Hagg); [|done].
  pose proof (fr_dim _ _ F1) as Ed. pose proof (fr_ships _ _ F1) as Es.
  pose proof (fr_names _ _ F1) as En. pose proof (fr_boats _ _ F1) as Ebo.
  pose proof (fr_board _ _ F1) as Eb. pose proof (fr_hits _ _ F1) as Eh.
  pose proof (fr_misses _ _ F1) as Em.
  bindL H as d Hdrop. bindL H as c Hmax.
  apply max_key_elem in Hmax. simpl in Hmax.
  unfold drop_hits in Hdrop.
  destruct (drop_keys _ _ _ Hdrop c Hmax) as [Hk Hnh].
  destruct (Hagg c Hk) as [Hgrid Hnm].
  assert (c ∉ hits g) as Hnh'.
  { intros Hc. apply Hnh, set_order_spec. by rewrite Eh. }
  assert (wf (with_nextInx c (with_aggDict d g1))) as Hwf2
    by by apply st_with_nextInx_wf, st_with_aggDict_wf.
  simpl in H. rewrite Eb in H.
  destruct (decide (c ∈ board g)) as [Hb|Hb]; retM H; simpl;
    rewrite ?Eh, ?Em, ?Ed, ?Es, ?En, ?Eb, ?Ebo;
    (split; [done|]); (split; [done|]); (split; [done|]).
  - split.
    { destruct Hwf2. constructor; simpl in *; try done.
      - rewrite Eb. pose proof (wf_hits g Hwf). set_solver.
      - intros n Hn. destruct (wf_sunk_boat g1 Hwf1 n Hn) as (loc & ? & ? & ?).
        exists loc. rewrite Eh in *. set_solver. }
    split.
    { unfold on_grid. simpl. by rewrite Ed, Em. }
    rewrite decide_True by done. done.
  - split.
    { destruct Hwf2. constructor; simpl in *; try done.
      rewrite Eb. pose proof (wf_misses g Hwf). set_solver. }
    split.
    { unfold on_grid. simpl. rewrite Ed. intros Hog c'.
      intros [Hc| ->%elem_of_singleton]%elem_of_union; [by apply Hog|done]. }
    rewrite decide_False by done. done.
Qed.

(** The number of cells probed so far *)
Definition probed (g : game) : Z := len (hits g) + len (misses g).



(** *** [play] *)

(** The games that autoplay goes through: fresh from the constructor, then
    one turn after the other. *)
Inductive playing : game → Prop :=
| playing_init fuel dim ships lag w g w' :
    BattleshipAutoplay_init name_order fuel dim ships lag w = Ret (g, w') →
    playing g
| playing_turn fuel g w g' w' :
    playing g → turn set_order name_order fuel g w = Ret (g', w') → playing g'.




(** *** The games that the interface goes through *)

Lemma st_turn_guess fuel g w g' w' :
  turn set_order name_order fuel g w = Ret (g', w') →
  ∃ g1 d c, buildAggBoard set_order name_order fuel g w = Ret (g1, w')
            ∧ for_each (set_order (hits g1)) (λ i d, ddel i d) (aggDict g1) = Ret d
            ∧ max_key d = Ret c
            ∧ g' = guess c (with_nextInx c (with_aggDict d g1)).
Proof.
  intros H. unfold turn in H.
  bindM H as g1 w1 Hagg. bindL H as d Hd. bindL H as c Hc.
  exists g1, d, c. unfold guess. simpl in *.
  case_decide; retM H; done.
Qed.

Inductive played : game → Prop :=
| played_init fuel dim ships lag w g w' :
    BattleshipEnv_init name_order fuel dim ships lag w = Ret (g, w') →
    played g
| played_guess c g : played g → played (guess c g)
| played_refresh g g' :
    played g → updateOrientations name_order g = Ret g' → played g'
| played_view fuel g w g' w' :
    played g → buildAggBoard set_order name_order fuel g w = Ret (g', w') →
    played g'
| played_turn fuel g w g' w' :
    played g → turn set_order name_order fuel g w = Ret (g', w') → played g'.

Lemma st_played_wf g : played g → wf g.
Proof.
  induction 1 as [fuel d s lg w g w' H|c g _ Hwf|g g' _ Hwf H
                 |fuel g w g' w' _ Hwf H|fuel g w g' w' _ Hwf H].
  - by apply (StatisticsInit.BattleshipEnv_init_wf name_order name_order_perm) in H
      as (? & _).
  - by apply st_guess_wf.
  - destruct (st_updateOrientations_wf name_order name_order_perm g Hwf)
      as (g1 & Hg1 & Hwf1 & _).
    congruence.
  - by apply st_buildAggBoard_spec in H as (? & _).
  - by apply st_turn_spec in H as (_ & _ & _ & ? & _).
Qed.

Lemma st_playing_played g : playing g → played g.
Proof.
  induction 1 as [fuel d s lg w g w' H|fuel g w g' w' _ IH H].
  - by eapply played_init.
  - by eapply played_turn.
Qed.

End Play.
End StatisticsPlay.

(** ** The constructors on a ship that has no room *)
Module ConstructorFacts.
Import Py PyFacts.

(** A ship of length [L] has no layout on a board of side [dim]. *)
Definition no_room (dim L : Z) : Prop := dim ≤ 0 ∨ dim < L.

(** A computation raises nothing but [ValueError]. *)
Definition benign {A} (r : result A) : Prop :=
  match r with
  | Raise e => e = ValueError
  | _ => True
  end.

Lemma benign_bindM {A B} (m : M A) (f : A → M B) (w : world) :
  benign (m w) → (∀ a w1, m w = Ret (a, w1) → benign (f a w1)) →
  benign ((m ≫= f) w).
Proof.
  unfold mbind, M_bind. destruct (m w) as [[a w1]| |]; simpl; auto.
Qed.

Lemma benign_lift {A} (r : result A) (w : world) : benign r → benign (lift r w).
Proof. by destruct r. Qed.

Lemma benign_randint (n : Z) (w : world) : benign (randint n w).
Proof. unfold randint. by case_decide. Qed.

Lemma benign_for_eachM {A S} (l : list A) (body : A → S → M S) (s : S) (w : world) :
  (∀ x s w, x ∈ l → benign (body x s w)) → benign (for_eachM l body s w).
Proof.
  revert s w. induction l as [|x l IH]; intros s w Hbody; simpl; [done|].
  apply benign_bindM; [apply Hbody; left|].
  intros s1 w1 _. apply IH. intros y s2 w2 Hy. apply Hbody. by right.
Qed.

Lemma zip_take_l {A B} (l : list A) (k : list B) :
  zip (take (length k) l) k = zip l k.
Proof.
  revert l. induction k as [|b k IH]; intros [|a l]; simpl; [done..|].
  by rewrite IH.
Qed.

(** The length recorded for a ship that has a letter *)
Lemma dget_zip_names {A} (ships : list A) (n : string) (L : A) :
  (n, L) ∈ zip ascii_lowercase ships →
  n ∈ take (length ships) ascii_lowercase
  ∧ dget n (of_items (zip (take (length ships) ascii_lowercase) ships)) = Some L.
Proof.
  rewrite <- zip_take_l. set (nm := take (length ships) ascii_lowercase).
  intros Hin.
  assert (length nm ≤ length ships)%nat as Hlen.
  { unfold nm. rewrite length_take. lia. }
  assert ((zip nm ships).*1 = nm) as Hk by by apply fst_zip.
  split.
  - rewrite <- Hk. apply list_elem_of_fmap. by exists (n, L).
  - rewrite of_items_nodup.
    + apply elem_dget; [|done]. unfold keys. rewrite Hk. apply NoDup_take_names.
    + unfold keys. rewrite Hk. apply NoDup_take_names.
Qed.

(** The letter of a ship: every name is the name of some ship. *)
Lemma names_zip {A} (ships : list A) (n : string) :
  n ∈ take (length ships) ascii_lowercase →
  ∃ L, (n, L) ∈ zip ascii_lowercase ships.
Proof.
  rewrite <- zip_take_l. set (nm := take (length ships) ascii_lowercase).
  assert (length nm ≤ length ships)%nat as Hlen.
  { unfold nm. rewrite length_take. lia. }
  intros Hn. rewrite <- (fst_zip nm ships Hlen) in Hn.
  apply list_elem_of_fmap in Hn as ([n' L] & -> & Hin). eauto.
Qed.

Lemma bind_no_columns {A} (dim : Z) (f : Z → Z → list A) (l : list Z) :
  dim ≤ 0 → (i ← l; j ← range dim; f i j) = [].
Proof.
  intros Hd. induction l as [|i l IH]; [done|].
  rewrite bind_cons, IH, (range_nil dim) by done. done.
Qed.

(** [d[i]] for [d = dict(zip(range(len(l)), l))] *)
Lemma dget_zip_range {A} (l : list A) (i : Z) :
  0 ≤ i < llen l → is_Some (dget i (of_items (zip (range (llen l)) l))).
Proof.
  intros Hi. apply dget_is_Some.
  assert ((zip (range (llen l)) l).*1 = range (llen l)) as Hk.
  { apply fst_zip. rewrite length_range. unfold llen. lia. }
  rewrite of_items_nodup; unfold keys; rewrite Hk; [|apply NoDup_range].
  by apply elem_of_range.
Qed.

Section Bayesian.
Import Bayesian BayesianFacts BayesianInit.

Lemma orientations1_nil dim L : no_room dim L → orientations1 dim L = [].
Proof.
  intros [Hd|Hl]; unfold orientations1.
  - by apply bind_no_columns.
  - by rewrite (range_nil (dim - L + 1)) by lia.
Qed.

Lemma orientations2_nil dim L : no_room dim L → orientations2 dim L = [].
Proof.
  intros [Hd|Hl]; unfold orientations2.
  - by apply bind_no_columns.
  - by rewrite (range_nil (dim - L + 1)) by lia.
Qed.

Lemma Battleship_init_lengths dim0 ships0 g :
  Battleship_init dim0 ships0 = Ret g →
  shipLengths g = of_items (zip (take (length ships0) ascii_lowercase) ships0).
Proof.
  unfold Battleship_init.
  edestruct generateComponentLayouts_spec as (g1 & -> & _ & _ & _ & _ & _ & E5).
  { simpl. apply NoDup_take_names. }
  { simpl. apply keys_zip_names; [apply NoDup_take_names|].
    rewrite length_take. lia. }
  simpl. intros [= <-]. simpl. by rewrite E5.
Qed.

Lemma Battleship_init_orders dim0 ships0 g :
  Battleship_init dim0 ships0 = Ret g →
  ∃ perms : list (list string),
    numPerms g = llen perms
    ∧ randomOrderDict g = of_items (zip (range (llen perms)) perms).
Proof.
  unfold Battleship_init.
  edestruct generateComponentLayouts_spec as (g1 & -> & _).
  { simpl. apply NoDup_take_names. }
  { simpl. apply keys_zip_names; [apply NoDup_take_names|].
    rewrite length_take. lia. }
  simpl. intros [= <-]. simpl. eauto.
Qed.

(** The catalogue of a ship that has no room is empty. *)
Lemma long_ship_catalogue dim0 ships0 g n L :
  Battleship_init dim0 ships0 = Ret g →
  (n, L) ∈ zip ascii_lowercase ships0 → no_room dim0 L →
  n ∈ names g
  ∧ dget n (possibleShipsDict g) = Some []
  ∧ dget n (possibleShipsNumDict g) = Some 0.
Proof.
  intros Hg Hin Hlt.
  destruct (Battleship_init_spec dim0 ships0)
    as (g0 & Hg0 & Ed & Es & En & Ks & Hz & Kl & (Kc & Kn & Hcat) & Hnp & Hord).
  rewrite Hg in Hg0. injection Hg0 as <-.
  apply dget_zip_names in Hin as [Hn HL].
  rewrite <- (Battleship_init_lengths _ _ _ Hg) in HL. rewrite <- En in Hn.
  split; [done|].
  destruct (proj2 (dget_is_Some (possibleShipsDict g) n)) as [l Hl];
    [by rewrite Kc|].
  destruct (Hcat n l Hl) as (L' & HL' & -> & Hnum).
  assert (L' = L) as -> by congruence.
  rewrite Ed in *.
  rewrite orientations1_nil, orientations2_nil in * by done. done.
Qed.

(** Drawing a layout from an empty catalogue raises [ValueError]. *)
Lemma place_ship_empty fuel g n fs w l :
  dget n (possibleShipsDict g) = Some l →
  dget n (possibleShipsNumDict g) = Some 0 →
  place_ship (S fuel) g n fs w = Raise ValueError.
Proof.
  intros Hl Hn. simpl. unfold item. rewrite Hl, Hn.
  rewrite (bindM_Ret_l _ _ w w l) by done.
  rewrite (bindM_Ret_l _ _ w w 0) by done.
  unfold mbind, M_bind. by rewrite randint_nonpos.
Qed.

Lemma place_ship_benign fuel g n fs w l :
  dget n (possibleShipsDict g) = Some l →
  dget n (possibleShipsNumDict g) = Some (llen l) →
  benign (place_ship fuel g n fs w).
Proof.
  intros Hl Hn. revert w. induction fuel as [|fuel IH]; intros w; [done|].
  simpl. unfold item. rewrite Hl, Hn.
  rewrite (bindM_Ret_l _ _ w w l) by done.
  rewrite (bindM_Ret_l _ _ w w (llen l)) by done.
  apply benign_bindM; [apply benign_randint|].
  intros r w1 Hr%randint_Ret.
  destruct (index_total l r Hr) as (s & Hs & _).
  rewrite (bindM_Ret_l _ _ w1 w1 s) by (by rewrite Hs).
  case_decide; [done|apply IH].
Qed.

Lemma randomBoard_benign dim0 ships0 g fuel w :
  Battleship_init dim0 ships0 = Ret g → benign (randomBoard fuel g w).
Proof.
  intros Hg.
  destruct (Battleship_init_spec dim0 ships0)
    as (g0 & Hg0 & Ed & Es & En & Ks & Hz & Kl & (Kc & Kn & Hcat) & Hnp & Hord).
  rewrite Hg in Hg0. injection Hg0 as <-.
  destruct (Battleship_init_orders _ _ _ Hg) as (perms & Enp & Eod).
  unfold randomBoard.
  apply benign_bindM; [apply benign_randint|]. intros i w1 Hi%randint_Ret.
  destruct (dget_zip_range perms i) as [order Ho]; [by rewrite <- Enp|].
  rewrite <- Eod in Ho. unfold item. rewrite Ho.
  rewrite (bindM_Ret_l _ _ w1 w1 order) by done.
  apply benign_bindM; [|done].
  apply benign_for_eachM. intros n acc w2 Hn.
  apply benign_bindM; [|done].
  rewrite (Hord i order Ho), <- Kc in Hn.
  apply dget_is_Some in Hn as [l Hl].
  destruct (Hcat n l Hl) as (L & _ & _ & Hnum).
  by eapply place_ship_benign.
Qed.

Lemma BattleshipPlayer_init_benign fuel dim0 ships0 ro bs pt w :
  benign (BattleshipPlayer_init fuel dim0 ships0 ro bs pt w).
Proof.
  unfold BattleshipPlayer_init.
  destruct (Battleship_init_spec dim0 ships0) as (g0 & Hg0 & _).
  rewrite (bindM_Ret_l _ _ w w g0) by (by rewrite Hg0).
  apply benign_bindM; [by eapply randomBoard_benign|done].
Qed.

Lemma BattleshipPlayer_init_long dim0 ships0 n L fuel ro bs pt w r :
  (n, L) ∈ zip ascii_lowercase ships0 → no_room dim0 L →
  BattleshipPlayer_init fuel dim0 ships0 ro bs pt w ≠ Ret r.
Proof.
  intros Hin Hlt H. destruct r as [g w']. unfold BattleshipPlayer_init in H.
  bindL H as g0 Hg0. bindM H as rb w1 Hr. destruct rb as [b g1].
  destruct (long_ship_catalogue _ _ _ _ _ Hg0 Hin Hlt) as (Hn & Hl & _).
  destruct (Battleship_init_spec dim0 ships0) as (g0' & Hg0' & Hrest).
  rewrite Hg0 in Hg0'. injection Hg0' as <-.
  apply randomBoard_spec in Hr as (_ & Hperm & _ & Hcat & _); [|apply Hrest].
  rewrite <- Hperm in Hn. apply list_elem_of_fmap in Hn as ([n' loc] & -> & Hp).
  destruct (Hcat _ _ Hp) as (l & Hl' & Hloc). simpl in Hl.
  rewrite Hl in Hl'. injection Hl' as <-. by apply elem_of_nil in Hloc.
Qed.

(** When no ship has room, the first draw raises [ValueError]. *)
Lemma BattleshipPlayer_init_raises dim0 ships0 fuel ro bs pt w :
  ships0 ≠ [] →
  (∀ n L, (n, L) ∈ zip ascii_lowercase ships0 → no_room dim0 L) →
  BattleshipPlayer_init (S fuel) dim0 ships0 ro bs pt w = Raise ValueError.
Proof.
  intros Hne Hall. unfold BattleshipPlayer_init.
  destruct (Battleship_init_spec dim0 ships0)
    as (g0 & Hg0 & Ed & Es & En & Ks & Hz & Kl & (Kc & Kn & Hcat) & Hnp & Hord).
  rewrite (bindM_Ret_l _ _ w w g0) by (by rewrite Hg0).
  destruct (Battleship_init_orders _ _ _ Hg0) as (perms & Enp & Eod).
  unfold randomBoard.
  destruct (randint (numPerms g0) w) as [[i w1]| |] eqn:Hi;
    [|unfold randint in Hi; case_decide; [done|lia]
     |unfold randint in Hi; by case_decide].
  apply randint_Ret in Hi as Hrange.
  destruct (dget_zip_range perms i) as [order Ho]; [by rewrite <- Enp|].
  rewrite <- Eod in Ho.
  assert (∃ n rest, order = n :: rest ∧ n ∈ names g0) as (n & rest & -> & Hn).
  { pose proof (Hord i order Ho) as Hp. destruct order as [|n rest].
    - apply Permutation_nil_l in Hp. rewrite En in Hp.
      destruct ships0; [done|]. discriminate Hp.
    - exists n, rest. split; [done|]. rewrite <- Hp. left. }
  assert (place_ship (S fuel) g0 n ∅ w1 = Raise ValueError) as Hplace.
  { rewrite En in Hn. destruct (names_zip _ _ Hn) as [L HL].
    destruct (long_ship_catalogue _ _ _ _ _ Hg0 HL (Hall _ _ HL)) as (_ & Hl & Hnum).
    by eapply place_ship_empty. }
  unfold mbind at 1, M_bind. unfold mbind at 1, M_bind. rewrite Hi.
  unfold mbind at 1, M_bind. unfold item. rewrite Ho. simpl lift.
  cbv beta iota. cbn [for_eachM].
  unfold mbind at 1, M_bind. unfold mbind at 1, M_bind.
  unfold mbind at 1, M_bind. cbn [fst]. by rewrite Hplace.
Qed.

End Bayesian.

Section Statistics.
Import Statistics StatisticsFacts StatisticsInit.
Variable name_order : list string → list string.
Hypothesis name_order_perm : ∀ l, name_order l ≡ₚ l.

Lemma orientations_nil dim L : no_room dim L → orientations dim L = [].
Proof.
  intros [Hd|Hl]; unfold orientations.
  - by apply bind_no_columns.
  - by rewrite (range_nil (dim - L + 1)) by lia.
Qed.

Lemma st_Battleship_init_lengths dim0 ships0 g :
  Battleship_init name_order dim0 ships0 = Ret g →
  shipLengths g = of_items (zip (take (length ships0) ascii_lowercase) ships0).
Proof.
  unfold Battleship_init.
  edestruct (st_generateComponentLayouts_spec name_order name_order_perm)
    as (g1 & -> & _ & _ & _ & _ & _ & E5).
  { simpl. apply NoDup_take_names. }
  { simpl. apply keys_zip_names; [apply NoDup_take_names|].
    rewrite length_take. lia. }
  simpl. intros [= <-]. simpl. by rewrite E5.
Qed.

Lemma st_long_ship_catalogue dim0 ships0 g n L :
  Battleship_init name_order dim0 ships0 = Ret g →
  (n, L) ∈ zip ascii_lowercase ships0 → no_room dim0 L →
  n ∈ names g
  ∧ dget n (possibleShipsDict g) = Some []
  ∧ dget n (possibleShipsNumDict g) = Some 0.
Proof.
  intros Hg Hin Hlt.
  destruct (st_Battleship_init_spec name_order name_order_perm dim0 ships0)
    as (g0 & Hg0 & Ed & Es & En & Ks & Hz & Kl & (Kc & Kn & Hcat) & Hord).
  rewrite Hg in Hg0. injection Hg0 as <-.
  apply dget_zip_names in Hin as [Hn HL].
  rewrite <- (st_Battleship_init_lengths _ _ _ Hg) in HL. rewrite <- En in Hn.
  split; [done|].
  destruct (proj2 (dget_is_Some (possibleShipsDict g) n)) as [l Hl];
    [by rewrite Kc|].
  destruct (Hcat n l Hl) as (L' & HL' & -> & Hnum).
  assert (L' = L) as -> by congruence.
  rewrite Ed in *.
  rewrite orientations_nil in * by done. done.
Qed.

Lemma st_place_ship_empty fuel g n fs w l :
  dget n (possibleShipsDict g) = Some l →
  dget n (possibleShipsNumDict g) = Some 0 →
  place_ship (S fuel) g n fs w = Raise ValueError.
Proof.
  intros Hl Hn. simpl. unfold item. rewrite Hl, Hn.
  rewrite (bindM_Ret_l _ _ w w l) by done.
  rewrite (bindM_Ret_l _ _ w w 0) by done.
  unfold mbind, M_bind. by rewrite randint_nonpos.
Qed.

Lemma st_place_ship_benign fuel g n fs w l :
  dget n (possibleShipsDict g) = Some l →
  dget n (possibleShipsNumDict g) = Some (llen l) →
  benign (place_ship fuel g n fs w).
Proof.
  intros Hl Hn. revert w. induction fuel as [|fuel IH]; intros w; [done|].
  simpl. unfold item. rewrite Hl, Hn.
  rewrite (bindM_Ret_l _ _ w w l) by done.
  rewrite (bindM_Ret_l _ _ w w (llen l)) by done.
  apply benign_bindM; [apply benign_randint|].
  intros r w1 Hr%randint_Ret.
  destruct (index_total l r Hr) as (s & Hs & _).
  rewrite (bindM_Ret_l _ _ w1 w1 s) by (by rewrite Hs).
  case_decide; [done|apply IH].
Qed.

Lemma BattleshipEnv_init_benign fuel dim0 ships0 lag0 w :
  benign (BattleshipEnv_init name_order fuel dim0 ships0 lag0 w).
Proof.
  unfold BattleshipEnv_init.
  destruct (st_Battleship_init_spec name_order name_order_perm dim0 ships0)
    as (g0 & Hg0 & Ed & Es & En & Ks & Hz & Kl & (Kc & Kn & Hcat) & Hord).
  rewrite (bindM_Ret_l _ _ w w g0) by (by rewrite Hg0).
  apply benign_bindM; [|done]. unfold randomBoard.
  apply benign_bindM; [|done].
  apply benign_for_eachM. intros n acc w2 Hn.
  apply benign_bindM; [|done].
  rewrite Hord, <- Kc in Hn. apply dget_is_Some in Hn as [l Hl].
  destruct (Hcat n l Hl) as (L & _ & _ & Hnum).
  by eapply st_place_ship_benign.
Qed.

Lemma BattleshipEnv_init_long dim0 ships0 n L fuel lag0 w r :
  (n, L) ∈ zip ascii_lowercase ships0 → no_room dim0 L →
  BattleshipEnv_init name_order fuel dim0 ships0 lag0 w ≠ Ret r.
Proof.
  intros Hin Hlt H. destruct r as [g w']. unfold BattleshipEnv_init in H.
  bindL H as g0 Hg0. bindM H as rb w1 Hr. destruct rb as [b g1].
  destruct (st_long_ship_catalogue _ _ _ _ _ Hg0 Hin Hlt) as (Hn & Hl & _).
  destruct (st_Battleship_init_spec name_order name_order_perm dim0 ships0)
    as (g0' & Hg0' & _ & _ & _ & _ & _ & _ & _ & Hord).
  rewrite Hg0 in Hg0'. injection Hg0' as <-.
  apply st_randomBoard_spec in Hr as (_ & Hperm & _ & Hcat & _).
  rewrite <- Hord, <- Hperm in Hn.
  apply list_elem_of_fmap in Hn as ([n' loc] & -> & Hp).
  destruct (Hcat _ _ Hp) as (l & Hl' & Hloc). simpl in Hl.
  rewrite Hl in Hl'. injection Hl' as <-. by apply elem_of_nil in Hloc.
Qed.

Lemma BattleshipEnv_init_raises dim0 ships0 fuel lag0 w :
  ships0 ≠ [] →
  (∀ n L, (n, L) ∈ zip ascii_lowercase ships0 → no_room dim0 L) →
  BattleshipEnv_init name_order (S fuel) dim0 ships0 lag0 w = Raise ValueError.
Proof.
  intros Hne Hall. unfold BattleshipEnv_init.
  destruct (st_Battleship_init_spec name_order name_order_perm dim0 ships0)
    as (g0 & Hg0 & Ed & Es & En & Ks & Hz & Kl & (Kc & Kn & Hcat) & Hord).
  rewrite (bindM_Ret_l _ _ w w g0) by (by rewrite Hg0).
  unfold randomBoard.
  assert (∃ n rest, order g0 = n :: rest ∧ n ∈ names g0) as (n & rest & Eo & Hn).
  { destruct (order g0) as [|n rest].
    - apply Permutation_nil_l in Hord. rewrite En in Hord.
      destruct ships0; [done|]. discriminate Hord.
    - exists n, rest. split; [done|]. rewrite <- Hord. left. }
  assert (place_ship (S fuel) g0 n ∅ w = Raise ValueError) as Hplace.
  { rewrite En in Hn. destruct (names_zip _ _ Hn) as [L HL].
    destruct (st_long_ship_catalogue _ _ _ _ _ Hg0 HL (Hall _ _ HL))
      as (_ & Hl & Hnum).
    by eapply st_place_ship_empty. }
  rewrite Eo. cbn [for_eachM].
  unfold mbind at 1, M_bind. unfold mbind at 1, M_bind.
  unfold mbind at 1, M_bind. unfold mbind at 1, M_bind.
  cbn [fst]. by rewrite Hplace.
Qed.

End Statistics.
End ConstructorFacts.

(** ** The third loop of the Bayesian [updateOrientations], one hit at a time *)
Module BayesianPropagate.
Import Py PyFacts Bayesian BayesianFacts.










Section Facts.
Variable set_order : gset cell → list cell.
Hypothesis set_order_spec : ∀ s c, c ∈ set_order s ↔ c ∈ s.




End Facts.
End BayesianPropagate.

(** ** The ships that get a letter *)
Module StatisticsLetters.
Import Py PyFacts Statistics StatisticsFacts StatisticsInit StatisticsPlay.





Section Letters.
Variable name_order : list string → list string.
Hypothesis name_order_perm : ∀ l, name_order l ≡ₚ l.



Variable set_order : gset cell → list cell.
Hypothesis set_order_spec : ∀ s c, c ∈ set_order s ↔ c ∈ s.


End Letters.
End StatisticsLetters.

(** ** The properties of the specification *)
Module Claims.
Import Py PyFacts.

(** [returns r P]: the computation [r] returns a value, and [P] holds of it. *)
Definition returns {A} (r : result A) (P : A → Prop) : Prop :=
  match r with
  | Ret a => P a
  | _ => False
  end.

(** The value that [r] returns, or [d] when it returns none *)
Definition the {A} (d : A) (r : result A) : A :=
  match r with
  | Ret a => a
  | _ => d
  end.

Lemma returns_the {A} (d : A) (r : result A) (P : A → Prop) :
  r = Ret (the d r) → P (the d r) → returns r P.
Proof. intros -> H. exact H. Defined.

(** Games with nothing in them, for [the] *)
Definition no_bayes : Bayesian.game :=
  Bayesian.Game 0 0 [] [] [] [] [] [] 0 [] [] ∅ ∅ ∅ ∅ [] [] [] (0, 0)
    false 0 false 0 [] [] 0.
Definition no_stat : Statistics.game :=
  Statistics.Game 0 0 [] [] [] [] [] [] [] [] ∅ 0%Q ∅ ∅ ∅ [] [] [] 0 (0, 0).

(** A world to run the examples in: some draws; a clock that moves by a
    sixteenth of a second at each reading, so that the differences of its
    readings are exact in binary floating point and compare with [lag] and
    [lag / 10] as in exact arithmetic; and sets listed the way [elements]
    lists them, rearranged from one listing to the next. *)
Definition w0 : world :=
  World (λ n, n * 7 + 3)%nat 0 (λ n, inject_Z (Z.of_nat n) / 16)%Q 0
    Qminus Qdiv (λ n, n) 0.

(** Two orders to run the examples with *)
Definition cells_in_order (s : gset cell) : list cell := elements s.
Definition names_in_order (l : list string) : list string := l.

Lemma cells_in_order_spec (s : gset cell) (c : cell) :
  c ∈ cells_in_order s ↔ c ∈ s.
Proof. apply elem_of_elements. Qed.

Lemma names_in_order_perm (l : list string) : names_in_order l ≡ₚ l.
Proof. done. Qed.

(** Two concrete sets meet: by computation. *)
Lemma meet_by_computation (s t : gset cell) :
  bool_decide (s ## t) = false → ¬ s ## t.
Proof. apply bool_decide_eq_false. Qed.

(** The world [w0] with the cursors moved *)
Definition at_draw (r c : nat) : world :=
  World (rand w0) r (clock w0) c (fsub w0) (fdiv w0) (iter w0) (ipos w0).

(** Two games with little room left: a board of side 3 with two ships of
    length 2, after five misses and [updateOrientations]. Each ship is left
    with three layouts, of which the middle one meets the other two. *)
Definition bayes_cornered : result Bayesian.game :=
  r ← Bayesian.BattleshipPlayer_init 10 3 [2; 2] false 3 false w0;
  Bayesian.updateOrientations cells_in_order
    (foldr Bayesian.guess r.1 [(0, 1); (0, 2); (2, 0); (2, 1); (2, 2)]).

Definition stat_cornered : result Statistics.game :=
  r ← Statistics.BattleshipEnv_init names_in_order 10 3 [2; 2] 2 w0;
  Statistics.updateOrientations names_in_order
    (foldr Statistics.guess r.1 [(0, 0); (0, 1); (0, 2); (2, 0); (2, 1)]).

(** *** C1 *)

(** C1: once [updateOrientations] marks a ship sunk, its candidate list
    should hold one entry, the ship's placement. The Statistics variant
    stores [[location]]; the Bayesian variant stores [list(location)], the
    cells of the placement one by one, next to a count of 1. Here on a board
    of side 2 with one ship of length 2, after both its cells are hit. *)
Theorem C1_sunk_candidates_at_input :
  returns (Bayesian.BattleshipPlayer_init 10 2 [2] false 1 false w0) (λ r,
    Bayesian.boats r.1 = [("a"%string, {[(0, 0); (0, 1)]})]
    ∧ returns (Bayesian.updateOrientations cells_in_order
                 (Bayesian.guess (0, 1) (Bayesian.guess (0, 0) r.1))) (λ g',
        dget "a"%string (Bayesian.sunkDict g') = Some 1
        ∧ dget "a"%string (Bayesian.possibleShipsDictCond g')
          = Some [Bayesian.ETup (0, 1); Bayesian.ETup (0, 0)]
        ∧ dget "a"%string (Bayesian.possibleShipsNumDictCond g') = Some 1))
  ∧ returns (Statistics.BattleshipEnv_init names_in_order 10 2 [2] 2 w0) (λ r,
      Statistics.boats r.1 = [("a"%string, {[(1, 0); (1, 1)]})]
      ∧ returns (Statistics.updateOrientations names_in_order
                   (Statistics.guess (1, 1) (Statistics.guess (1, 0) r.1))) (λ g',
          dget "a"%string (Statistics.sunkDict g') = Some 1
          ∧ dget "a"%string (Statistics.possibleShipsDictCond g')
            = Some [{[(1, 0); (1, 1)]}]
          ∧ dget "a"%string (Statistics.possibleShipsNumDictCond g') = Some 1)).
Proof. vm_compute. repeat split. Qed.

(** *** C2 *)

Lemma C2_guess_sets_nextInx :
  returns (Bayesian.BattleshipPlayer_init 10 2 [2] false 1 false w0) (λ r,
    Bayesian.nextInx (Bayesian.guess (0, 0) r.1) ≠ Bayesian.nextInx r.1).
Proof. vm_compute. intros [=]. Qed.

(** C2 (amended): [guess] adds the cell to the hits when the board holds
    it and to the misses otherwise; the Bayesian variant also records the
    cell as the last one probed; nothing else in the game changes: putting
    the old values of these fields back gives the old game. *)
Theorem C2_guess_frame (c : cell) (gB : Bayesian.game) (gS : Statistics.game) :
  (Bayesian.hits (Bayesian.guess c gB)
     = (if decide (c ∈ Bayesian.board gB)
        then Bayesian.hits gB ∪ {[c]} else Bayesian.hits gB)
   ∧ Bayesian.misses (Bayesian.guess c gB)
     = (if decide (c ∈ Bayesian.board gB)
        then Bayesian.misses gB else Bayesian.misses gB ∪ {[c]})
   ∧ Bayesian.nextInx (Bayesian.guess c gB) = c
   ∧ Bayesian.with_nextInx (Bayesian.nextInx gB)
       (Bayesian.with_misses (Bayesian.misses gB)
          (Bayesian.with_hits (Bayesian.hits gB) (Bayesian.guess c gB))) = gB)
  ∧ (Statistics.hits (Statistics.guess c gS)
       = (if decide (c ∈ Statistics.board gS)
          then Statistics.hits gS ∪ {[c]} else Statistics.hits gS)
     ∧ Statistics.misses (Statistics.guess c gS)
       = (if decide (c ∈ Statistics.board gS)
          then Statistics.misses gS else Statistics.misses gS ∪ {[c]})
     ∧ Statistics.with_misses (Statistics.misses gS)
         (Statistics.with_hits (Statistics.hits gS) (Statistics.guess c gS)) = gS).
Proof.
  split.
  - destruct gB. unfold Bayesian.guess. simpl. by case_decide.
  - destruct gS. unfold Statistics.guess. simpl. by case_decide.
Qed.

(** *** C3 *)

Lemma C3_malformed_accepted :
  returns (Bayesian.BattleshipPlayer_init 10 10 [] true 1000 false w0) (λ r,
    Bayesian.ships r.1 = [] ∧ Bayesian.board r.1 = ∅)
  ∧ returns (Statistics.BattleshipEnv_init names_in_order 10 10 [] 2 w0) (λ r,
      Statistics.ships r.1 = [] ∧ Statistics.board r.1 = ∅)
  ∧ returns (Bayesian.Battleship_init 2 [3]) (λ g,
      Bayesian.dim g = 2 ∧ Bayesian.ships g = [3])
  ∧ returns (Statistics.Battleship_init names_in_order 2 [3]) (λ g,
      Statistics.dim g = 2 ∧ Statistics.ships g = [3])
  ∧ returns (Statistics.BattleshipEnv_init names_in_order 10 10
               (replicate 26 1 ++ [11]) 2 w0) (λ r,
      Statistics.dim r.1 = 10 ∧ Statistics.ships r.1 = replicate 26 1 ++ [11]).
Proof. vm_compute. repeat split. Qed.

(** C3 (amended): nothing checks the configuration, and
    [Battleship.__init__] returns on every one. The ships get the letters
    [a] to [z] as names, so only the first 26 count. When one of them has
    no room on the board, because the side of the board is not positive or
    because the ship is longer than the side, its catalogue is empty,
    drawing a layout for it raises [ValueError], and the constructors that
    place the ships raise [ValueError] or do not come back: they never
    return a game and raise nothing else. When none of the first 26 ships
    has room, as with one ship that is too long or with a side that is not
    positive, they raise [ValueError] at the first draw, whatever the
    draws. *)
Theorem C3_no_room_never_placed
    (name_order : list string → list string)
    (name_order_perm : ∀ l, name_order l ≡ₚ l)
    (dim : Z) (ships : list Z) (n : string) (L : Z) :
  (n, L) ∈ zip ascii_lowercase ships →
  ConstructorFacts.no_room dim L →
  (∃ g0, Bayesian.Battleship_init dim ships = Ret g0
         ∧ ∀ fuel fs w,
             Bayesian.place_ship (S fuel) g0 n fs w = Raise ValueError)
  ∧ (∀ fuel ro bs pt w,
       Bayesian.BattleshipPlayer_init fuel dim ships ro bs pt w
         = Raise ValueError
       ∨ Bayesian.BattleshipPlayer_init fuel dim ships ro bs pt w = Diverge)
  ∧ (∀ fuel ro bs pt w,
       Bayesian.BattleshipAutoplay_init fuel dim ships ro bs pt w
         = Raise ValueError
       ∨ Bayesian.BattleshipAutoplay_init fuel dim ships ro bs pt w = Diverge)
  ∧ (∃ g0, Statistics.Battleship_init name_order dim ships = Ret g0
           ∧ ∀ fuel fs w,
               Statistics.place_ship (S fuel) g0 n fs w = Raise ValueError)
  ∧ (∀ fuel lag w,
       Statistics.BattleshipEnv_init name_order fuel dim ships lag w
         = Raise ValueError
       ∨ Statistics.BattleshipEnv_init name_order fuel dim ships lag w = Diverge)
  ∧ (∀ fuel lag w,
       Statistics.BattleshipAutoplay_init name_order fuel dim ships lag w
         = Raise ValueError
       ∨ Statistics.BattleshipAutoplay_init name_order fuel dim ships lag w
         = Diverge)
  ∧ ((∀ n' L', (n', L') ∈ zip ascii_lowercase ships →
               ConstructorFacts.no_room dim L') →
     (∀ fuel ro bs pt w,
        Bayesian.BattleshipPlayer_init (S fuel) dim ships ro bs pt w
          = Raise ValueError)
     ∧ (∀ fuel ro bs pt w,
          Bayesian.BattleshipAutoplay_init (S fuel) dim ships ro bs pt w
            = Raise ValueError)
     ∧ (∀ fuel lag w,
          Statistics.BattleshipEnv_init name_order (S fuel) dim ships lag w
            = Raise ValueError)
     ∧ (∀ fuel lag w,
          Statistics.BattleshipAutoplay_init name_order (S fuel) dim ships lag w
            = Raise ValueError)).
Proof.
  intros Hin Hno.
  assert (∀ fuel ro bs pt w,
    Bayesian.BattleshipPlayer_init fuel dim ships ro bs pt w = Raise ValueError
    ∨ Bayesian.BattleshipPlayer_init fuel dim ships ro bs pt w = Diverge) as HB.
  { intros fuel ro bs pt w.
    pose proof (ConstructorFacts.BattleshipPlayer_init_benign fuel dim ships
                  ro bs pt w) as Hb.
    pose proof (ConstructorFacts.BattleshipPlayer_init_long dim ships n L fuel
                  ro bs pt w) as Hr.
    destruct (Bayesian.BattleshipPlayer_init fuel dim ships ro bs pt w)
      as [r|e|]; [by destruct (Hr r)|left; by rewrite Hb|by right]. }
  assert (∀ fuel lag w,
    Statistics.BattleshipEnv_init name_order fuel dim ships lag w = Raise ValueError
    ∨ Statistics.BattleshipEnv_init name_order fuel dim ships lag w = Diverge)
    as HS.
  { intros fuel lag w.
    pose proof (ConstructorFacts.BattleshipEnv_init_benign name_order
                  name_order_perm fuel dim ships lag w) as Hb.
    pose proof (ConstructorFacts.BattleshipEnv_init_long name_order
                  name_order_perm dim ships n L fuel lag w) as Hr.
    destruct (Statistics.BattleshipEnv_init name_order fuel dim ships lag w)
      as [r|e|]; [by destruct (Hr r)|left; by rewrite Hb|by right]. }
  assert (ships ≠ []) as Hne.
  { intros ->. destruct ascii_lowercase; by apply elem_of_nil in Hin. }
  split; [|split; [|split; [|split; [|split; [|split]]]]].
  - destruct (BayesianInit.Battleship_init_spec dim ships) as (g0 & Hg0 & _).
    exists g0. split; [done|]. intros fuel fs w.
    destruct (ConstructorFacts.long_ship_catalogue _ _ _ _ _ Hg0 Hin Hno)
      as (_ & Hl & Hn).
    by eapply ConstructorFacts.place_ship_empty.
  - exact HB.
  - exact HB.
  - destruct (StatisticsInit.st_Battleship_init_spec name_order name_order_perm
                dim ships) as (g0 & Hg0 & _).
    exists g0. split; [done|]. intros fuel fs w.
    destruct (ConstructorFacts.st_long_ship_catalogue name_order name_order_perm
                _ _ _ _ _ Hg0 Hin Hno) as (_ & Hl & Hn).
    by eapply ConstructorFacts.st_place_ship_empty.
  - exact HS.
  - exact HS.
  - intros Hall. split; [|split; [|split]]; intros.
    + by apply ConstructorFacts.BattleshipPlayer_init_raises.
    + by apply ConstructorFacts.BattleshipPlayer_init_raises.
    + by apply ConstructorFacts.BattleshipEnv_init_raises.
    + by apply ConstructorFacts.BattleshipEnv_init_raises.
Qed.

Lemma C3_no_room_witness :
  (∀ fuel ro bs pt w,
     Bayesian.BattleshipPlayer_init (S fuel) 2 [3] ro bs pt w = Raise ValueError)
  ∧ (∀ fuel lag w,
       Statistics.BattleshipEnv_init names_in_order (S fuel) 2 [3] lag w
         = Raise ValueError).
Proof.
  destruct (C3_no_room_never_placed names_in_order names_in_order_perm
              2 [3] "a"%string 3) as (_ & _ & _ & _ & _ & _ & H).
  - apply elem_of_cons. left. reflexivity.
  - right. lia.
  - destruct H as (HB & _ & HS & _).
    + intros n' L' Hin. apply elem_of_cons in Hin as [[= -> ->]|Hin].
      * right. lia.
      * by apply elem_of_nil in Hin.
    + split; [exact HB|exact HS].
Defined.

(** *** C4 *)

(** Ship [i] of the Bayesian game has no layout left that is disjoint from
    [final_set]. *)
Definition stuck (g : Bayesian.game) (i : string) (final_set : gset cell) : Prop :=
  ∃ configs, dget i (Bayesian.possibleShipsDictCond g) = Some configs
             ∧ ∀ e, e ∈ configs → ∃ s, e = Bayesian.ESet s ∧ ¬ s ## final_set.

(** C4: a list of cells that the sampler returns holds every hit, in
    [randomSelection] and through [randomConditionalBoard]; a pass that
    comes to a ship none of whose layouts is disjoint from the cells
    committed so far gives no board: [randomSelection] answers the empty
    set. In the Bayesian variant it does so at once; in the Statistics
    variant it cannot answer anything else, and it does answer once the
    clock has moved by more than [lag/10], as the machine computes the
    difference and the quotient. *)
Theorem C4_sampler_contract
    (set_order : gset cell → list cell)
    (set_order_spec : ∀ s c, c ∈ set_order s ↔ c ∈ s) :
  (∀ fuel g order mustHappen w l order' w',
     Bayesian.randomSelection set_order fuel g order mustHappen w
       = Ret ((Bayesian.Cells l, order'), w') →
     ∀ c, c ∈ Bayesian.hits g → c ∈ l)
  ∧ (∀ fuel g orderIncoming w r w',
       Bayesian.randomConditionalBoard set_order fuel g orderIncoming w
         = Ret (r, w') →
       ∃ l, r = Bayesian.Cells l ∧ ∀ c, c ∈ Bayesian.hits g → c ∈ l)
  ∧ (∀ fuel g o1 i o2 mustHappen ww w ww1 fs1 w1,
       Bayesian.greedy g o1 ww mustHappen w = Ret (Some (ww1, fs1), w1) →
       stuck g i fs1 →
       Bayesian.randomSelection_loop set_order (S fuel) g (o1 ++ i :: o2)
         mustHappen ww w
       = Ret ((Bayesian.EmptySet, o1 ++ i :: o2), w1))
  ∧ (∀ fuel g order mustHappen w l w',
       Statistics.randomSelection set_order fuel g order mustHappen w
         = Ret (Statistics.Cells l, w') →
       ∀ c, c ∈ Statistics.hits g → c ∈ l)
  ∧ (∀ fuel g orderIncoming w r w',
       Statistics.randomConditionalBoard set_order fuel g orderIncoming w
         = Ret (r, w') →
       ∃ l, r = Statistics.Cells l ∧ ∀ c, c ∈ Statistics.hits g → c ∈ l)
  ∧ (∀ fuel g o1 i o2 mustHappen w fs1 w1 r w',
       Statistics.place_all fuel g o1 mustHappen w = Ret (Some fs1, w1) →
       StatisticsSampler.blocked g i fs1 →
       Statistics.randomSelection set_order fuel g (o1 ++ i :: o2) mustHappen w
         = Ret (r, w') →
       r = Statistics.EmptySet)
  ∧ (∀ fuel g o1 i o2 mustHappen w fs1 w1 l m,
       Statistics.place_all fuel g o1 mustHappen w = Ret (Some fs1, w1) →
       StatisticsSampler.blocked g i fs1 →
       dget i (Statistics.possibleShipsDictCond g) = Some l →
       dget i (Statistics.possibleShipsNumDictCond g) = Some (llen l) →
       l ≠ [] →
       (m < fuel)%nat →
       Qltb (fdiv w1 (Statistics.lag g) 10)
            (fsub w1 (clock w1 (S (cpos w1) + m)%nat) (clock w1 (cpos w1)))
         = true →
       ∃ w', Statistics.randomSelection set_order fuel g (o1 ++ i :: o2)
               mustHappen w
             = Ret (Statistics.EmptySet, w')).
Proof.
  split; [|split; [|split; [|split; [|split; [|split]]]]].
  - intros fuel g order mh w l order' w' H.
    apply (BayesianSampler.randomSelection_spec set_order set_order_spec
             (λ _, True)) in H as [_ [Hh _]]; done.
  - intros fuel g oi w r w' H. unfold Bayesian.randomConditionalBoard in H.
    bindL H as acc Hacc.
    apply (BayesianSampler.randomConditionalBoard_loop_spec set_order
             set_order_spec (λ _, True)) in H as (l & -> & _ & Hh & _); [|done..].
    eauto.
  - intros fuel g o1 i o2 mh ww w ww1 fs1 w1 Hg (configs & Hc & Hno).
    cbn [Bayesian.randomSelection_loop].
    unfold mbind at 1, M_bind. rewrite BayesianSampler.greedy_app, Hg.
    by rewrite (BayesianSampler.greedy_stuck g i o2 ww1 fs1 w1 configs).
  - intros fuel g order mh w l w' H.
    by apply (StatisticsSampler.st_randomSelection_spec set_order set_order_spec)
      in H as (Hh & _).
  - intros fuel g oi w r w' H. unfold Statistics.randomConditionalBoard in H.
    bindL H as acc Hacc.
    apply (StatisticsSampler.st_randomConditionalBoard_loop_spec set_order
             set_order_spec (λ _, True)) in H as (l & -> & _ & Hh & _); [|done..].
    eauto.
  - intros fuel g o1 i o2 mh w fs1 w1 r w' Hp Hb H.
    by eapply StatisticsSampler.randomSelection_blocked.
  - intros fuel g o1 i o2 mh w fs1 w1 l m Hp Hb Hl Hn Hne Hm Hclock.
    by eapply StatisticsSampler.randomSelection_timeout.
Qed.

Lemma C4_sampler_witness :
  returns bayes_cornered (λ g,
    Bayesian.randomSelection_loop cells_in_order 1 g ["a"; "b"]%string ∅ []
      (at_draw 1 0)
    = Ret ((Bayesian.EmptySet, ["a"; "b"]%string), at_draw 2 0))
  ∧ returns stat_cornered (λ g,
      ∃ w', Statistics.randomSelection cells_in_order 10 g ["a"; "b"]%string ∅
              (at_draw 1 0)
            = Ret (Statistics.EmptySet, w')).
Proof.
  destruct (C4_sampler_contract cells_in_order cells_in_order_spec)
    as (_ & _ & HB & _ & _ & _ & HS).
  split.
  - apply (returns_the no_bayes); [vm_compute; reflexivity|].
    change ["a"%string; "b"%string] with (["a"%string] ++ "b"%string :: []).
    apply (HB 0%nat (the no_bayes bayes_cornered) ["a"%string] "b"%string []
             ∅ [] (at_draw 1 0)
             [("a"%string, {[(1, 0); (1, 1)]})] {[(1, 0); (1, 1)]} (at_draw 2 0)).
    + vm_compute. reflexivity.
    + exists [Bayesian.ESet {[(0, 0); (1, 0)]}; Bayesian.ESet {[(1, 0); (1, 1)]};
              Bayesian.ESet {[(1, 1); (1, 2)]}].
      split; [vm_compute; reflexivity|].
      intros e He.
      repeat (apply elem_of_cons in He as [->|He]);
        [..|by apply elem_of_nil in He];
        (eexists; split; [reflexivity|]);
        apply meet_by_computation; vm_compute; reflexivity.
  - apply (returns_the no_stat); [vm_compute; reflexivity|].
    change ["a"%string; "b"%string] with (["a"%string] ++ "b"%string :: []).
    apply (HS 10%nat (the no_stat stat_cornered) ["a"%string] "b"%string []
             ∅ (at_draw 1 0)
             {[(1, 1); (1, 2)]} (at_draw 2 1)
             [{[(1, 0); (1, 1)]}; {[(1, 1); (1, 2)]}; {[(1, 2); (2, 2)]}] 3%nat).
    + vm_compute. reflexivity.
    + intros l s Hl Hs.
      assert (l = [{[(1, 0); (1, 1)]}; {[(1, 1); (1, 2)]}; {[(1, 2); (2, 2)]}])
        as -> by (apply (inj Some); rewrite <- Hl; vm_compute; reflexivity).
      clear Hl.
      repeat (apply elem_of_cons in Hs as [->|Hs]);
        [..|by apply elem_of_nil in Hs];
        apply meet_by_computation; vm_compute; reflexivity.
    + vm_compute. reflexivity.
    + vm_compute. reflexivity.
    + done.
    + lia.
    + vm_compute. reflexivity.
Defined.

(** *** Games to run the examples on *)


(** A new Bayesian game on a board of side 3 with two ships of length 2,
    three samples a turn; and the same in the Statistics variant, with a
    budget of one second a turn. *)
Definition bayes_start : Bayesian.game * world :=
  the (no_bayes, w0) (Bayesian.BattleshipAutoplay_init 10 3 [2; 2] false 3 false w0).
Definition stat_start : Statistics.game * world :=
  the (no_stat, w0) (Statistics.BattleshipAutoplay_init names_in_order 10 3 [2; 2] 1 w0).

Lemma bayes_start_playing : BayesianPlay.playing cells_in_order bayes_start.1.
Proof.
  apply (BayesianPlay.playing_init cells_in_order 10 3 [2; 2] false 3 false w0
           bayes_start.1 bayes_start.2).
  vm_compute. reflexivity.
Defined.

Lemma stat_start_playing :
  StatisticsPlay.playing cells_in_order names_in_order stat_start.1.
Proof.
  apply (StatisticsPlay.playing_init cells_in_order names_in_order 10 3 [2; 2] 1 w0
           stat_start.1 stat_start.2).
  vm_compute. reflexivity.
Defined.

(** *** C5 *)

(** C5: on every game that the constructor, [guess], [updateOrientations],
    [buildAggBoard] and the turns of [play] lead to, [updateOrientations]
    returns, and in the game it returns every layout left to a ship that
    is not marked sunk is disjoint from the misses and from the sunk
    cells. *)
Theorem C5_pruned_after_refresh
    (set_order : gset cell → list cell)
    (set_order_spec : ∀ s c, c ∈ set_order s ↔ c ∈ s)
    (name_order : list string → list string)
    (name_order_perm : ∀ l, name_order l ≡ₚ l) :
  (∀ g, BayesianPlay.played set_order g →
     ∃ g', Bayesian.updateOrientations set_order g = Ret g'
           ∧ ∀ n l e, ¬ BayesianFacts.sunk g' n →
               dget n (Bayesian.possibleShipsDictCond g') = Some l → e ∈ l →
               ∃ s, e = Bayesian.ESet s
                    ∧ Bayesian.misses g' ## s ∧ s ## Bayesian.hitsSunk g')
  ∧ (∀ g, StatisticsPlay.played set_order name_order g →
       ∃ g', Statistics.updateOrientations name_order g = Ret g'
             ∧ ∀ n l s, ¬ StatisticsFacts.sunk g' n →
                 dget n (Statistics.possibleShipsDictCond g') = Some l → s ∈ l →
                 Statistics.misses g' ## s ∧ s ## Statistics.hitsSunk g').
Proof.
  split.
  - intros g Hg%(BayesianPlay.played_wf set_order set_order_spec).
    destruct (BayesianFacts.updateOrientations_wf set_order set_order_spec g Hg)
      as (g' & Hg' & _ & Hpr & _).
    exists g'. split; [done|]. exact Hpr.
  - intros g Hg%(StatisticsPlay.st_played_wf set_order set_order_spec
                   name_order name_order_perm).
    destruct (StatisticsFacts.st_updateOrientations_wf name_order name_order_perm g Hg)
      as (g' & Hg' & _ & Hpr & _).
    exists g'. split; [done|]. exact Hpr.
Qed.

Lemma C5_pruned_witness :
  (∃ g', Bayesian.updateOrientations cells_in_order
           (Bayesian.guess (0, 1) bayes_start.1) = Ret g'
         ∧ ∀ n l e, ¬ BayesianFacts.sunk g' n →
             dget n (Bayesian.possibleShipsDictCond g') = Some l → e ∈ l →
             ∃ s, e = Bayesian.ESet s
                  ∧ Bayesian.misses g' ## s ∧ s ## Bayesian.hitsSunk g')
  ∧ (∃ g', Statistics.updateOrientations names_in_order
             (Statistics.guess (0, 0) stat_start.1) = Ret g'
           ∧ ∀ n l s, ¬ StatisticsFacts.sunk g' n →
               dget n (Statistics.possibleShipsDictCond g') = Some l → s ∈ l →
               Statistics.misses g' ## s ∧ s ## Statistics.hitsSunk g').
Proof.
  destruct (C5_pruned_after_refresh cells_in_order cells_in_order_spec
              names_in_order names_in_order_perm) as [HB HS].
  split.
  - apply HB, BayesianPlay.played_guess, BayesianPlay.playing_played.
    exact bayes_start_playing.
  - apply HS, StatisticsPlay.played_guess, StatisticsPlay.st_playing_played.
    exact stat_start_playing.
Defined.

(** *** C10 *)

(** C10: on every game that the constructor, [guess], [updateOrientations],
    [buildAggBoard] and the turns of [play] lead to, the placement of a
    ship that is not marked sunk is among its candidates, so that its
    candidate list is not empty. *)
Theorem C10_truth_stays
    (set_order : gset cell → list cell)
    (set_order_spec : ∀ s c, c ∈ set_order s ↔ c ∈ s)
    (name_order : list string → list string)
    (name_order_perm : ∀ l, name_order l ≡ₚ l) :
  (∀ g n loc, BayesianPlay.played set_order g →
     (n, loc) ∈ Bayesian.boats g → ¬ BayesianFacts.sunk g n →
     ∃ l, dget n (Bayesian.possibleShipsDictCond g) = Some l
          ∧ Bayesian.ESet loc ∈ l ∧ l ≠ [])
  ∧ (∀ g n loc, StatisticsPlay.played set_order name_order g →
       (n, loc) ∈ Statistics.boats g → ¬ StatisticsFacts.sunk g n →
       ∃ l, dget n (Statistics.possibleShipsDictCond g) = Some l
            ∧ loc ∈ l ∧ l ≠ []).
Proof.
  split.
  - intros g n loc Hg%(BayesianPlay.played_wf set_order set_order_spec) Hb Hn.
    destruct (BayesianFacts.wf_truth g Hg n loc Hb Hn) as (l & Hl & Hin).
    exists l. split; [done|]. split; [done|]. intros ->.
    by apply elem_of_nil in Hin.
  - intros g n loc Hg%(StatisticsPlay.st_played_wf set_order set_order_spec
                         name_order name_order_perm) Hb Hn.
    destruct (StatisticsFacts.wf_truth g Hg n loc Hb Hn) as (l & Hl & Hin).
    exists l. split; [done|]. split; [done|]. intros ->.
    by apply elem_of_nil in Hin.
Qed.

Lemma C10_truth_witness :
  (∃ l, dget "a"%string (Bayesian.possibleShipsDictCond bayes_start.1) = Some l
        ∧ Bayesian.ESet {[(0, 0); (1, 0)]} ∈ l ∧ l ≠ [])
  ∧ (∃ l, dget "a"%string (Statistics.possibleShipsDictCond stat_start.1) = Some l
          ∧ {[(1, 0); (1, 1)]} ∈ l ∧ l ≠ []).
Proof.
  destruct (C10_truth_stays cells_in_order cells_in_order_spec
              names_in_order names_in_order_perm) as [HB HS].
  split.
  - apply HB.
    + apply BayesianPlay.playing_played. exact bayes_start_playing.
    + assert (Bayesian.boats bayes_start.1
              = [("b"%string, {[(1, 1); (1, 2)]}); ("a"%string, {[(0, 0); (1, 0)]})])
        as -> by (vm_compute; reflexivity).
      apply elem_of_cons. right. apply elem_of_cons. left. reflexivity.
    + unfold BayesianFacts.sunk. vm_compute. intros [=].
  - apply HS.
    + apply StatisticsPlay.st_playing_played. exact stat_start_playing.
    + assert (Statistics.boats stat_start.1
              = [("a"%string, {[(1, 0); (1, 1)]}); ("b"%string, {[(1, 2); (2, 2)]})])
        as -> by (vm_compute; reflexivity).
      apply elem_of_cons. left. reflexivity.
    + unfold StatisticsFacts.sunk. vm_compute. intros [=].
Defined.

(** *** C7 *)




(** *** C8 *)



(** *** C9 *)






(** *** C6 *)





End Claims.
